(** * ZayDroids: the per-frame simulation of the asteroid game, embedded in Rocq

    The development follows [src/main.cpp] (the desktop build, functions in
    snake_case) and, where the web build [src/unnamed/part_000] (functions in
    CamelCase) is written differently, that file as well.

    Numbers.  The C++ type [float] is kept abstract: every function of the
    game is written once over an interface [FloatOps] that provides the
    arithmetic operators, the two comparisons the code uses, the conversion
    to [int] and the libm functions.  The theorems hold for every
    implementation of the interface that satisfies two laws about
    comparison with zero, which IEEE binary32 arithmetic does ([Binary32]),
    unless they say otherwise: a distance or a comparison is then the one
    the code computes.  The code can be run inside Rocq in binary32
    ([B32]) and on the exact rationals ([QF]).  The few theorems that are
    stated for the reals (exact, or with a rounding after every operation,
    [Rounded]) or for the exact rationals are about where a thing lands on
    the screen and about the invulnerability timer, with bounds that the
    rounding of binary32 respects.

    The C++ type [int] is modelled by [Z]: signed overflow is undefined
    behaviour in C++, so only executions without overflow have a meaning.

    Randomness.  The global generator [gen] is an explicit tape of raw
    32-bit draws with a cursor; the distributions of the standard library
    are maps from raw draws to values.

    The loop [while (true)] of [spawn_wave] takes a bound on the number of
    rejected samples (fuel), and reports [Diverge] when it is exceeded. *)

From Stdlib Require Import String Ascii ZArith QArith Qround List Bool Lia Lqa.
From Stdlib Require Import Reals Lra Qreals SpecFloat.
Import ListNotations.

(** ** The interface of [float] *)

Class FloatOps : Type := {
  float : Type;
  (** a literal, or an [int] converted to [float] *)
  lit : Q -> float;
  fadd : float -> float -> float;
  fsub : float -> float -> float;
  fmul : float -> float -> float;
  fdiv : float -> float -> float;
  fneg : float -> float;
  (** [a < b] and [a <= b] *)
  fltb : float -> float -> bool;
  fleb : float -> float -> bool;
  (** [static_cast<int>] *)
  ftrunc : float -> Z;
  (** libm *)
  fcos : float -> float;
  fsin : float -> float;
  fpow : float -> float -> float;
  fsqrt : float -> float;
  fhypot : float -> float -> float;
  (** the two laws the control flow of the game relies on *)
  pos_not_le0 : forall a, fltb (lit 0) a = true -> fleb a (lit 0) = false;
  zero_le0 : fleb (lit 0) (lit 0) = true
}.

Declare Scope float_scope.
Delimit Scope float_scope with f.
Bind Scope float_scope with float.
Notation "a + b" := (fadd a b) : float_scope.
Notation "a - b" := (fsub a b) : float_scope.
Notation "a * b" := (fmul a b) : float_scope.
Notation "a / b" := (fdiv a b) : float_scope.
Notation "- a" := (fneg a) : float_scope.
Notation "a <? b" := (fltb a b) : float_scope.
Notation "a <=? b" := (fleb a b) : float_scope.
Notation "a >? b" := (fltb b a) (only parsing) : float_scope.

(** ** Constants *)

Definition SCREEN_WIDTH : Z := 900.
Definition SCREEN_HEIGHT : Z := 650.

Definition M_PI : Q := 3.14159265358979323846.

Section Constants.
Context {FO : FloatOps}.

(** [int] to [float] *)
Definition of_int (n : Z) : float := lit (inject_Z n).

Definition SHIP_RADIUS : float := lit 12.0.
Definition SHIP_TURN_SPEED : float := lit 3.5.
Definition SHIP_ACCEL : float := lit 260.0.
Definition SHIP_FRICTION : float := lit 0.98.
Definition SHIP_MAX_SPEED : float := lit 360.0.

Definition BULLET_SPEED : float := lit 520.0.
Definition BULLET_LIFETIME : float := lit 1.2.
Definition BULLET_COOLDOWN : float := lit 0.18.

Definition ASTEROID_BASE_SPEED : float := lit 40.0.
Definition ASTEROID_SIZES : list Z := [3; 2; 1]%Z.
Definition ASTEROID_RADII : list (Z * float) :=
  [(3%Z, lit 42.0); (2%Z, lit 26.0); (1%Z, lit 14.0)].
End Constants.

Definition LIVES_START : Z := 3.

(** ** Vectors and the utility functions *)

Record Vector2 {FO : FloatOps} : Type := mkVector2 { x : float; y : float }.
Arguments mkVector2 {FO} x y.

Section Utility.
Context {FO : FloatOps}.
Local Open Scope float_scope.

Definition wrap_position (pos : Vector2) : Vector2 :=
  let px :=
    if x pos <? lit 0 then x pos + of_int SCREEN_WIDTH
    else if x pos >? of_int SCREEN_WIDTH then x pos - of_int SCREEN_WIDTH
    else x pos in
  let py :=
    if y pos <? lit 0 then y pos + of_int SCREEN_HEIGHT
    else if y pos >? of_int SCREEN_HEIGHT then y pos - of_int SCREEN_HEIGHT
    else y pos in
  mkVector2 px py.

Definition vec_from_angle (angle : float) : Vector2 :=
  mkVector2 (fcos angle) (fsin angle).

(** [std::hypot] in main.cpp *)
Definition vec_len (v : Vector2) : float := fhypot (x v) (y v).

(** [sqrtf(v.x * v.x + v.y * v.y)] in the web build *)
Definition VecLen (v : Vector2) : float := fsqrt (x v * x v + y v * y v).

Definition vec_scale (v : Vector2) (s : float) : Vector2 :=
  mkVector2 (x v * s) (y v * s).

Definition vec_add (a b : Vector2) : Vector2 :=
  mkVector2 (x a + x b) (y a + y b).

Definition vec_sub (a b : Vector2) : Vector2 :=
  mkVector2 (x a - x b) (y a - y b).

Definition vec_clamp_length (v : Vector2) (max_len : float) : Vector2 :=
  let length := vec_len v in
  if (length >? max_len) && (length >? lit 0) then
    let scale := max_len / length in
    vec_scale v scale
  else v.

Definition VecClampLength (v : Vector2) (maxLen : float) : Vector2 :=
  let len := VecLen v in
  if (len >? maxLen) && (len >? lit 0) then
    let scale := maxLen / len in
    vec_scale v scale
  else v.

Definition circle_collision (p1 : Vector2) (r1 : float)
                            (p2 : Vector2) (r2 : float) : bool :=
  let dx := x p1 - x p2 in
  let dy := y p1 - y p2 in
  (dx * dx + dy * dy) <=? (r1 + r2) * (r1 + r2).
End Utility.

(** ** Results of code that can throw or loop *)

Inductive outcome (A : Type) : Type :=
| Done (a : A)
| OutOfRange   (** [std::out_of_range], thrown by [std::map::at] *)
| Diverge.     (** the bound on the sampling loop was exceeded *)
Arguments Done {A} a.
Arguments OutOfRange {A}.
Arguments Diverge {A}.

(** ** The random generator

    [gen] is a [std::mt19937]: each call yields one raw 32-bit number.  The
    tape lists the raw numbers of the run, the cursor counts the calls made
    so far. *)

Record Rng : Type := mkRng { tape : nat -> Z; cursor : nat }.

(** Code that draws from [gen], and can throw or loop. *)
Definition Rand (A : Type) : Type := Rng -> outcome (A * Rng).

Definition ret {A : Type} (a : A) : Rand A := fun g => Done (a, g).

Definition bind {A B : Type} (m : Rand A) (k : A -> Rand B) : Rand B :=
  fun g =>
    match m g with
    | Done (a, g') => k a g'
    | OutOfRange => OutOfRange
    | Diverge => Diverge
    end.

Definition throw {A : Type} : Rand A := fun _ => OutOfRange.
Definition diverge {A : Type} : Rand A := fun _ => Diverge.

Declare Scope rand_scope.
Delimit Scope rand_scope with rand.
Notation "v <- m ;; k" := (bind m (fun v => k))
  (at level 61, m at next level, right associativity) : rand_scope.

(** One call [gen()]. *)
Definition gen : Rand Z :=
  fun g => Done (tape g (cursor g), mkRng (tape g) (S (cursor g))).

Section Distributions.
Context {FO : FloatOps}.
Local Open Scope float_scope.
Local Open Scope rand_scope.

(** [std::generate_canonical<float>]: a raw draw scaled to the unit
    interval. *)
Definition canonical (raw : Z) : float :=
  lit (inject_Z raw / inject_Z (2 ^ 32))%Q.

(** [std::uniform_real_distribution<float> d(a, b); d(gen)] *)
Definition uniform_real (a b : float) : Rand float :=
  raw <- gen ;;
  ret (canonical raw * (b - a) + a).

(** [std::uniform_int_distribution<int> d(a, b); d(gen)] *)
Definition uniform_int (a b : Z) : Rand Z :=
  raw <- gen ;;
  ret (a + raw mod (b - a + 1))%Z.

Definition random_asteroid_velocity (size : Z) : Rand Vector2 :=
  angle <- uniform_real (lit 0.0) (lit 2.0 * lit M_PI) ;;
  s <- uniform_real (lit 0.0) (lit 40.0) ;;
  let speed := ASTEROID_BASE_SPEED + s + of_int (3 - size) * lit 20.0 in
  ret (vec_scale (vec_from_angle angle) speed).
End Distributions.

(** ** Input and drawing: the raylib calls the game makes *)

Record Input : Type := mkInput {
  down_LEFT : bool;   (** [IsKeyDown(KEY_LEFT)] *)
  down_A : bool;
  down_RIGHT : bool;
  down_D : bool;
  down_UP : bool;
  down_W : bool;
  down_SPACE : bool;
  pressed_MOUSE0 : bool;  (** [IsMouseButtonPressed(0)] *)
  down_MOUSE_LEFT : bool; (** [IsMouseButtonDown(MOUSE_LEFT_BUTTON)], web build *)
  gesture_TAP : bool;     (** [IsGestureDetected(GESTURE_TAP)], web build *)
  pressed_ENTER : bool    (** [IsKeyPressed(KEY_ENTER)] *)
}.

Inductive Color : Type :=
| WHITE | SKYBLUE | YELLOW | LIGHTGRAY | RAYWHITE | RED
| RGBA (r g b a : Z).

Inductive DrawCmd {FO : FloatOps} : Type :=
| DrawTriangle (p1 p2 p3 : Vector2) (c : Color)
| DrawTriangleLines (p1 p2 p3 : Vector2) (c : Color)
| DrawCircleV (center : Vector2) (radius : float) (c : Color)
| DrawLineV (a b : Vector2) (c : Color)
| DrawText (fmt : string) (arg : option Z) (posX posY fontSize : Z) (c : Color).

(** ** Bullet *)

Module Bullet.
Section Defs.
Context {FO : FloatOps}.
Local Open Scope float_scope.

Record t : Type := mk { pos : Vector2; vel : Vector2; life : float }.

Definition new (pos_ vel_ : Vector2) : t :=
  mk (mkVector2 (x pos_) (y pos_)) (mkVector2 (x vel_) (y vel_))
     BULLET_LIFETIME.

Definition update (dt : float) (b : t) : t :=
  let pos1 := vec_add (pos b) (vec_scale (vel b) dt) in
  let pos2 := wrap_position pos1 in
  mk pos2 (vel b) (life b - dt).

Definition draw (b : t) : list DrawCmd :=
  [DrawCircleV (pos b) (lit 2.0) YELLOW].

(** [bullet->life = 0] *)
Definition set_life (l : float) (b : t) : t := mk (pos b) (vel b) l.
End Defs.
End Bullet.

(** ** Player *)

Module Player.
Section Defs.
Context {FO : FloatOps}.
Local Open Scope float_scope.

Record t : Type := mk {
  pos : Vector2;
  vel : Vector2;
  angle : float;
  cooldown : float;
  invuln : float;
  alive : bool
}.

Definition center : Vector2 :=
  mkVector2 (of_int SCREEN_WIDTH / lit 2.0) (of_int SCREEN_HEIGHT / lit 2.0).

(** The constructor [Player()] of main.cpp: no invulnerability. *)
Definition new : t :=
  mk center (mkVector2 (lit 0.0) (lit 0.0)) (- lit M_PI / lit 2.0)
     (lit 0.0) (lit 0.0) true.

Definition reset (p : t) : t :=
  mk center (mkVector2 (lit 0.0) (lit 0.0)) (- lit M_PI / lit 2.0)
     (lit 0.0) (lit 2.0) true.

Definition update (inp : Input) (dt : float) (p : t) : t :=
  let angle1 :=
    if down_LEFT inp || down_A inp then angle p - SHIP_TURN_SPEED * dt
    else angle p in
  let angle2 :=
    if down_RIGHT inp || down_D inp then angle1 + SHIP_TURN_SPEED * dt
    else angle1 in
  let vel1 :=
    if down_UP inp || down_W inp then
      let thrust := vec_scale (vec_from_angle angle2) (SHIP_ACCEL * dt) in
      vec_add (vel p) thrust
    else vel p in
  let vel2 := vec_scale vel1 (fpow SHIP_FRICTION (dt * lit 60.0)) in
  let vel3 := vec_clamp_length vel2 SHIP_MAX_SPEED in
  let pos1 := vec_add (pos p) (vec_scale vel3 dt) in
  let pos2 := wrap_position pos1 in
  let cooldown1 :=
    if cooldown p >? lit 0 then cooldown p - dt else cooldown p in
  let invuln1 :=
    if invuln p >? lit 0 then invuln p - dt else invuln p in
  mk pos2 vel3 angle2 cooldown1 invuln1 (alive p).

(** [Bullet *Player::shoot()]: [None] is [nullptr]. *)
Definition shoot (p : t) : option Bullet.t * t :=
  if cooldown p <=? lit 0 then
    let dir_vec := vec_from_angle (angle p) in
    let bullet_pos :=
      vec_add (pos p) (vec_scale dir_vec (SHIP_RADIUS + lit 6.0)) in
    let bullet_vel := vec_add (vel p) (vec_scale dir_vec BULLET_SPEED) in
    (Some (Bullet.new bullet_pos bullet_vel),
     mk (pos p) (vel p) (angle p) BULLET_COOLDOWN (invuln p) (alive p))
  else (None, p).

Definition draw (p : t) : list DrawCmd :=
  let dir_vec := vec_from_angle (angle p) in
  let right_vec := vec_from_angle (angle p + lit 2.5) in
  let left_vec := vec_from_angle (angle p - lit 2.5) in
  let p1 := vec_add (pos p) (vec_scale dir_vec (SHIP_RADIUS + lit 8.0)) in
  let p2 := vec_add (pos p) (vec_scale right_vec SHIP_RADIUS) in
  let p3 := vec_add (pos p) (vec_scale left_vec SHIP_RADIUS) in
  let color :=
    if (invuln p >? lit 0)
       && (Z.rem (ftrunc (invuln p * lit 10.0)) 2 =? 0)%Z
    then RGBA 255 255 255 80
    else WHITE in
  [DrawTriangle p1 p2 p3 color; DrawTriangleLines p1 p2 p3 SKYBLUE].

(** [player.invuln = 2.0f] *)
Definition set_invuln (v : float) (p : t) : t :=
  mk (pos p) (vel p) (angle p) (cooldown p) v (alive p).

(** The web build splits firing in two. *)
Definition CanShoot (p : t) : bool := cooldown p <=? lit 0.

Definition Shoot (p : t) : Bullet.t * t :=
  let p' := mk (pos p) (vel p) (angle p) BULLET_COOLDOWN (invuln p) (alive p) in
  let dir := vec_from_angle (angle p') in
  let bp := vec_add (pos p') (vec_scale dir (SHIP_RADIUS + lit 6)) in
  let bv := vec_add (vel p') (vec_scale dir BULLET_SPEED) in
  (Bullet.mk bp bv BULLET_LIFETIME, p').
End Defs.
End Player.

(** ** Asteroid *)

Module Asteroid.
Section Defs.
Context {FO : FloatOps}.
Local Open Scope float_scope.
Local Open Scope rand_scope.

Record t : Type := mk {
  pos : Vector2;
  size : Z;
  radius : float;
  vel : Vector2;
  points : list Vector2
}.

(** [std::map<int, float>::at] *)
Fixpoint map_at (m : list (Z * float)) (k : Z) : option float :=
  match m with
  | [] => None
  | (k', v) :: m' => if (k' =? k)%Z then Some v else map_at m' k
  end.

(** The body of the loop of [_generate_shape], for [i], [i+1], ... and
    [n] more rounds. *)
Fixpoint shape_loop (n : nat) (i count : Z) (radius_ : float)
                    (pts : list Vector2) : Rand (list Vector2) :=
  match n with
  | O => ret pts
  | S n' =>
      let angle := of_int i / of_int count * lit 2.0 * lit M_PI in
      u <- uniform_real (lit 0.7) (lit 1.1) ;;
      let r := radius_ * u in
      shape_loop n' (i + 1)%Z count radius_
                 (pts ++ [mkVector2 (fcos angle * r) (fsin angle * r)])
  end.

Definition _generate_shape (radius_ : float) : Rand (list Vector2) :=
  count <- uniform_int 10 14 ;;
  shape_loop (Z.to_nat count) 0 count radius_ [].

(** The constructor [Asteroid(pos_, size_)]. *)
Definition new (pos_ : Vector2) (size_ : Z) : Rand t :=
  match map_at ASTEROID_RADII size_ with
  | None => throw
  | Some radius_ =>
      vel_ <- random_asteroid_velocity size_ ;;
      points_ <- _generate_shape radius_ ;;
      ret (mk (mkVector2 (x pos_) (y pos_)) size_ radius_ vel_ points_)
  end.

Definition update (dt : float) (a : t) : t :=
  let pos1 := vec_add (pos a) (vec_scale (vel a) dt) in
  let pos2 := wrap_position pos1 in
  mk pos2 (size a) (radius a) (vel a) (points a).

Definition draw (a : t) : list DrawCmd :=
  let count := length (points a) in
  let origin := mkVector2 (lit 0) (lit 0) in
  map (fun i =>
         let pa := vec_add (pos a) (nth i (points a) origin) in
         let pb := vec_add (pos a)
                     (nth ((i + 1) mod count) (points a) origin) in
         DrawLineV pa pb LIGHTGRAY)
      (seq 0 count).

(** [child->vel = ...] *)
Definition set_vel (v : Vector2) (a : t) : t :=
  mk (pos a) (size a) (radius a) v (points a).
End Defs.
End Asteroid.

(** ** Game *)

Module Game.
Section Defs.
Context {FO : FloatOps}.
Local Open Scope float_scope.
Local Open Scope rand_scope.

Record t : Type := mk {
  player : Player.t;
  bullets : list Bullet.t;
  asteroids : list Asteroid.t;
  score : Z;
  lives : Z;
  wave : Z;
  game_over : bool
}.

(** The loop [while (true)] of [spawn_wave]: at most [fuel] samples. *)
Fixpoint sample_position (fuel : nat) (player_pos : Vector2)
  : Rand Vector2 :=
  match fuel with
  | O => diverge
  | S fuel' =>
      px <- uniform_real (lit 0.0) (of_int SCREEN_WIDTH) ;;
      py <- uniform_real (lit 0.0) (of_int SCREEN_HEIGHT) ;;
      let pos := mkVector2 px py in
      if negb (circle_collision pos (lit 80.0) player_pos (lit 120.0))
      then ret pos
      else sample_position fuel' player_pos
  end.

(** [n] rounds of the loop [for (int i = 0; i < count; i++)]. *)
Fixpoint spawn_loop (fuel n : nat) (player_pos : Vector2)
                    (acc : list Asteroid.t) : Rand (list Asteroid.t) :=
  match n with
  | O => ret acc
  | S n' =>
      pos <- sample_position fuel player_pos ;;
      a <- Asteroid.new pos 3 ;;
      spawn_loop fuel n' player_pos (acc ++ [a])
  end.

Definition spawn_wave (fuel : nat) (wave_num : Z) (g : t) : Rand t :=
  let count := (3 + wave_num)%Z in
  asts <- spawn_loop fuel (Z.to_nat count) (Player.pos (player g)) [] ;;
  ret (mk (player g) (bullets g) asts
          (score g) (lives g) (wave g) (game_over g)).

(** The constructor [Game()]. *)
Definition new (fuel : nat) : Rand t :=
  spawn_wave fuel 1 (mk Player.new [] [] 0 LIVES_START 1 false).

Definition reset (fuel : nat) (g : t) : Rand t :=
  spawn_wave fuel 1
    (mk (Player.reset (player g)) [] (asteroids g) 0 LIVES_START 1 false).

(** [std::remove_if] with the predicate [b->life <= 0]. *)
Definition remove_dead (bs : list Bullet.t) : list Bullet.t :=
  filter (fun b => negb (Bullet.life b <=? lit 0)) bs.

(** *** Bullets against asteroids *)

(** The inner loop over the bullets for one asteroid: the bullets after
    the first hit, or [None] when no bullet hits. *)
Fixpoint first_hit (a : Asteroid.t) (bs : list Bullet.t)
  : option (list Bullet.t) :=
  match bs with
  | [] => None
  | b :: bs' =>
      if circle_collision (Bullet.pos b) (lit 2.0)
                          (Asteroid.pos a) (Asteroid.radius a)
      then Some (Bullet.set_life (lit 0) b :: bs')
      else option_map (cons b) (first_hit a bs')
  end.

(** [n] rounds of the loop [for (int i = 0; i < 2; i++)]. *)
Fixpoint children_loop (n : nat) (a : Asteroid.t)
                       (new_asteroids : list Asteroid.t)
  : Rand (list Asteroid.t) :=
  match n with
  | O => ret new_asteroids
  | S n' =>
      child <- Asteroid.new (Asteroid.pos a) (Asteroid.size a - 1) ;;
      v <- random_asteroid_velocity (Asteroid.size a - 1) ;;
      children_loop n' a (new_asteroids ++ [Asteroid.set_vel v child])
  end.

(** What the loop over the asteroids carries along. *)
Record pass : Type := mkPass {
  p_bullets : list Bullet.t;
  p_score : Z;
  new_asteroids : list Asteroid.t;
  remaining_asteroids : list Asteroid.t
}.

(** The body of the loop over the asteroids. *)
Definition resolve_asteroid (a : Asteroid.t) (st : pass) : Rand pass :=
  match first_hit a (p_bullets st) with
  | Some bs' =>
      let score' := (p_score st + 10 * Asteroid.size a)%Z in
      kids <- (if (Asteroid.size a >? 1)%Z
               then children_loop 2 a (new_asteroids st)
               else ret (new_asteroids st)) ;;
      ret (mkPass bs' score' kids (remaining_asteroids st))
  | None =>
      ret (mkPass (p_bullets st) (p_score st) (new_asteroids st)
                  (remaining_asteroids st ++ [a]))
  end.

Fixpoint resolve_all (asts : list Asteroid.t) (st : pass) : Rand pass :=
  match asts with
  | [] => ret st
  | a :: rest => st' <- resolve_asteroid a st ;; resolve_all rest st'
  end.

Definition bullets_vs_asteroids (g : t) : Rand t :=
  st <- resolve_all (asteroids g) (mkPass (bullets g) (score g) [] []) ;;
  ret (mk (player g)
          (remove_dead (p_bullets st))
          (remaining_asteroids st ++ new_asteroids st)
          (p_score st) (lives g) (wave g) (game_over g)).

(** *** Player against asteroids *)

(** The player was hit: [lives--; player.reset(); if (lives <= 0) ...] *)
Definition lose_life (g : t) : t :=
  let lives' := (lives g - 1)%Z in
  mk (Player.reset (player g)) (bullets g) (asteroids g) (score g) lives'
     (wave g) (if (lives' <=? 0)%Z then true else game_over g).

(** The loop over the asteroids, left by [break] at the first overlap. *)
Fixpoint player_loop (asts : list Asteroid.t) (g : t) : t :=
  match asts with
  | [] => g
  | a :: rest =>
      if circle_collision (Player.pos (player g)) SHIP_RADIUS
                          (Asteroid.pos a) (Asteroid.radius a)
      then lose_life g
      else player_loop rest g
  end.

Definition player_vs_asteroids (g : t) : t :=
  if Player.invuln (player g) <=? lit 0
  then player_loop (asteroids g) g
  else g.

Definition handle_collisions (g : t) : Rand t :=
  g1 <- bullets_vs_asteroids g ;;
  ret (player_vs_asteroids g1).

(** *** One frame *)

(** [update] from [player.update(dt)] to [handle_collisions()]. *)
Definition advance (inp : Input) (dt : float) (g : t) : Rand t :=
  let player1 := Player.update inp dt (player g) in
  let '(player2, bullets1) :=
    if down_SPACE inp || pressed_MOUSE0 inp then
      match Player.shoot player1 with
      | (Some bullet, p) => (p, bullets g ++ [bullet])
      | (None, p) => (p, bullets g)
      end
    else (player1, bullets g) in
  let bullets2 := map (Bullet.update dt) bullets1 in
  let bullets3 := remove_dead bullets2 in
  let asteroids1 := map (Asteroid.update dt) (asteroids g) in
  handle_collisions
    (mk player2 bullets3 asteroids1
        (score g) (lives g) (wave g) (game_over g)).

(** The end of [update]: [if (asteroids.empty()) ...] *)
Definition next_wave (fuel : nat) (g : t) : Rand t :=
  match asteroids g with
  | [] =>
      let wave' := (wave g + 1)%Z in
      spawn_wave fuel wave'
        (mk (Player.set_invuln (lit 2.0) (player g)) (bullets g)
            (asteroids g) (score g) (lives g) wave' (game_over g))
  | _ :: _ => ret g
  end.

Definition update (fuel : nat) (inp : Input) (dt : float) (g : t)
  : Rand t :=
  if game_over g then
    if pressed_ENTER inp then reset fuel g else ret g
  else
    g1 <- advance inp dt g ;;
    next_wave fuel g1.

Definition draw (MeasureText : string -> Z -> Z) (g : t) : list DrawCmd :=
  flat_map Asteroid.draw (asteroids g)
  ++ flat_map Bullet.draw (bullets g)
  ++ (if negb (game_over g) || (Player.invuln (player g) >? lit 0)
      then Player.draw (player g) else [])
  ++ [DrawText "Score: %d" (Some (score g)) 20 20 20 RAYWHITE;
      DrawText "Lives: %d" (Some (lives g)) 20 45 20 RAYWHITE;
      DrawText "Wave: %d" (Some (wave g)) 20 70 20 RAYWHITE]
  ++ (if game_over g then
        let text := "GAME OVER"%string in
        let sub := "Press ENTER to restart"%string in
        let w := MeasureText text 48%Z in
        let sw := MeasureText sub 20%Z in
        [DrawText text None
                  (Z.quot (SCREEN_WIDTH - w) 2)
                  (Z.quot SCREEN_HEIGHT 2 - 40) 48 RED;
         DrawText sub None
                  (Z.quot (SCREEN_WIDTH - sw) 2)
                  (Z.quot SCREEN_HEIGHT 2 + 20) 20 RAYWHITE]
      else []).
End Defs.
End Game.

(** ** The web build

    [src/unnamed/part_000] has the same classes with values instead of
    pointers.  The records above are shared; this module holds the
    functions that are written differently.  [WrapPosition], [VecScale],
    [VecAdd], [CircleCollision], [Bullet::Update], [Asteroid::Update] and
    [Player::Update] are [wrap_position], [vec_scale], [vec_add],
    [circle_collision], [Bullet.update], [Asteroid.update] and
    [Player.update] (with [VecClampLength] in place of [vec_clamp_length]).

    [RAND_MAX] (from <cstdlib>) and [GetRandomValue] (from raylib) are not
    in the sources and are parameters. *)

Module Web.
Section Defs.
Context {FO : FloatOps}.
Variable RAND_MAX : Z.
Variable GetRandomValue : Z -> Z -> Rand Z.
Local Open Scope float_scope.
Local Open Scope rand_scope.

(** raylib's [PI] *)
Definition PI : float := lit 3.14159265358979323846.

(** [rand()] takes the next raw number of the tape. *)
Definition RandomRange (min max : float) : Rand float :=
  raw <- gen ;;
  ret (min + of_int raw / of_int RAND_MAX * (max - min)).

Definition RandomAsteroidVelocity (size : Z) : Rand Vector2 :=
  angle <- RandomRange (lit 0) (PI * lit 2) ;;
  s <- RandomRange (lit 0) (lit 40) ;;
  let speed := ASTEROID_BASE_SPEED + s + of_int ((3 - size) * 20) in
  ret (vec_scale (vec_from_angle angle) speed).

Fixpoint shape_loop (n : nat) (i count : Z) (radius_ : float)
                    (pts : list Vector2) : Rand (list Vector2) :=
  match n with
  | O => ret pts
  | S n' =>
      let angle := of_int i / of_int count * PI * lit 2 in
      u <- RandomRange (lit 0.7) (lit 1.1) ;;
      let r := radius_ * u in
      shape_loop n' (i + 1)%Z count radius_
                 (pts ++ [mkVector2 (fcos angle * r) (fsin angle * r)])
  end.

Definition GenerateShape (radius_ : float) : Rand (list Vector2) :=
  count <- GetRandomValue 10 14 ;;
  shape_loop (Z.to_nat count) 0 count radius_ [].

(** The constructor [Asteroid(p, s)]. *)
Definition NewAsteroid (p : Vector2) (s : Z) : Rand Asteroid.t :=
  let radius_ :=
    if (s =? 3)%Z then of_int 42
    else if (s =? 2)%Z then of_int 26 else of_int 14 in
  vel_ <- RandomAsteroidVelocity s ;;
  points_ <- GenerateShape radius_ ;;
  ret (Asteroid.mk p s radius_ vel_ points_).

(** The constructor [Player()] calls [Reset()]. *)
Definition NewPlayer : Player.t := Player.reset Player.new.

Definition PlayerUpdate (inp : Input) (dt : float) (p : Player.t)
  : Player.t :=
  let angle1 :=
    if down_LEFT inp || down_A inp
    then Player.angle p - SHIP_TURN_SPEED * dt else Player.angle p in
  let angle2 :=
    if down_RIGHT inp || down_D inp
    then angle1 + SHIP_TURN_SPEED * dt else angle1 in
  let vel1 :=
    if down_UP inp || down_W inp then
      let thrust := vec_scale (vec_from_angle angle2) (SHIP_ACCEL * dt) in
      vec_add (Player.vel p) thrust
    else Player.vel p in
  let vel2 := vec_scale vel1 (fpow SHIP_FRICTION (dt * of_int 60)) in
  let vel3 := VecClampLength vel2 SHIP_MAX_SPEED in
  let pos1 := vec_add (Player.pos p) (vec_scale vel3 dt) in
  let pos2 := wrap_position pos1 in
  let cooldown1 :=
    if Player.cooldown p >? lit 0
    then Player.cooldown p - dt else Player.cooldown p in
  let invuln1 :=
    if Player.invuln p >? lit 0
    then Player.invuln p - dt else Player.invuln p in
  Player.mk pos2 vel3 angle2 cooldown1 invuln1 (Player.alive p).

(** The loop [do ... while (CircleCollision(...))] of [SpawnWave]. *)
Fixpoint sample_position (fuel : nat) (player_pos : Vector2)
  : Rand Vector2 :=
  match fuel with
  | O => diverge
  | S fuel' =>
      px <- RandomRange (lit 0) (of_int SCREEN_WIDTH) ;;
      py <- RandomRange (lit 0) (of_int SCREEN_HEIGHT) ;;
      let pos := mkVector2 px py in
      if circle_collision pos (of_int 80) player_pos (of_int 120)
      then sample_position fuel' player_pos
      else ret pos
  end.

Fixpoint spawn_loop (fuel n : nat) (player_pos : Vector2)
                    (acc : list Asteroid.t) : Rand (list Asteroid.t) :=
  match n with
  | O => ret acc
  | S n' =>
      pos <- sample_position fuel player_pos ;;
      a <- NewAsteroid pos 3 ;;
      spawn_loop fuel n' player_pos (acc ++ [a])
  end.

Definition SpawnWave (fuel : nat) (g : Game.t) : Rand Game.t :=
  let count := (3 + Game.wave g)%Z in
  asts <- spawn_loop fuel (Z.to_nat count)
                     (Player.pos (Game.player g)) [] ;;
  ret (Game.mk (Game.player g) (Game.bullets g) asts (Game.score g)
               (Game.lives g) (Game.wave g) (Game.game_over g)).

(** The constructor [Game()]. *)
Definition NewGame (fuel : nat) : Rand Game.t :=
  SpawnWave fuel (Game.mk NewPlayer [] [] 0 LIVES_START 1 false).

Definition Reset (fuel : nat) (g : Game.t) : Rand Game.t :=
  SpawnWave fuel
    (Game.mk (Player.reset (Game.player g)) [] (Game.asteroids g)
             0 LIVES_START 1 false).

(** What the loop over the asteroids of [HandleCollisions] carries. *)
Record pass : Type := mkPass {
  p_bullets : list Bullet.t;
  p_score : Z;
  newAsteroids : list Asteroid.t
}.

Fixpoint children_loop (n : nat) (a : Asteroid.t)
                       (newAsteroids_ : list Asteroid.t)
  : Rand (list Asteroid.t) :=
  match n with
  | O => ret newAsteroids_
  | S n' =>
      child <- NewAsteroid (Asteroid.pos a) (Asteroid.size a - 1) ;;
      children_loop n' a (newAsteroids_ ++ [child])
  end.

Definition resolve_asteroid (a : Asteroid.t) (st : pass) : Rand pass :=
  match Game.first_hit a (p_bullets st) with
  | Some bs' =>
      let score' := (p_score st + 10 * Asteroid.size a)%Z in
      kids <- (if (Asteroid.size a >? 1)%Z
               then children_loop 2 a (newAsteroids st)
               else ret (newAsteroids st)) ;;
      ret (mkPass bs' score' kids)
  | None =>
      ret (mkPass (p_bullets st) (p_score st) (newAsteroids st ++ [a]))
  end.

Fixpoint resolve_all (asts : list Asteroid.t) (st : pass) : Rand pass :=
  match asts with
  | [] => ret st
  | a :: rest => st' <- resolve_asteroid a st ;; resolve_all rest st'
  end.

Definition HandleCollisions (g : Game.t) : Rand Game.t :=
  st <- resolve_all (Game.asteroids g)
                    (mkPass (Game.bullets g) (Game.score g) []) ;;
  ret (Game.player_vs_asteroids
         (Game.mk (Game.player g) (p_bullets st) (newAsteroids st)
                  (p_score st) (Game.lives g) (Game.wave g)
                  (Game.game_over g))).

Definition Advance (inp : Input) (dt : float) (g : Game.t) : Rand Game.t :=
  let player1 := PlayerUpdate inp dt (Game.player g) in
  let '(player2, bullets1) :=
    if (down_SPACE inp || down_MOUSE_LEFT inp || gesture_TAP inp)
       && Player.CanShoot player1
    then let '(b, p) := Player.Shoot player1 in (p, Game.bullets g ++ [b])
    else (player1, Game.bullets g) in
  let bullets2 := map (Bullet.update dt) bullets1 in
  let bullets3 := Game.remove_dead bullets2 in
  let asteroids1 := map (Asteroid.update dt) (Game.asteroids g) in
  HandleCollisions
    (Game.mk player2 bullets3 asteroids1 (Game.score g) (Game.lives g)
             (Game.wave g) (Game.game_over g)).

Definition NextWave (fuel : nat) (g : Game.t) : Rand Game.t :=
  match Game.asteroids g with
  | [] =>
      SpawnWave fuel
        (Game.mk (Player.set_invuln (lit 2.0) (Game.player g))
                 (Game.bullets g) (Game.asteroids g) (Game.score g)
                 (Game.lives g) (Game.wave g + 1)%Z (Game.game_over g))
  | _ :: _ => ret g
  end.

(** [Update]; the fullscreen toggle at its end touches no game state. *)
Definition Update (fuel : nat) (inp : Input) (dt : float) (g : Game.t)
  : Rand Game.t :=
  if Game.game_over g then
    if pressed_ENTER inp then Reset fuel g else ret g
  else
    g1 <- Advance inp dt g ;;
    NextWave fuel g1.

(** The test of [Draw] that guards [player.Draw()]. *)
Definition draws_player (g : Game.t) : bool :=
  negb (Game.game_over g) || (Player.invuln (Game.player g) >? lit 0).
End Defs.
End Web.

(** ** Exact arithmetic on the rationals

    The arithmetic is exact; libm is a parameter, since the cosine, the
    power and the square root leave the rationals. *)

Record Libm (A : Type) : Type := mkLibm {
  l_cos : A -> A;
  l_sin : A -> A;
  l_pow : A -> A -> A;
  l_sqrt : A -> A;
  l_hypot : A -> A -> A
}.
Arguments mkLibm {A}.
Arguments l_cos {A}.
Arguments l_sin {A}.
Arguments l_pow {A}.
Arguments l_sqrt {A}.
Arguments l_hypot {A}.

Definition Qltb (a b : Q) : bool := negb (Qle_bool b a).

(** Truncation toward zero. *)
Definition Qtrunc (a : Q) : Z := Z.quot (Qnum a) (Z.pos (Qden a)).

Definition QFloat (m : Libm Q) : FloatOps := {|
  float := Q;
  lit := Qred;
  fadd := fun a b => Qred (a + b);
  fsub := fun a b => Qred (a - b);
  fmul := fun a b => Qred (a * b);
  fdiv := fun a b => Qred (a / b);
  fneg := fun a => Qred (- a);
  fltb := Qltb;
  fleb := Qle_bool;
  ftrunc := Qtrunc;
  fcos := l_cos m;
  fsin := l_sin m;
  fpow := l_pow m;
  fsqrt := l_sqrt m;
  fhypot := l_hypot m;
  pos_not_le0 := fun a H => proj1 (negb_true_iff _) H;
  zero_le0 := eq_refl
|}.

(** A libm on the rationals, for running the game.  As the real libm
    does, it returns approximations: results are rounded down to a multiple
    of [2^-24].  The cosine and the sine are Taylor polynomials (exact at
    0), the power takes the integer part of the exponent, and the square
    root is exact on the squares of multiples of [2^-24]. *)

Definition Qround24 (a : Q) : Q :=
  Qred (inject_Z (Qfloor (a * inject_Z (2 ^ 24))) / inject_Z (2 ^ 24)).

Definition Qcos (a : Q) : Q :=
  let a2 := Qround24 (a * a) in
  Qround24 (1 - a2 / 2 * (1 - a2 / 12 * (1 - a2 / 30 * (1 - a2 / 56
            * (1 - a2 / 90 * (1 - a2 / 132)))))).

Definition Qsin (a : Q) : Q :=
  let a2 := Qround24 (a * a) in
  Qround24 (a * (1 - a2 / 6 * (1 - a2 / 20 * (1 - a2 / 42 * (1 - a2 / 72
            * (1 - a2 / 110 * (1 - a2 / 156))))))).

Definition Qpow (a b : Q) : Q := Qround24 (Qpower a (Qfloor b)).

Definition Qsqrt (a : Q) : Q :=
  Qred (inject_Z (Z.sqrt (Qfloor (a * inject_Z (4 ^ 24)))) / inject_Z (2 ^ 24)).

Definition Qlibm : Libm Q :=
  mkLibm Qcos Qsin Qpow Qsqrt (fun a b => Qsqrt (a * a + b * b)).

(** ** Exact arithmetic on the reals *)

Definition Rltb (a b : R) : bool := if Rlt_dec a b then true else false.
Definition Rleb (a b : R) : bool := if Rle_dec a b then true else false.

Definition Rtrunc (a : R) : Z :=
  if Rle_dec 0 a then Int_part a else (- Int_part (- a))%Z.

Lemma R_pos_not_le0 (a : R) :
  Rltb (Q2R 0) a = true -> Rleb a (Q2R 0) = false.
Proof.
  unfold Rltb, Rleb, Q2R; simpl.
  destruct (Rlt_dec _ a), (Rle_dec a _); intros; try easy. lra.
Qed.

Lemma R_zero_le0 : Rleb (Q2R 0) (Q2R 0) = true.
Proof.
  unfold Rleb. destruct (Rle_dec _ _); [reflexivity | lra].
Qed.

Definition RFloat : FloatOps := {|
  float := R;
  lit := Q2R;
  fadd := Rplus;
  fsub := Rminus;
  fmul := Rmult;
  fdiv := Rdiv;
  fneg := Ropp;
  fltb := Rltb;
  fleb := Rleb;
  ftrunc := Rtrunc;
  fcos := cos;
  fsin := sin;
  fpow := Rpower;
  fsqrt := sqrt;
  fhypot := fun a b => sqrt (a * a + b * b);
  pos_not_le0 := R_pos_not_le0;
  zero_le0 := R_zero_le0
|}.

(** ** IEEE 754 binary32

    The arithmetic and the comparisons of [float] as the hardware has
    them, from the specification of floating-point numbers of the Standard
    Library (24 bits of precision, largest exponent 128).  The rounding of
    a literal by the compiler and libm are parameters.  The two laws hold,
    NaN and the two zeros included, so every theorem below that is stated
    for an arbitrary [FloatOps] holds of binary32 arithmetic. *)

Section Binary32.
Variable lit32 : Q -> spec_float.
Hypothesis lit32_zero : lit32 0 = S754_zero false.
Variable libm32 : Libm spec_float.

(** [static_cast<int>]: truncation toward zero (the conversion of NaN, of an
    infinity and of a value out of range is undefined in C++). *)
Definition SFtrunc (f : spec_float) : Z :=
  match f with
  | S754_finite s m e =>
      cond_Zopp s
        (match e with
         | Z0 => Z.pos m
         | Z.pos p => Z.pos m * 2 ^ Z.pos p
         | Z.neg p => Z.quot (Z.pos m) (2 ^ Z.pos p)
         end)
  | _ => 0
  end%Z.

Lemma SF_pos_not_le0 (a : spec_float) :
  SFltb (lit32 0) a = true -> SFleb a (lit32 0) = false.
Proof.
  rewrite lit32_zero.
  destruct a as [s|s| |s m e]; try destruct s; cbn; congruence.
Qed.

Lemma SF_zero_le0 : SFleb (lit32 0) (lit32 0) = true.
Proof. now rewrite lit32_zero. Qed.

Definition Binary32 : FloatOps := {|
  float := spec_float;
  lit := lit32;
  fadd := SFadd 24 128;
  fsub := SFsub 24 128;
  fmul := SFmul 24 128;
  fdiv := SFdiv 24 128;
  fneg := SFopp;
  fltb := SFltb;
  fleb := SFleb;
  ftrunc := SFtrunc;
  fcos := l_cos libm32;
  fsin := l_sin libm32;
  fpow := l_pow libm32;
  fsqrt := SFsqrt 24 128;
  fhypot := l_hypot libm32;
  pos_not_le0 := SF_pos_not_le0;
  zero_le0 := SF_zero_le0
|}.
End Binary32.

(** ** Binary32 arithmetic, to run the code on

    A literal is rounded to the nearest binary32 number (ties to even), as
    the compiler does: the division of the specification, on the numerator
    and the denominator as integers, rounds once. *)
Definition lit32_nearest (q : Q) : spec_float :=
  match Qnum q with
  | Z0 => S754_zero false
  | Z.pos n =>
      SFdiv 24 128 (S754_finite false n 0) (S754_finite false (Qden q) 0)
  | Z.neg n =>
      SFdiv 24 128 (S754_finite true n 0) (S754_finite false (Qden q) 0)
  end.

Lemma lit32_nearest_zero : lit32_nearest 0 = S754_zero false.
Proof. reflexivity. Qed.

(** A libm on binary32, for running the code, made as [Qlibm] is: the
    cosine and the sine are Taylor polynomials, the power takes the integer
    part of the exponent, and [hypot] is the square root of the sum of the
    squares.  The square root itself is the correctly rounded one of IEEE
    754. *)
Definition SFstep (a2 : spec_float) (k : Q) (acc : spec_float) : spec_float :=
  SFsub 24 128 (lit32_nearest 1)
        (SFmul 24 128 (SFdiv 24 128 a2 (lit32_nearest k)) acc).

Definition SFcos (a : spec_float) : spec_float :=
  let a2 := SFmul 24 128 a a in
  SFstep a2 2 (SFstep a2 12 (SFstep a2 30 (SFstep a2 56 (SFstep a2 90
    (SFstep a2 132 (lit32_nearest 1)))))).

Definition SFsin (a : spec_float) : spec_float :=
  let a2 := SFmul 24 128 a a in
  SFmul 24 128 a
    (SFstep a2 6 (SFstep a2 20 (SFstep a2 42 (SFstep a2 72 (SFstep a2 110
       (SFstep a2 156 (lit32_nearest 1))))))).

Definition SFpow (a b : spec_float) : spec_float :=
  match SFtrunc b with
  | Z.pos n => Pos.iter (SFmul 24 128 a) (lit32_nearest 1) n
  | _ => lit32_nearest 1
  end.

Definition SFhypot (a b : spec_float) : spec_float :=
  SFsqrt 24 128 (SFadd 24 128 (SFmul 24 128 a a) (SFmul 24 128 b b)).

Definition SFlibm : Libm spec_float :=
  mkLibm SFcos SFsin SFpow (SFsqrt 24 128) SFhypot.

Definition B32 : FloatOps := Binary32 lit32_nearest lit32_nearest_zero SFlibm.

(** ** Rounded arithmetic on the reals

    The reals with a rounding [rnd] after every operation and on every
    literal: exact arithmetic when [rnd] is the identity, and the finite
    part of binary32 arithmetic when [rnd] rounds to the nearest binary32
    number. *)

Lemma Rltb_not_leb (z a : R) : Rltb z a = true -> Rleb a z = false.
Proof.
  unfold Rltb, Rleb.
  destruct (Rlt_dec z a), (Rle_dec a z); intros; try easy. lra.
Qed.

Lemma Rleb_refl (z : R) : Rleb z z = true.
Proof. unfold Rleb. destruct (Rle_dec z z); [reflexivity | lra]. Qed.

Definition Rounded (rnd : R -> R) : FloatOps := {|
  float := R;
  lit := fun q => rnd (Q2R q);
  fadd := fun a b => rnd (a + b)%R;
  fsub := fun a b => rnd (a - b)%R;
  fmul := fun a b => rnd (a * b)%R;
  fdiv := fun a b => rnd (a / b)%R;
  fneg := Ropp;
  fltb := Rltb;
  fleb := Rleb;
  ftrunc := Rtrunc;
  fcos := fun a => rnd (cos a);
  fsin := fun a => rnd (sin a);
  fpow := fun a b => rnd (Rpower a b);
  fsqrt := fun a => rnd (sqrt a);
  fhypot := fun a b => rnd (sqrt (a * a + b * b));
  pos_not_le0 := Rltb_not_leb (rnd (Q2R 0));
  zero_le0 := Rleb_refl (rnd (Q2R 0))
|}.

(** A rounding keeps the order, and keeps the numbers 0, 650 and 900, which
    binary32 has. *)
Definition keeps_screen (rnd : R -> R) : Prop :=
  (forall a b : R, (a <= b)%R -> (rnd a <= rnd b)%R)
  /\ rnd 0%R = 0%R /\ rnd 650%R = 650%R /\ rnd 900%R = 900%R.

(** Rounding down to a multiple of 1/8. *)
Definition eighths (a : R) : R := (IZR (Int_part (a * 8)) / 8)%R.

(** ** Specification vocabulary *)

(** [m], run from the generator state [r], returns a value that satisfies
    [P] and only moves the cursor of the tape. *)
Definition returns_at {A : Type} (r : Rng) (m : Rand A) (P : A -> Prop)
  : Prop :=
  exists a r', m r = Done (a, r') /\ tape r' = tape r /\ P a.

(** [m] does so from every generator state. *)
Definition returns {A : Type} (m : Rand A) (P : A -> Prop) : Prop :=
  forall r, returns_at r m P.

(** The sizes an [Asteroid] can be constructed with. *)
Definition valid_size (s : Z) : Prop := (1 <= s <= 3)%Z.

(** The position the sampling loop of [spawn_wave] makes of the raw numbers
    at the cursors [c] and [c + 1] of the tape, and the test of the loop on
    it: the sample is rejected when it lies in the exclusion zone around
    the player. *)
Definition sample_at {FO : FloatOps} (tp : nat -> Z) (c : nat) : Vector2 :=
  mkVector2
    (fadd (fmul (canonical (tp c)) (fsub (of_int SCREEN_WIDTH) (lit 0.0)))
          (lit 0.0))
    (fadd (fmul (canonical (tp (S c))) (fsub (of_int SCREEN_HEIGHT) (lit 0.0)))
          (lit 0.0)).

Definition rejected {FO : FloatOps} (player_pos : Vector2) (tp : nat -> Z)
                    (c : nat) : bool :=
  circle_collision (sample_at tp c) (lit 80.0) player_pos (lit 120.0).

(** The [n] samples made from the cursor [c] on are all rejected. *)
Definition all_rejected {FO : FloatOps} (player_pos : Vector2)
                        (tp : nat -> Z) (c n : nat) : Prop :=
  forall j, (j < n)%nat -> rejected player_pos tp (c + 2 * j) = true.

(** Samples outside the exclusion zone keep coming: whatever the cursor,
    one of the samples made from it on is accepted. *)
Definition keeps_accepting {FO : FloatOps} (player_pos : Vector2)
                           (tp : nat -> Z) : Prop :=
  forall c, exists k, rejected player_pos tp (c + 2 * k) = false.

(** A Large asteroid outside the exclusion zone around [player_pos]. *)
Definition spawned_clear {FO : FloatOps} (player_pos : Vector2)
                         (a : Asteroid.t) : Prop :=
  Asteroid.size a = 3%Z
  /\ circle_collision (Asteroid.pos a) (lit 80.0) player_pos (lit 120.0)
     = false.

(** The commands that draw the ship. *)
Definition is_triangle {FO : FloatOps} (c : DrawCmd) : bool :=
  match c with
  | DrawTriangle _ _ _ _ | DrawTriangleLines _ _ _ _ => true
  | _ => false
  end.

(** The test of the inner loop of [handle_collisions]: bullet [b] overlaps
    asteroid [a]. *)
Definition hits {FO : FloatOps} (a : Asteroid.t) (b : Bullet.t) : bool :=
  circle_collision (Bullet.pos b) (lit 2.0)
                   (Asteroid.pos a) (Asteroid.radius a).

(** Some bullet of [bs] overlaps [a]. *)
Definition destroyed {FO : FloatOps} (bs : list Bullet.t) (a : Asteroid.t)
  : bool :=
  existsb (hits a) bs.

(** Ten points per size tier, over a list of asteroids. *)
Definition points_for {FO : FloatOps} (l : list Asteroid.t) : Z :=
  fold_right (fun a acc => (10 * Asteroid.size a + acc)%Z) 0%Z l.

(** [k] is a fragment of [parent]: one tier smaller, at the same place. *)
Definition fragment_of {FO : FloatOps} (parent k : Asteroid.t) : Prop :=
  Asteroid.size k = (Asteroid.size parent - 1)%Z
  /\ Asteroid.pos k = Asteroid.pos parent.

(** A bullet after the pass: untouched, or with its life set to 0. *)
Definition marked {FO : FloatOps} (b b' : Bullet.t) : Prop :=
  b' = b \/ b' = Bullet.set_life (lit 0) b.

(** The asteroids of [l] that break in two when destroyed. *)
Definition splitting {FO : FloatOps} (bs : list Bullet.t)
                     (l : list Asteroid.t) : list Asteroid.t :=
  filter (fun a => destroyed bs a && (Asteroid.size a >? 1)%Z) l.

(** The states a run of the game passes through: the constructor [Game()],
    then one call of [update] per frame, with any input and any frame
    time. *)
Inductive reachable {FO : FloatOps} : Game.t -> Rng -> Prop :=
| reach_new fuel r0 g r :
    Game.new fuel r0 = Done (g, r) -> reachable g r
| reach_update fuel inp dt g r g' r' :
    reachable g r ->
    Game.update fuel inp dt g r = Done (g', r') ->
    reachable g' r'.

(** What holds in every state of a run. *)
Definition game_inv {FO : FloatOps} (g : Game.t) : Prop :=
  Forall (fun a => valid_size (Asteroid.size a)) (Game.asteroids g)
  /\ (0 <= Game.score g)%Z
  /\ (1 <= Game.wave g)%Z
  /\ (0 <= Game.lives g <= 3)%Z
  /\ (Game.lives g = 0%Z <-> Game.game_over g = true)
  /\ (Game.game_over g = true ->
      Player.invuln (Game.player g) = lit 2.0).

(** The screen as the half-open rectangle, and the positions at most one
    screen away from it (exact arithmetic). *)
Definition in_screen {m : Libm Q} (p : @Vector2 (QFloat m)) : Prop :=
  (0 <= x p /\ x p < 900) /\ (0 <= y p /\ y p < 650).

Definition within_one_extent {m : Libm Q} (p : @Vector2 (QFloat m)) : Prop :=
  (-900 <= x p /\ x p < 1800) /\ (-650 <= y p /\ y p < 1300).

(** The screen with its right and bottom edges. *)
Definition in_closed_screen {m : Libm Q} (p : @Vector2 (QFloat m)) : Prop :=
  (0 <= x p /\ x p <= 900) /\ (0 <= y p /\ y p <= 650).

(** One coordinate of [wrap_position] in exact arithmetic, for the extent
    [w]. *)
Definition wrap1 (w : Z) (a : Q) : Q :=
  if Qltb a (Qred 0) then Qred (a + Qred (inject_Z w))
  else if Qltb (Qred (inject_Z w)) a then Qred (a - Qred (inject_Z w))
  else a.

(** Names every [Qred q] of the goal, keeping [Qred q == q]. *)
Ltac name_Qred :=
  repeat match goal with
  | |- context [Qred ?q] =>
      let v := fresh "v" in
      pose proof (Qred_correct q); set (v := Qred q) in *; clearbody v
  | H : context [Qred ?q] |- _ =>
      let v := fresh "v" in
      pose proof (Qred_correct q); set (v := Qred q) in *; clearbody v
  end.

(** ** Runs of the game *)

Fixpoint run_frames {FO : FloatOps} (fuel : nat)
                    (frames : list (Input * float)) (g : Game.t)
  : Rand Game.t :=
  match frames with
  | [] => ret g
  | (inp, dt) :: rest =>
      bind (Game.update fuel inp dt g) (run_frames fuel rest)
  end.

(** [Game game;] followed by one [update] per frame. *)
Definition play {FO : FloatOps} (fuel : nat) (frames : list (Input * float))
  : Rand Game.t :=
  bind (Game.new fuel) (run_frames fuel frames).

(** The counters of a state: score, lives, wave, game over. *)
Definition counters {FO : FloatOps} (g : Game.t) : Z * Z * Z * bool :=
  (Game.score g, Game.lives g, Game.wave g, Game.game_over g).

(** The counters after the constructor and after each frame of a run, or
    [None] when the run does not return. *)
Fixpoint trace_frames {FO : FloatOps} (fuel : nat)
                      (frames : list (Input * float)) (g : Game.t) (r : Rng)
  : option (list (Z * Z * Z * bool)) :=
  match frames with
  | [] => Some [counters g]
  | (inp, dt) :: rest =>
      match Game.update fuel inp dt g r with
      | Done (g', r') =>
          option_map (cons (counters g)) (trace_frames fuel rest g' r')
      | _ => None
      end
  end.

Definition trace {FO : FloatOps} (fuel : nat) (frames : list (Input * float))
                 (r : Rng) : option (list (Z * Z * Z * bool)) :=
  match Game.new fuel r with
  | Done (g, r') => trace_frames fuel frames g r'
  | _ => None
  end.

(** ** Concrete states and runs, in exact rational arithmetic *)

Definition QF : FloatOps := QFloat Qlibm.

Section Concrete.
Local Existing Instance QF.
Local Open Scope Q_scope.

Definition idle : Input :=
  mkInput false false false false false false false false false false false.

(** SPACE held down. *)
Definition fire : Input :=
  mkInput false false false false false false true false false false false.

(** ENTER pressed. *)
Definition enter : Input :=
  mkInput false false false false false false false false false false true.

Definition no_text : string -> Z -> Z := fun _ _ => 0%Z.

(** A generator whose every raw number is 0: every sampled position is the
    top left corner of the screen. *)
Definition zero_tape : nat -> Z := fun _ => 0%Z.

(** A generator whose first sample is the centre of the screen (raw
    number [2^31], twice) and whose later samples are the top left
    corner. *)
Definition centre_first_tape (n : nat) : Z :=
  if (n <? 2)%nat then (2 ^ 31)%Z else 0%Z.

Definition still : Vector2 := mkVector2 0 0.

(** A Large asteroid on top of the player's starting position, and a
    Small one away from it. *)
Definition rock_on_player : Asteroid.t :=
  Asteroid.mk (mkVector2 450 325) 3 42 still [].
Definition rock : Asteroid.t :=
  Asteroid.mk (mkVector2 100 100) 3 42 still [].
Definition boulder : Asteroid.t :=
  Asteroid.mk (mkVector2 110 100) 2 26 still [].

(** A bullet that overlaps [pebble], [rock] and [boulder]. *)
Definition shot : Bullet.t := Bullet.mk (mkVector2 100 100) still 1.2.

(** The player as constructed (no invulnerability), and after [reset]. *)
Definition exposed : Game.t :=
  Game.mk Player.new [] [rock_on_player] 0 3 1 false.
Definition shielded : Game.t :=
  Game.mk (Player.reset Player.new) [] [rock_on_player] 0 3 1 false.

(** One bullet over two asteroids. *)
Definition crowded : Game.t :=
  Game.mk Player.new [shot] [rock; boulder] 0 3 1 false.


(** A game that is over, with the timer run out. *)
Definition over_unshielded : Game.t :=
  Game.mk Player.new [] [rock_on_player] 440 0 2 true.

(** A player who can fire, and one who has just fired. *)
Definition ready : Player.t := Player.new.
Definition cooling : Player.t :=
  Player.mk Player.center still 0 0.18 0 true.

(** A scripted generator.  An asteroid costs 15 raw numbers when its
    outline has 10 points: two for the position, two for the velocity, one
    for the number of points and ten for the outline; a fragment costs 15
    as well, thirteen in its constructor and two for the velocity that
    [handle_collisions] gives it afterwards.

    Numbers 0 to 59, the first wave of 4 asteroids: x = 0 (raw 0),
    y = 650 * 13/32 = 264.0625 (raw 13 * 2^27), direction 0 (raw 0) and
    speed 40 + 40/8 = 45 (raw 2^29), so the velocity is (45, 0).

    Numbers 60 to 419, the 8 Medium and 16 Small fragments: direction
    pi/2 (raw 2^30) and speed 60 for Medium, 80 for Small (raw 0), so
    they drift down, towards the ship.

    Numbers from 420 on, the asteroids made later: x = 0, y = 325 (raw
    2^31), velocity (45, 0). *)
Definition script_tape (n : nat) : Z :=
  let k := (n mod 15)%nat in
  if (n <? 60)%nat then
    match k with 1%nat => 13 * 2 ^ 27 | 3%nat => 2 ^ 29 | _ => 0 end%Z
  else if (n <? 420)%nat then
    match k with 13%nat => 2 ^ 30 | _ => 0 end%Z
  else
    match k with 1%nat => 2 ^ 31 | 3%nat => 2 ^ 29 | _ => 0 end%Z.

(** Eleven frames.  The ship never moves: it stays at (450, 325) with its
    nose up, and a bullet appears 18 above it, at (450, 307).

    Frame 1 (10 s): the wave drifts to (450, 264.0625), 60.9 above the
    ship: no overlap with the ship (54 = 12 + 42 would be needed).
    Frame 2 (0 s, SPACE): the bullet is 42.9 from the four Large asteroids
    (within 2 + 42) and destroys them all: score 120, 8 Medium fragments.
    Frame 3 (4/15 s): the fragments drift down by 16, the cooldown runs out.
    Frame 4 (0 s, SPACE): the bullet is 26.9 from the Medium asteroids
    (within 2 + 26): score 280, 16 Small fragments.
    Frame 5 (0.2 s): the fragments drift down by 16.
    Frame 6 (0 s, SPACE): the bullet is 10.9 from the Small asteroids: score
    440, no asteroid left, so wave 2 is made: 5 asteroids at (0, 325).
    Frames 7 to 11 (10 s each): the asteroids move 450 to the right per
    frame and are on the ship in frames 7, 9 and 11; each time the timer
    (2.0 after the reset) has run out, and a life is lost.  After frame 11
    the game is over. *)
Definition script : list (Input * Q) :=
  [(idle, 10); (fire, 0); (idle, 4 # 15); (fire, 0); (idle, 0.2); (fire, 0);
   (idle, 10); (idle, 10); (idle, 10); (idle, 10); (idle, 10)].

Definition blank : Game.t := Game.mk Player.new [] [] 0 0 0 false.

Definition outcome_game (o : outcome (Game.t * Rng)) : Game.t :=
  match o with Done (g, _) => g | _ => blank end.

Definition outcome_cursor (o : outcome (Game.t * Rng)) : nat :=
  match o with Done (_, r) => cursor r | _ => O end.

(** Where the script ends. *)
Definition script_end : Game.t :=
  Eval vm_compute in outcome_game (play 1 script (mkRng script_tape 0)).
Definition script_end_cursor : nat :=
  Eval vm_compute in outcome_cursor (play 1 script (mkRng script_tape 0)).

(** The frame after it, with ENTER pressed. *)
Definition restarted : Game.t :=
  Eval vm_compute in
    outcome_game (Game.update 1 enter 0 script_end
                              (mkRng script_tape script_end_cursor)).
Definition restarted_cursor : nat :=
  Eval vm_compute in
    outcome_cursor (Game.update 1 enter 0 script_end
                                (mkRng script_tape script_end_cursor)).

End Concrete.

(** ** More of the code, and the vocabulary of its properties *)

(** ** The path of a resource

    [resource_path] of main.cpp.  Under [_WIN32] the path of the executable
    is what [GetModuleFileNameA] wrote to the buffer; elsewhere there is
    none. *)

Inductive Platform : Type :=
| Win32 (exe_path : string)
| Other.

(** [c] is one of the characters of [chars]. *)
Fixpoint char_in (c : ascii) (chars : string) : bool :=
  match chars with
  | EmptyString => false
  | String d rest => Ascii.eqb c d || char_in c rest
  end.

(** [s.find_last_of(chars)]: [None] is [std::string::npos]. *)
Fixpoint find_last_of (s chars : string) : option nat :=
  match s with
  | EmptyString => None
  | String c rest =>
      match find_last_of rest chars with
      | Some i => Some (S i)
      | None => if char_in c chars then Some O else None
      end
  end.

(** [s.back()], for a string that is not empty. *)
Fixpoint back (s : string) : option ascii :=
  match s with
  | EmptyString => None
  | String c EmptyString => Some c
  | String _ rest => back rest
  end.

Definition resource_path (platform : Platform) (relative_path : string)
  : string :=
  let base_path :=
    match platform with
    | Win32 exe_path =>
        match find_last_of exe_path "\/" with
        | Some pos => substring 0 pos exe_path
        | None => "."%string
        end
    | Other => "."%string
    end in
  let result := base_path in
  let result :=
    match back result with
    | Some c =>
        if negb (Ascii.eqb c "/") && negb (Ascii.eqb c "\")
        then (result ++ "/")%string else result
    | None => result
    end in
  (result ++ relative_path)%string.

(** The commands of [Asteroid::draw]: where a line starts and ends. *)
Definition line_start {FO : FloatOps} (c : DrawCmd) : option Vector2 :=
  match c with DrawLineV a _ _ => Some a | _ => None end.

Definition line_end {FO : FloatOps} (c : DrawCmd) : option Vector2 :=
  match c with DrawLineV _ b _ => Some b | _ => None end.

(** The commands that draw a bullet, and those that write text. *)
Definition is_circle {FO : FloatOps} (c : DrawCmd) : bool :=
  match c with DrawCircleV _ _ _ => true | _ => false end.

Definition is_text {FO : FloatOps} (c : DrawCmd) : bool :=
  match c with DrawText _ _ _ _ _ _ => true | _ => false end.

(** The points an asteroid of size [n] yields in all: ten per tier for the
    asteroid, and the same again for each of its two fragments. *)
Fixpoint worth_nat (n : nat) : Z :=
  match n with
  | O => 0
  | S k => 10 * Z.of_nat n + 2 * worth_nat k
  end.

Definition worth (s : Z) : Z := worth_nat (Z.to_nat s).

(** The points left on the field. *)
Definition field_worth {FO : FloatOps} (l : list Asteroid.t) : Z :=
  fold_right (fun a acc => (worth (Asteroid.size a) + acc)%Z) 0%Z l.

(** The screen with its edges (real arithmetic). *)
Definition on_screen (p : @Vector2 RFloat) : Prop :=
  (0 <= x p <= 900)%R /\ (0 <= y p <= 650)%R.

(** The ship of the witness: at the right edge, moving right at 300. *)
Definition cruising : @Player.t RFloat :=
  Player.mk (@mkVector2 RFloat 899%R 1%R) (@mkVector2 RFloat 300%R 0%R)
            0%R 0%R 0%R true.

Section MoreConcrete.
Local Existing Instance QF.
Local Open Scope Q_scope.

(** The game the constructor makes on the zero tape: four Large asteroids
    in the top left corner. *)
Definition zero_start : Game.t :=
  Eval vm_compute in outcome_game (Game.new 1 (mkRng zero_tape 0)).
Definition zero_start_cursor : nat :=
  Eval vm_compute in outcome_cursor (Game.new 1 (mkRng zero_tape 0)).

(** Its first frame, of length 0 with SPACE down: one bullet, 18 above the
    ship. *)
Definition first_shot : Game.t :=
  Eval vm_compute in
    outcome_game (Game.update 1 fire 0 zero_start
                              (mkRng zero_tape zero_start_cursor)).
Definition first_shot_cursor : nat :=
  Eval vm_compute in
    outcome_cursor (Game.update 1 fire 0 zero_start
                                (mkRng zero_tape zero_start_cursor)).

(** Half a second of [shielded], the asteroid on top of the ship. *)
Definition shielded_next : Game.t :=
  Eval vm_compute in
    outcome_game (Game.update 1 idle 0.5 shielded (mkRng zero_tape 0)).
Definition shielded_next_cursor : nat :=
  Eval vm_compute in
    outcome_cursor (Game.update 1 idle 0.5 shielded (mkRng zero_tape 0)).

(** An asteroid with a triangle for an outline. *)
Definition triangle_rock : Asteroid.t :=
  Asteroid.mk (mkVector2 100 100) 1 14 still
    [mkVector2 10 0; mkVector2 0 10; mkVector2 (-10)%Q 0].
End MoreConcrete.

(** The same for the loop of [SpawnWave] of the web build, which makes its
    samples with [RandomRange] and judges them with the radii 80 and 120
    as integers. *)
Definition web_sample_at {FO : FloatOps} (RAND_MAX : Z) (tp : nat -> Z)
                         (c : nat) : Vector2 :=
  mkVector2
    (fadd (lit 0)
          (fmul (fdiv (of_int (tp c)) (of_int RAND_MAX))
                (fsub (of_int SCREEN_WIDTH) (lit 0))))
    (fadd (lit 0)
          (fmul (fdiv (of_int (tp (S c))) (of_int RAND_MAX))
                (fsub (of_int SCREEN_HEIGHT) (lit 0)))).

Definition web_rejected {FO : FloatOps} (RAND_MAX : Z) (player_pos : Vector2)
                        (tp : nat -> Z) (c : nat) : bool :=
  circle_collision (web_sample_at RAND_MAX tp c) (of_int 80)
                   player_pos (of_int 120).

Definition web_all_rejected {FO : FloatOps} (RAND_MAX : Z)
                            (player_pos : Vector2) (tp : nat -> Z)
                            (c n : nat) : Prop :=
  forall j, (j < n)%nat ->
    web_rejected RAND_MAX player_pos tp (c + 2 * j) = true.

Definition web_keeps_accepting {FO : FloatOps} (RAND_MAX : Z)
                               (player_pos : Vector2) (tp : nat -> Z)
  : Prop :=
  forall c, exists k,
    web_rejected RAND_MAX player_pos tp (c + 2 * k) = false.

(** A generator of [rand()] whose first sample is next to the centre of the
    screen (raw number [2^30], twice, of [2^31 - 1]) and whose later
    samples are the top left corner. *)
Definition web_centre_first_tape (n : nat) : Z :=
  if (n <? 2)%nat then (2 ^ 30)%Z else 0%Z.

(** For one asteroid, the flags of the bullets: set for the first bullet of
    the list that overlaps the asteroid. *)
Fixpoint first_flags {FO : FloatOps} (a : Asteroid.t) (bs : list Bullet.t)
  : list bool :=
  match bs with
  | [] => []
  | b :: bs' =>
      if hits a b then true :: map (fun _ => false) bs'
      else false :: first_flags a bs'
  end.

Fixpoint or_flags (f1 f2 : list bool) : list bool :=
  match f1, f2 with
  | u :: f1', v :: f2' => (u || v) :: or_flags f1' f2'
  | _, _ => []
  end.

(** The bullets that take an asteroid in the pass: for each asteroid, the
    first bullet of the list that overlaps it. *)
Definition claimed {FO : FloatOps} (asts : list Asteroid.t)
                   (bs : list Bullet.t) : list bool :=
  fold_left (fun fl a => or_flags fl (first_flags a bs)) asts
            (map (fun _ => false) bs).

(** The bullets with a flag set get the life 0. *)
Definition mark_with {FO : FloatOps} (fl : list bool) (bs : list Bullet.t)
  : list Bullet.t :=
  map (fun fb : bool * Bullet.t =>
         if fst fb then Bullet.set_life (lit 0) (snd fb) else snd fb)
      (combine fl bs).

(** The bullets that take no asteroid and have life left. *)
Definition survivors {FO : FloatOps} (asts : list Asteroid.t)
                     (bs : list Bullet.t) : list Bullet.t :=
  map snd
      (filter (fun fb : bool * Bullet.t =>
                 negb (fst fb) && negb (fleb (Bullet.life (snd fb)) (lit 0)))
              (combine (claimed asts bs) bs)).

(** What the web build puts in the new list for the asteroid [a]: the
    asteroid itself when no bullet of [bs] overlaps it, its fragments
    otherwise. *)
Definition block_of {FO : FloatOps} (bs : list Bullet.t) (a : Asteroid.t)
                    (blk : list Asteroid.t) : Prop :=
  if destroyed bs a
  then Forall (fragment_of a) blk
       /\ length blk = (if (Asteroid.size a >? 1)%Z then 2%nat else 0%nat)
  else blk = [a].

(** * Properties *)

(** ** The monad of code that draws random numbers *)

Section RandLemmas.
Context {A B : Type}.

Lemma bind_done (m : Rand A) (k : A -> Rand B) r a r' :
  m r = Done (a, r') -> bind m k r = k a r'.
Proof. unfold bind. now intros ->. Qed.

Lemma bind_inv (m : Rand A) (k : A -> Rand B) r b r2 :
  bind m k r = Done (b, r2) ->
  exists a r1, m r = Done (a, r1) /\ k a r1 = Done (b, r2).
Proof.
  unfold bind. destruct (m r) as [[a r1]| |]; try discriminate.
  intros H. now exists a, r1.
Qed.

Lemma returns_at_ret (a : A) (P : A -> Prop) r :
  P a -> returns_at r (ret a) P.
Proof. intros H. exists a, r. now repeat split. Qed.

Lemma returns_at_bind (m : Rand A) (k : A -> Rand B)
      (P : A -> Prop) (Q : B -> Prop) r :
  returns_at r m P ->
  (forall a r', tape r' = tape r -> P a -> returns_at r' (k a) Q) ->
  returns_at r (bind m k) Q.
Proof.
  intros (a & r1 & Hm & Ht & Hp) Hk.
  destruct (Hk a r1 Ht Hp) as (b & r2 & Hb & Ht2 & Hq).
  exists b, r2. rewrite (bind_done m k r a r1 Hm). repeat split; auto.
  now rewrite Ht2.
Qed.

Lemma returns_at_weaken (m : Rand A) (P Q : A -> Prop) r :
  returns_at r m P -> (forall a, P a -> Q a) -> returns_at r m Q.
Proof.
  intros (a & r' & Hm & Ht & Hp) H. exists a, r'. auto.
Qed.
End RandLemmas.

Lemma returns_at_done {A : Type} (m : Rand A) r a :
  m r = Done (a, r) -> returns_at r m (fun v => v = a).
Proof. intros H. now exists a, r. Qed.

Lemma returns_gen r : returns_at r gen (fun z => z = tape r (cursor r)).
Proof. exists (tape r (cursor r)), (mkRng (tape r) (S (cursor r))). now repeat split. Qed.

(** ** Construction of asteroids *)

Section Construction.
Context {FO : FloatOps}.
Local Open Scope float_scope.

Lemma vector_eta (v : Vector2) : mkVector2 (x v) (y v) = v.
Proof. now destruct v. Qed.

Lemma returns_uniform_real (a b : float) : returns (uniform_real a b) (fun _ => True).
Proof.
  intros r. unfold uniform_real.
  eapply returns_at_bind; [apply returns_gen|].
  intros z r' Ht _. now apply returns_at_ret.
Qed.

Lemma returns_uniform_int (a b : Z) :
  (a <= b)%Z -> returns (uniform_int a b) (fun n => (a <= n <= b)%Z).
Proof.
  intros Hab r. unfold uniform_int.
  eapply returns_at_bind; [apply returns_gen|].
  intros z r' Ht _. apply returns_at_ret.
  pose proof (Z.mod_pos_bound z (b - a + 1)). lia.
Qed.

Lemma returns_uniform_int_any (a b : Z) :
  returns (uniform_int a b) (fun _ => True).
Proof.
  intros r. unfold uniform_int.
  eapply returns_at_bind; [apply returns_gen|].
  intros z r' Ht _. now apply returns_at_ret.
Qed.

Lemma returns_random_asteroid_velocity (size : Z) :
  returns (random_asteroid_velocity size) (fun _ => True).
Proof.
  intros r. unfold random_asteroid_velocity.
  eapply returns_at_bind; [apply returns_uniform_real|].
  intros angle r1 Ht1 _.
  eapply returns_at_bind; [apply returns_uniform_real|].
  intros s r2 Ht2 _. now apply returns_at_ret.
Qed.

Lemma returns_shape_loop n i count radius_ pts :
  returns (Asteroid.shape_loop n i count radius_ pts)
          (fun l => length l = (length pts + n)%nat).
Proof.
  revert i pts. induction n as [|n IH]; intros i pts r; simpl.
  - apply returns_at_ret. lia.
  - eapply returns_at_bind; [apply returns_uniform_real|].
    intros u r1 Ht1 _.
    eapply returns_at_weaken; [apply IH|].
    intros l ->. rewrite length_app. simpl. lia.
Qed.

(** The outline has between 10 and 14 points. *)
Lemma returns_generate_shape radius_ :
  returns (Asteroid._generate_shape radius_)
          (fun l => (10 <= length l <= 14)%nat).
Proof.
  intros r. unfold Asteroid._generate_shape.
  eapply returns_at_bind; [apply returns_uniform_int; lia|].
  intros count r1 Ht1 Hc.
  eapply returns_at_weaken; [apply returns_shape_loop|].
  intros l Hl. cbv beta in Hc. simpl in Hl. rewrite Hl. lia.
Qed.

Lemma map_at_radii (s : Z) :
  valid_size s -> exists rad, Asteroid.map_at ASTEROID_RADII s = Some rad.
Proof.
  unfold valid_size. intros H.
  assert (s = 1 \/ s = 2 \/ s = 3)%Z as [->|[->| ->]] by lia;
    simpl; eauto.
Qed.

Lemma map_at_radii_inv (s : Z) rad :
  Asteroid.map_at ASTEROID_RADII s = Some rad -> valid_size s.
Proof.
  unfold valid_size, ASTEROID_RADII. cbn [Asteroid.map_at]. intros H.
  destruct (Z.eqb_spec 3 s); [lia|].
  destruct (Z.eqb_spec 2 s); [lia|].
  destruct (Z.eqb_spec 1 s); [lia|discriminate].
Qed.

(** The constructor returns for the three sizes, and throws for no other. *)
Lemma returns_asteroid_new (p : Vector2) (s : Z) :
  valid_size s ->
  returns (Asteroid.new p s)
          (fun a => Asteroid.pos a = p /\ Asteroid.size a = s
                    /\ Asteroid.map_at ASTEROID_RADII s
                       = Some (Asteroid.radius a)).
Proof.
  intros Hs r. unfold Asteroid.new.
  destruct (map_at_radii s Hs) as [rad ->].
  eapply returns_at_bind; [apply returns_random_asteroid_velocity|].
  intros v r1 Ht1 _.
  eapply returns_at_bind; [apply returns_generate_shape|].
  intros pts r2 Ht2 _.
  apply returns_at_ret. simpl. now rewrite vector_eta.
Qed.

Lemma asteroid_new_throws (p : Vector2) (s : Z) r :
  ~ valid_size s -> Asteroid.new p s r = OutOfRange.
Proof.
  intros Hs. unfold Asteroid.new.
  destruct (Asteroid.map_at ASTEROID_RADII s) as [rad|] eqn:E; [|reflexivity].
  now apply map_at_radii_inv in E.
Qed.
End Construction.

(** ** Spawning a wave *)

Section Spawning.
Context {FO : FloatOps}.
Local Open Scope float_scope.

(** Whatever the sampling loop returns lies outside the exclusion zone. *)
Lemma sample_position_clear fuel ppos r p r' :
  Game.sample_position fuel ppos r = Done (p, r') ->
  circle_collision p (lit 80.0) ppos (lit 120.0) = false.
Proof.
  revert r. induction fuel as [|fuel IH]; intros r; simpl; [discriminate|].
  intros H.
  apply bind_inv in H as (px & r1 & _ & H).
  apply bind_inv in H as (py & r2 & _ & H).
  destruct (circle_collision (mkVector2 px py) _ ppos _) eqn:E; simpl in H.
  - eauto.
  - inversion H; subst. exact E.
Qed.

End Spawning.

(** ** Firing, the player pass of the collisions, game over *)

Section ControlFlow.
Context {FO : FloatOps}.
Local Open Scope float_scope.

(** C7: [Player::shoot] returns no bullet and leaves the player unchanged
    while the cooldown is positive; when the cooldown is at or below zero it
    returns a bullet and sets the cooldown to 0.18.  In the web build the
    same holds of the pair [CanShoot] / [Shoot]: [Update] calls [Shoot] only
    when [CanShoot] holds. *)
Theorem C7_fire_cooldown (p : Player.t) :
  ((Player.cooldown p >? lit 0) = true -> Player.shoot p = (None, p))
  /\ ((Player.cooldown p <=? lit 0) = true ->
      exists b,
        Player.shoot p
        = (Some b, Player.mk (Player.pos p) (Player.vel p) (Player.angle p)
                             (lit 0.18) (Player.invuln p) (Player.alive p))
        /\ Bullet.life b = lit 1.2)
  /\ ((Player.cooldown p >? lit 0) = true -> Player.CanShoot p = false)
  /\ ((Player.cooldown p <=? lit 0) = true ->
      Player.CanShoot p = true
      /\ snd (Player.Shoot p)
         = Player.mk (Player.pos p) (Player.vel p) (Player.angle p)
                     (lit 0.18) (Player.invuln p) (Player.alive p)
      /\ Bullet.life (fst (Player.Shoot p)) = lit 1.2).
Proof.
  unfold Player.shoot, Player.CanShoot, Player.Shoot.
  split; [|split; [|split]].
  - intros H. now rewrite (pos_not_le0 _ H).
  - intros ->. eexists. split; reflexivity.
  - intros H. now apply pos_not_le0.
  - intros H. now repeat split.
Qed.

Lemma player_loop_miss (asts : list Asteroid.t) (g : Game.t) :
  (forall a, In a asts ->
     circle_collision (Player.pos (Game.player g)) SHIP_RADIUS
                      (Asteroid.pos a) (Asteroid.radius a) = false) ->
  Game.player_loop asts g = g.
Proof.
  induction asts as [|a asts IH]; intros H; simpl; [reflexivity|].
  rewrite (H a (or_introl eq_refl)). apply IH. intros b Hb. apply H. now right.
Qed.

Lemma player_loop_hit (asts : list Asteroid.t) (g : Game.t) :
  (exists a, In a asts /\
     circle_collision (Player.pos (Game.player g)) SHIP_RADIUS
                      (Asteroid.pos a) (Asteroid.radius a) = true) ->
  Game.player_loop asts g = Game.lose_life g.
Proof.
  induction asts as [|a asts IH]; intros (b & Hin & Hb); simpl; [easy|].
  destruct (circle_collision _ _ (Asteroid.pos a) _) eqn:E; [reflexivity|].
  apply IH. destruct Hin as [->|Hin]; [congruence|eauto].
Qed.

(** The pass costs one life or none. *)
Lemma player_loop_cases (asts : list Asteroid.t) (g : Game.t) :
  Game.player_loop asts g = g \/ Game.player_loop asts g = Game.lose_life g.
Proof.
  induction asts as [|a asts IH]; simpl; [now left|].
  destruct (circle_collision _ _ _ _); [now right|exact IH].
Qed.

Lemma player_vs_asteroids_cases (g : Game.t) :
  Game.player_vs_asteroids g = g
  \/ Game.player_vs_asteroids g = Game.lose_life g.
Proof.
  unfold Game.player_vs_asteroids.
  destruct (_ <=? _); [apply player_loop_cases|now left].
Qed.

Lemma filter_flat_map_nil {X Y : Type} (f : X -> list Y) (p : Y -> bool) l :
  (forall a, filter p (f a) = []) -> filter p (flat_map f l) = [].
Proof.
  intros H. induction l as [|a l IH]; simpl; [reflexivity|].
  now rewrite filter_app, H, IH.
Qed.

Lemma asteroid_draw_no_triangle (a : Asteroid.t) :
  filter is_triangle (Asteroid.draw a) = [].
Proof.
  unfold Asteroid.draw. induction (seq 0 (length (Asteroid.points a)));
    simpl; auto.
Qed.

(** What [Game::draw] emits for the ship. *)
Lemma draw_triangles (MeasureText : string -> Z -> Z) (g : Game.t) :
  filter is_triangle (Game.draw MeasureText g)
  = if negb (Game.game_over g) || (Player.invuln (Game.player g) >? lit 0)
    then Player.draw (Game.player g) else [].
Proof.
  unfold Game.draw. rewrite !filter_app.
  rewrite (filter_flat_map_nil _ _ _ asteroid_draw_no_triangle).
  rewrite (filter_flat_map_nil Bullet.draw is_triangle _ (fun _ => eq_refl)).
  destruct (negb _ || _), (Game.game_over g); reflexivity.
Qed.

(** C9 (as the code has it): at game over the ship is drawn exactly when
    the invulnerability timer is positive, and left out when it is not.
    The web build has the same test. *)
Theorem C9_game_over_draw (MeasureText : string -> Z -> Z) (g : Game.t) :
  Game.game_over g = true ->
  ((Player.invuln (Game.player g) >? lit 0) = false ->
     filter is_triangle (Game.draw MeasureText g) = []
     /\ Web.draws_player g = false)
  /\ ((Player.invuln (Game.player g) >? lit 0) = true ->
     filter is_triangle (Game.draw MeasureText g)
     = Player.draw (Game.player g)
     /\ Web.draws_player g = true).
Proof.
  intros Hg. rewrite draw_triangles. unfold Web.draws_player. rewrite Hg.
  split; intros ->; now split.
Qed.

End ControlFlow.

(** ** The bullet pass of the collisions *)

Section BulletPass.
Context {FO : FloatOps}.
Local Open Scope float_scope.

(** The test looks at the position of the bullet, not at its life. *)
Lemma hits_set_life a l b : hits a (Bullet.set_life l b) = hits a b.
Proof. reflexivity. Qed.

Lemma marked_hits a b b' : marked b b' -> hits a b' = hits a b.
Proof. now intros [-> | ->]. Qed.

Lemma marked_destroyed a bs bs' :
  Forall2 marked bs bs' -> destroyed bs' a = destroyed bs a.
Proof.
  unfold destroyed. induction 1 as [|b b' bs bs' Hb _ IH]; simpl; auto.
  now rewrite (marked_hits a _ _ Hb), IH.
Qed.

Lemma marked_refl bs : Forall2 marked bs bs.
Proof. induction bs; constructor; auto. now left. Qed.

Lemma marked_trans bs1 bs2 bs3 :
  Forall2 marked bs1 bs2 -> Forall2 marked bs2 bs3 -> Forall2 marked bs1 bs3.
Proof.
  intros H. revert bs3. induction H as [|b1 b2 l1 l2 H12 _ IH]; intros bs3 H3;
    inversion H3; subst; constructor; auto.
  destruct H12 as [-> | ->]; auto.
  match goal with H : marked _ _ |- _ => destruct H as [-> | ->] end;
    now right.
Qed.

(** The inner loop: the first bullet that overlaps gets life 0, the others
    are untouched. *)
Lemma first_hit_some a bs bs' :
  Game.first_hit a bs = Some bs' ->
  exists pre b post,
    bs = pre ++ b :: post
    /\ bs' = pre ++ Bullet.set_life (lit 0) b :: post
    /\ hits a b = true
    /\ Forall (fun c => hits a c = false) pre.
Proof.
  revert bs'. induction bs as [|b bs IH]; intros bs'; simpl; [discriminate|].
  fold (hits a b). destruct (hits a b) eqn:E.
  - intros [= <-]. now exists [], b, bs.
  - destruct (Game.first_hit a bs) as [l|]; [|discriminate].
    intros [= <-]. destruct (IH l eq_refl) as (pre & c & post & -> & -> & Hc & Hpre).
    exists (b :: pre), c, post. repeat split; auto.
Qed.

Lemma first_hit_destroyed a bs :
  destroyed bs a = match Game.first_hit a bs with Some _ => true | None => false end.
Proof.
  unfold destroyed. induction bs as [|b bs IH]; simpl; [reflexivity|].
  fold (hits a b). destruct (hits a b); [reflexivity|].
  rewrite IH. now destruct (Game.first_hit a bs).
Qed.

Lemma first_hit_marked a bs bs' :
  Game.first_hit a bs = Some bs' -> Forall2 marked bs bs'.
Proof.
  intros H. apply first_hit_some in H as (pre & b & post & -> & -> & _ & _).
  apply Forall2_app; [apply marked_refl|].
  constructor; [now right|apply marked_refl].
Qed.

(** The two fragments of a destroyed asteroid. *)
Lemma returns_children_loop n a acc :
  valid_size (Asteroid.size a - 1) ->
  returns (Game.children_loop n a acc)
    (fun l => exists kids, l = acc ++ kids /\ length kids = n
                           /\ Forall (fragment_of a) kids).
Proof.
  intros Hs. revert acc. induction n as [|n IH]; intros acc r; simpl.
  - apply returns_at_ret. exists []. rewrite app_nil_r. now repeat split.
  - eapply returns_at_bind; [now apply returns_asteroid_new|].
    intros c r1 Ht1 (Hpos & Hsize & _).
    eapply returns_at_bind; [apply returns_random_asteroid_velocity|].
    intros v r2 Ht2 _.
    eapply returns_at_weaken; [apply IH|].
    intros l (kids & -> & Hlen & Hall). exists (Asteroid.set_vel v c :: kids).
    rewrite <- app_assoc. simpl. repeat split; auto.
    constructor; auto. now split.
Qed.

(** One round of the loop over the asteroids, for an asteroid that some
    bullet overlaps. *)
Lemma resolve_asteroid_hit (a : Asteroid.t) (st : Game.pass) :
  valid_size (Asteroid.size a) ->
  destroyed (Game.p_bullets st) a = true ->
  (exists pre b post,
     Game.p_bullets st = pre ++ b :: post
     /\ hits a b = true
     /\ Forall (fun c => hits a c = false) pre
     /\ Game.remove_dead [Bullet.set_life (lit 0) b] = []
     /\ returns (Game.resolve_asteroid a st)
         (fun st' =>
            Game.p_score st' = (Game.p_score st + 10 * Asteroid.size a)%Z
            /\ Game.p_bullets st' = pre ++ Bullet.set_life (lit 0) b :: post
            /\ Game.remaining_asteroids st' = Game.remaining_asteroids st
            /\ exists kids,
                 Game.new_asteroids st' = Game.new_asteroids st ++ kids
                 /\ Forall (fragment_of a) kids
                 /\ length kids
                    = if (Asteroid.size a >? 1)%Z then 2%nat else 0%nat)).
Proof.
  intros Hs Hd. rewrite first_hit_destroyed in Hd.
  destruct (Game.first_hit a (Game.p_bullets st)) as [bs'|] eqn:E;
    [clear Hd|discriminate].
  destruct (first_hit_some _ _ _ E) as (pre & b & post & Hbs & -> & Hb & Hpre).
  exists pre, b, post. repeat split; auto.
  - unfold Game.remove_dead. cbn [filter Bullet.set_life Bullet.life].
    now rewrite zero_le0.
  - intros r. unfold Game.resolve_asteroid. rewrite E.
    destruct (Z.gtb_spec (Asteroid.size a) 1) as [Hgt|Hle].
    + eapply returns_at_bind;
        [apply returns_children_loop; unfold valid_size in *; lia|].
      intros l r1 Ht1 (kids & -> & Hlen & Hall).
      apply returns_at_ret. cbn. repeat split; auto. now exists kids.
    + eapply (returns_at_bind _ _ (fun l => l = Game.new_asteroids st));
        [now apply returns_at_ret|].
      intros l r1 Ht1 ->. apply returns_at_ret. cbn. repeat split; auto.
      exists []. rewrite app_nil_r. now repeat split.
Qed.

(** One round for an asteroid that no bullet overlaps: it is kept. *)
Lemma resolve_asteroid_miss (a : Asteroid.t) (st : Game.pass) r :
  destroyed (Game.p_bullets st) a = false ->
  Game.resolve_asteroid a st r
  = Done (Game.mkPass (Game.p_bullets st) (Game.p_score st)
                      (Game.new_asteroids st)
                      (Game.remaining_asteroids st ++ [a]), r).
Proof.
  intros Hd. rewrite first_hit_destroyed in Hd. unfold Game.resolve_asteroid.
  now destruct (Game.first_hit a (Game.p_bullets st)).
Qed.

Lemma filter_marked (f : list Bullet.t -> Asteroid.t -> bool) bs bs' l :
  (forall a, f bs' a = f bs a) -> filter (f bs') l = filter (f bs) l.
Proof. intros H. apply filter_ext. exact H. Qed.

(** The whole loop over the asteroids.  Which asteroids are destroyed is
    decided by the positions of the bullets at the start of the pass: a
    bullet that has been given life 0 goes on destroying. *)
Lemma resolve_all_returns (asts : list Asteroid.t) (st : Game.pass) :
  Forall (fun a => valid_size (Asteroid.size a)) asts ->
  returns (Game.resolve_all asts st)
    (fun st' =>
       Game.p_score st'
       = (Game.p_score st
          + points_for (filter (destroyed (Game.p_bullets st)) asts))%Z
       /\ Game.remaining_asteroids st'
          = Game.remaining_asteroids st
            ++ filter (fun a => negb (destroyed (Game.p_bullets st) a)) asts
       /\ Forall2 marked (Game.p_bullets st) (Game.p_bullets st')
       /\ exists kids,
            Game.new_asteroids st' = Game.new_asteroids st ++ kids
            /\ length kids
               = (2 * length (splitting (Game.p_bullets st) asts))%nat
            /\ Forall (fun k => exists parent,
                         In parent asts
                         /\ destroyed (Game.p_bullets st) parent = true
                         /\ (1 < Asteroid.size parent)%Z
                         /\ fragment_of parent k) kids).
Proof.
  revert st. induction asts as [|a asts IH]; intros st Hv r.
  - apply returns_at_ret. cbn. rewrite app_nil_r, Z.add_0_r.
    repeat split; auto using marked_refl.
    exists []. now rewrite app_nil_r.
  - inversion Hv as [|? ? Ha Hv']; subst. cbn [Game.resolve_all].
    destruct (destroyed (Game.p_bullets st) a) eqn:Hd.
    + destruct (resolve_asteroid_hit a st Ha Hd)
        as (pre & b & post & Hbs & Hb & Hpre & _ & Hret).
      eapply returns_at_bind; [apply Hret|].
      intros st1 r1 Ht1 (Hsc & Hbs1 & Hrem & kids1 & Hnew & Hfrag & Hlen).
      assert (Forall2 marked (Game.p_bullets st) (Game.p_bullets st1)) as Hm.
      { rewrite Hbs, Hbs1. apply Forall2_app; [apply marked_refl|].
        constructor; [now right|apply marked_refl]. }
      eapply returns_at_weaken; [apply (IH st1 Hv')|].
      intros st' (Hsc' & Hrem' & Hm' & kids & Hnew' & Hlen' & Hfrag').
      unfold splitting in *. cbn [filter points_for fold_right].
      rewrite Hd. cbn [negb andb fold_right].
      rewrite (filter_marked destroyed _ _ _
                 (fun x => marked_destroyed x _ _ Hm)) in Hsc'.
      rewrite (filter_marked (fun bs x => negb (destroyed bs x)) _ _ _
                 (fun x => f_equal negb (marked_destroyed x _ _ Hm))) in Hrem'.
      rewrite (filter_marked
                 (fun bs x => destroyed bs x && (Asteroid.size x >? 1)%Z) _ _ _
                 (fun x => f_equal (fun c => c && _)
                                   (marked_destroyed x _ _ Hm))) in Hlen'.
      repeat split.
      * rewrite Hsc', Hsc. fold (points_for (filter (destroyed (Game.p_bullets st)) asts)). lia.
      * now rewrite Hrem', Hrem.
      * eapply marked_trans; eauto.
      * exists (kids1 ++ kids). repeat split.
        -- now rewrite Hnew', Hnew, app_assoc.
        -- rewrite length_app, Hlen', Hlen.
           destruct (Z.gtb_spec (Asteroid.size a) 1); cbn [length]; lia.
        -- apply Forall_app. split.
           ++ destruct (Z.gtb_spec (Asteroid.size a) 1) as [Hgt|Hle].
              ** eapply Forall_impl; [|exact Hfrag].
                 intros k Hk. exists a.
                 split; [now left|]. split; [exact Hd|]. now split.
              ** destruct kids1; [constructor|discriminate].
           ++ eapply Forall_impl; [|exact Hfrag'].
              intros k (parent & Hin & Hdp & Hsz & Hk). exists parent.
              split; [now right|]. split; [|now split].
              now rewrite <- (marked_destroyed parent _ _ Hm).
    + eapply returns_at_bind;
        [apply returns_at_done, resolve_asteroid_miss, Hd|].
      intros st1 r1 Ht1 ->.
      eapply returns_at_weaken; [apply (IH _ Hv')|].
      cbn [Game.p_bullets Game.p_score Game.new_asteroids
           Game.remaining_asteroids].
      intros st' (Hsc' & Hrem' & Hm' & kids & Hnew' & Hlen' & Hfrag').
      unfold splitting in *. cbn [filter]. rewrite Hd. cbn [negb andb].
      repeat split; auto.
      * now rewrite Hrem', <- app_assoc.
      * exists kids. repeat split; auto.
        eapply Forall_impl; [|exact Hfrag'].
        intros k (parent & Hin & Hk). exists parent. split; [now right|auto].
Qed.

End BulletPass.

Section WholePass.
Context {FO : FloatOps}.
Local Open Scope float_scope.

Lemma returns_at_det {A : Type} (m : Rand A) (P : A -> Prop) r a r' :
  returns_at r m P -> m r = Done (a, r') -> P a.
Proof. intros (b & r1 & Hm & _ & Hp) H. congruence. Qed.

(** The bullets one round of the loop leaves. *)
Lemma resolve_asteroid_bullets a st r st1 r1 :
  Game.resolve_asteroid a st r = Done (st1, r1) ->
  Game.p_bullets st1
  = match Game.first_hit a (Game.p_bullets st) with
    | Some bs' => bs'
    | None => Game.p_bullets st
    end.
Proof.
  unfold Game.resolve_asteroid.
  destruct (Game.first_hit a (Game.p_bullets st)) as [bs'|].
  - intros H. apply bind_inv in H as (kids & r2 & _ & H). now inversion H.
  - intros H. now inversion H.
Qed.

Lemma first_hit_head a b bs :
  match Game.first_hit a (b :: bs) with
  | Some bs' =>
      exists tl, bs' = (if hits a b then Bullet.set_life (lit 0) b else b) :: tl
  | None => hits a b = false
  end.
Proof.
  cbn [Game.first_hit]. fold (hits a b). destruct (hits a b); [eauto|].
  destruct (Game.first_hit a bs); cbn; eauto.
Qed.

(** A bullet at the head of the list that overlaps one of the asteroids
    ends the loop with life 0, and keeps it through the rest of the loop. *)
Lemma resolve_all_marks_head asts st r st' r' b b0 bs :
  Game.resolve_all asts st r = Done (st', r') ->
  Game.p_bullets st = b0 :: bs ->
  b0 = Bullet.set_life (lit 0) b
  \/ (b0 = b /\ exists a, In a asts /\ hits a b = true) ->
  exists tl, Game.p_bullets st' = Bullet.set_life (lit 0) b :: tl.
Proof.
  revert st r b0 bs. induction asts as [|a asts IH]; intros st r b0 bs H Hbs Hb.
  - inversion H; subst. destruct Hb as [->|(_ & a & [] & _)]. eauto.
  - cbn [Game.resolve_all] in H. apply bind_inv in H as (st1 & r1 & H1 & H).
    apply resolve_asteroid_bullets in H1. rewrite Hbs in H1.
    pose proof (first_hit_head a b0 bs) as Hh.
    destruct Hb as [->|(-> & a' & Hin & Ha')].
    + rewrite hits_set_life in Hh.
      destruct (Game.first_hit a (Bullet.set_life (lit 0) b :: bs)) as [bs'|].
      * destruct Hh as (tl & ->).
        eapply (IH st1 r1 _ tl H); [|left; reflexivity].
        rewrite H1. now destruct (hits a b).
      * eapply (IH st1 r1 _ bs H H1). now left.
    + destruct (Game.first_hit a (b :: bs)) as [bs'|].
      * destruct Hh as (tl & ->). destruct (hits a b) eqn:E.
        -- eapply (IH st1 r1 _ tl H H1). now left.
        -- eapply (IH st1 r1 _ tl H H1). right. split; [reflexivity|].
           exists a'. split; [|exact Ha'].
           destruct Hin as [<-|Hin]; [congruence|exact Hin].
      * eapply (IH st1 r1 _ bs H H1). right. split; [reflexivity|].
        exists a'. split; [|exact Ha'].
        destruct Hin as [<-|Hin]; [congruence|exact Hin].
Qed.

(** The bullet pass as a whole. *)
Lemma bullets_vs_asteroids_returns (g : Game.t) :
  Forall (fun a => valid_size (Asteroid.size a)) (Game.asteroids g) ->
  returns (Game.bullets_vs_asteroids g)
    (fun g' =>
       Game.player g' = Game.player g
       /\ Game.lives g' = Game.lives g
       /\ Game.wave g' = Game.wave g
       /\ Game.game_over g' = Game.game_over g
       /\ Game.score g'
          = (Game.score g
             + points_for (filter (destroyed (Game.bullets g))
                                  (Game.asteroids g)))%Z
       /\ (exists bs', Forall2 marked (Game.bullets g) bs'
                       /\ Game.bullets g' = Game.remove_dead bs')
       /\ exists kids,
            Game.asteroids g'
            = filter (fun a => negb (destroyed (Game.bullets g) a))
                     (Game.asteroids g) ++ kids
            /\ length kids
               = (2 * length (splitting (Game.bullets g) (Game.asteroids g)))%nat
            /\ Forall (fun k => exists parent,
                         In parent (Game.asteroids g)
                         /\ destroyed (Game.bullets g) parent = true
                         /\ (1 < Asteroid.size parent)%Z
                         /\ fragment_of parent k) kids).
Proof.
  intros Hv r. unfold Game.bullets_vs_asteroids.
  eapply returns_at_bind; [apply (resolve_all_returns _ _ Hv)|].
  cbn [Game.p_bullets Game.p_score Game.new_asteroids
       Game.remaining_asteroids app].
  intros st r1 Ht1 (Hsc & Hrem & Hm & kids & Hnew & Hlen & Hfrag).
  apply returns_at_ret.
  cbn [Game.player Game.lives Game.wave Game.game_over Game.score
       Game.bullets Game.asteroids].
  repeat split; auto.
  - now exists (Game.p_bullets st).
  - exists kids. now rewrite Hrem, Hnew.
Qed.

Lemma filter_all {X : Type} (p : X -> bool) l :
  Forall (fun v => p v = true) l -> filter p l = l.
Proof.
  induction 1 as [|v l Hv _ IH]; cbn; [reflexivity|]. now rewrite Hv, IH.
Qed.

Lemma filter_none {X : Type} (p : X -> bool) l :
  Forall (fun v => p v = true) l -> filter (fun v => negb (p v)) l = [].
Proof.
  induction 1 as [|v l Hv _ IH]; cbn; [reflexivity|]. now rewrite Hv.
Qed.

(** The bullet pass when the only bullet overlaps every asteroid of a list
    of two or more. *)
Lemma bullets_vs_asteroids_one_bullet (g : Game.t) (b : Bullet.t) :
  Game.bullets g = [b] ->
  (2 <= length (Game.asteroids g))%nat ->
  Forall (fun a => valid_size (Asteroid.size a) /\ hits a b = true)
         (Game.asteroids g) ->
  returns (Game.bullets_vs_asteroids g)
    (fun g' =>
       Game.score g' = (Game.score g + points_for (Game.asteroids g))%Z
       /\ Game.bullets g' = []
       /\ length (Game.asteroids g')
          = (2 * length (filter (fun a => (Asteroid.size a >? 1)%Z)
                                (Game.asteroids g)))%nat
       /\ Forall (fun k => exists parent,
                    In parent (Game.asteroids g)
                    /\ fragment_of parent k) (Game.asteroids g')).
Proof.
  intros Hb Hlen Hall.
  assert (Forall (fun a => valid_size (Asteroid.size a)) (Game.asteroids g))
    as Hv by (eapply Forall_impl; [|exact Hall]; now intros a [H _]).
  assert (Forall (fun a => destroyed (Game.bullets g) a = true)
                 (Game.asteroids g)) as Hd.
  { eapply Forall_impl; [|exact Hall]. intros a [_ H].
    rewrite Hb. unfold destroyed. cbn. now rewrite H. }
  intros r. unfold Game.bullets_vs_asteroids.
  destruct (resolve_all_returns (Game.asteroids g)
              (Game.mkPass (Game.bullets g) (Game.score g) [] []) Hv r)
    as (st & r1 & Hrun & Ht & Hsc & Hrem & Hm & kids & Hnew & Hkl & Hkf).
  cbn [Game.p_bullets Game.p_score Game.new_asteroids
       Game.remaining_asteroids app] in Hsc, Hrem, Hm, Hnew, Hkl, Hkf.
  eexists. exists r1. rewrite (bind_done _ _ _ _ _ Hrun).
  split; [reflexivity|]. split; [exact Ht|].
  cbn [Game.score Game.bullets Game.asteroids].
  rewrite (filter_all _ _ Hd) in Hsc. rewrite (filter_none _ _ Hd) in Hrem.
  rewrite Hrem, Hnew. cbn [app]. repeat split.
  - exact Hsc.
  - destruct (resolve_all_marks_head _ _ _ _ _ b b [] Hrun Hb) as (tl & Htl).
    { right. split; [reflexivity|].
      destruct (Game.asteroids g) as [|a l]; [cbn in Hlen; lia|].
      exists a. split; [now left|]. now inversion Hall as [|? ? [_ H] _]. }
    rewrite Htl, Hb in Hm. inversion Hm as [|? ? ? ? _ Hnil]; subst.
    inversion Hnil; subst. rewrite Htl. unfold Game.remove_dead.
    cbn [filter Bullet.set_life Bullet.life]. now rewrite zero_le0.
  - rewrite Hkl. unfold splitting. f_equal. f_equal.
    apply filter_ext_in. intros a Ha.
    rewrite Forall_forall in Hd. now rewrite (Hd a Ha).
  - eapply Forall_impl; [|exact Hkf].
    intros k (parent & Hin & _ & _ & Hk). now exists parent.
Qed.
End WholePass.

(** ** One frame *)

Section Frame.
Context {FO : FloatOps}.
Local Open Scope float_scope.

Lemma points_for_nonneg (l : list Asteroid.t) :
  Forall (fun a => valid_size (Asteroid.size a)) l -> (0 <= points_for l)%Z.
Proof.
  induction 1 as [|a l Ha _ IH]; [cbn; lia|].
  change (points_for (a :: l)) with (10 * Asteroid.size a + points_for l)%Z.
  unfold valid_size in Ha. lia.
Qed.

Lemma Forall_filter {X : Type} (P : X -> Prop) (p : X -> bool) l :
  Forall P l -> Forall P (filter p l).
Proof.
  induction 1 as [|v l Hv _ IH]; cbn; [constructor|].
  destruct (p v); auto.
Qed.

(** The bullet pass keeps the sizes valid and the score from falling. *)
Lemma bullets_vs_asteroids_inv (g : Game.t) :
  Forall (fun a => valid_size (Asteroid.size a)) (Game.asteroids g) ->
  returns (Game.bullets_vs_asteroids g)
    (fun g' =>
       Game.player g' = Game.player g
       /\ Game.lives g' = Game.lives g
       /\ Game.wave g' = Game.wave g
       /\ Game.game_over g' = Game.game_over g
       /\ (Game.score g <= Game.score g')%Z
       /\ Forall (fun a => valid_size (Asteroid.size a)) (Game.asteroids g')).
Proof.
  intros Hv r.
  eapply returns_at_weaken; [apply (bullets_vs_asteroids_returns g Hv)|].
  intros g' (Hp & Hl & Hw & Hgo & Hsc & _ & kids & Hk & _ & Hkf).
  repeat split; auto.
  - rewrite Hsc.
    pose proof (points_for_nonneg _ (Forall_filter _ (destroyed (Game.bullets g)) _ Hv)).
    lia.
  - rewrite Hk. apply Forall_app. split; [now apply Forall_filter|].
    eapply Forall_impl; [|exact Hkf].
    intros k (parent & Hin & _ & Hgt & Hsz & _).
    rewrite Forall_forall in Hv. specialize (Hv parent Hin).
    unfold valid_size in *. lia.
Qed.

Lemma player_vs_asteroids_frame (g : Game.t) :
  Game.asteroids (Game.player_vs_asteroids g) = Game.asteroids g
  /\ Game.bullets (Game.player_vs_asteroids g) = Game.bullets g
  /\ Game.score (Game.player_vs_asteroids g) = Game.score g
  /\ Game.wave (Game.player_vs_asteroids g) = Game.wave g.
Proof.
  destruct (player_vs_asteroids_cases g) as [-> | ->]; now repeat split.
Qed.

(** The player pass happens only when there is an asteroid to overlap. *)
Lemma player_vs_asteroids_empty (g : Game.t) :
  Game.asteroids g = [] -> Game.player_vs_asteroids g = g.
Proof.
  intros H. unfold Game.player_vs_asteroids. rewrite H.
  now destruct (_ <=? _).
Qed.

Lemma handle_collisions_inv (g : Game.t) :
  Forall (fun a => valid_size (Asteroid.size a)) (Game.asteroids g) ->
  returns (Game.handle_collisions g)
    (fun g' =>
       Game.wave g' = Game.wave g
       /\ (Game.score g <= Game.score g')%Z
       /\ Forall (fun a => valid_size (Asteroid.size a)) (Game.asteroids g')
       /\ ((Game.lives g' = Game.lives g
            /\ Game.game_over g' = Game.game_over g)
           \/ (Game.lives g' = (Game.lives g - 1)%Z
               /\ Game.game_over g'
                  = (if (Game.lives g - 1 <=? 0)%Z then true
                     else Game.game_over g)
               /\ Player.invuln (Game.player g') = lit 2.0))).
Proof.
  intros Hv r. unfold Game.handle_collisions.
  eapply returns_at_bind; [apply (bullets_vs_asteroids_inv g Hv)|].
  intros g1 r1 Ht1 (Hp & Hl & Hw & Hgo & Hsc & Hv1).
  apply returns_at_ret.
  destruct (player_vs_asteroids_frame g1) as (Ha & _ & Hs & Hw').
  rewrite Ha, Hs, Hw', Hw. repeat split; auto.
  destruct (player_vs_asteroids_cases g1) as [-> | ->].
  - left. now rewrite Hl, Hgo.
  - right. cbn [Game.lose_life Game.lives Game.game_over Game.player].
    now rewrite Hl, Hgo.
Qed.

Lemma map_update_valid dt (l : list Asteroid.t) :
  Forall (fun a => valid_size (Asteroid.size a)) l ->
  Forall (fun a => valid_size (Asteroid.size a)) (map (Asteroid.update dt) l).
Proof. induction 1; cbn; constructor; auto. Qed.

(** A frame up to the end of the collisions. *)
Lemma advance_inv inp dt (g : Game.t) :
  Forall (fun a => valid_size (Asteroid.size a)) (Game.asteroids g) ->
  returns (Game.advance inp dt g)
    (fun g' =>
       Game.wave g' = Game.wave g
       /\ (Game.score g <= Game.score g')%Z
       /\ Forall (fun a => valid_size (Asteroid.size a)) (Game.asteroids g')
       /\ ((Game.lives g' = Game.lives g
            /\ Game.game_over g' = Game.game_over g)
           \/ (Game.lives g' = (Game.lives g - 1)%Z
               /\ Game.game_over g'
                  = (if (Game.lives g - 1 <=? 0)%Z then true
                     else Game.game_over g)
               /\ Player.invuln (Game.player g') = lit 2.0))).
Proof.
  intros Hv r. unfold Game.advance.
  destruct (if down_SPACE inp || pressed_MOUSE0 inp then _ else _)
    as [player2 bullets1].
  eapply returns_at_weaken.
  - apply handle_collisions_inv. cbn [Game.asteroids].
    now apply map_update_valid.
  - cbn [Game.wave Game.score Game.lives Game.game_over]. auto.
Qed.

Lemma next_wave_keep fuel (g : Game.t) r :
  Game.asteroids g <> [] -> Game.next_wave fuel g r = Done (g, r).
Proof. unfold Game.next_wave. now destruct (Game.asteroids g). Qed.
End Frame.

(** ** What a run preserves *)

Section Invariant.
Context {FO : FloatOps}.
Local Open Scope float_scope.

Lemma spawn_loop_done fuel n ppos acc r l r' :
  Game.spawn_loop fuel n ppos acc r = Done (l, r') ->
  exists fresh, l = acc ++ fresh /\ length fresh = n
                /\ Forall (spawned_clear ppos) fresh.
Proof.
  revert acc r. induction n as [|n IH]; intros acc r H; cbn in H.
  - inversion H; subst. exists []. rewrite app_nil_r. now repeat split.
  - apply bind_inv in H as (p & r1 & Hp & H).
    apply bind_inv in H as (a & r2 & Ha & H).
    apply sample_position_clear in Hp.
    assert (valid_size 3) as H3 by (unfold valid_size; lia).
    destruct (returns_at_det _ _ _ _ _ (returns_asteroid_new p 3 H3 r1) Ha)
      as (Hpos & Hsize & _).
    destruct (IH _ _ H) as (fresh & -> & Hlen & Hall).
    exists (a :: fresh). rewrite <- app_assoc. cbn. repeat split; auto.
    constructor; auto. split; [exact Hsize|now rewrite Hpos].
Qed.

Lemma spawn_wave_done fuel wave_num (g : Game.t) r g' r' :
  Game.spawn_wave fuel wave_num g r = Done (g', r') ->
  Game.player g' = Game.player g
  /\ Game.bullets g' = Game.bullets g
  /\ Game.score g' = Game.score g
  /\ Game.lives g' = Game.lives g
  /\ Game.wave g' = Game.wave g
  /\ Game.game_over g' = Game.game_over g
  /\ length (Game.asteroids g') = Z.to_nat (3 + wave_num)
  /\ Forall (spawned_clear (Player.pos (Game.player g))) (Game.asteroids g').
Proof.
  unfold Game.spawn_wave. intros H.
  apply bind_inv in H as (l & r1 & Hl & H). inversion H; subst.
  apply spawn_loop_done in Hl as (fresh & -> & Hlen & Hall).
  now repeat split.
Qed.

Lemma spawned_valid ppos (l : list Asteroid.t) :
  Forall (spawned_clear ppos) l ->
  Forall (fun a => valid_size (Asteroid.size a)) l.
Proof.
  intros H. eapply Forall_impl; [|exact H].
  intros a [Hs _]. unfold valid_size. lia.
Qed.

Lemma game_inv_new fuel r0 (g : Game.t) r :
  Game.new fuel r0 = Done (g, r) -> game_inv g.
Proof.
  unfold Game.new. intros H.
  apply spawn_wave_done in H as (_ & _ & Hsc & Hl & Hw & Hgo & _ & Hall).
  cbn in Hsc, Hl, Hw, Hgo. unfold game_inv, LIVES_START in *.
  rewrite Hsc, Hl, Hw, Hgo. repeat split; try lia; try discriminate.
  eapply spawned_valid; eauto.
Qed.

(** One call of [update] from a state of a run: what it keeps, and how the
    counters move.  A frame of play never lowers the wave or the score and
    never raises the lives; the restart sets them to 1, 0 and 3. *)
Lemma update_step fuel inp dt (g : Game.t) r g' r' :
  game_inv g ->
  Game.update fuel inp dt g r = Done (g', r') ->
  game_inv g'
  /\ (Game.game_over g = false ->
      (Game.wave g <= Game.wave g' <= Game.wave g + 1)%Z
      /\ (Game.score g <= Game.score g')%Z
      /\ (Game.lives g - 1 <= Game.lives g' <= Game.lives g)%Z)
  /\ (Game.game_over g = true -> pressed_ENTER inp = false -> g' = g)
  /\ (Game.game_over g = true -> pressed_ENTER inp = true ->
      Game.score g' = 0%Z /\ Game.lives g' = 3%Z /\ Game.wave g' = 1%Z
      /\ Game.game_over g' = false).
Proof.
  intros (Hv & Hsc & Hw & Hl & Hgo & Hti) H. unfold Game.update in H.
  remember (Game.game_over g) as go eqn:Eg in H. symmetry in Eg.
  destruct go.
  - destruct (pressed_ENTER inp) eqn:Ee.
    + unfold Game.reset in H.
      apply spawn_wave_done in H as (_ & _ & Hsc' & Hl' & Hw' & Hgo' & _ & Hall).
      cbn in Hsc', Hl', Hw', Hgo'. unfold LIVES_START in *.
      split; [|split; [congruence|split; [discriminate|now repeat split]]].
      unfold game_inv. rewrite Hsc', Hl', Hw', Hgo'.
      repeat split; try lia; try discriminate.
      eapply spawned_valid; eauto.
    + inversion H; subst g' r'.
      split; [now unfold game_inv|].
      split; [congruence|split; [reflexivity|discriminate]].
  - apply bind_inv in H as (g1 & r1 & H1 & H).
    destruct (returns_at_det _ _ _ _ _ (advance_inv inp dt g Hv r) H1)
      as (Hw1 & Hsc1 & Hv1 & Hcase).
    assert (1 <= Game.lives g)%Z as Hpos.
    { destruct (Z.eq_dec (Game.lives g) 0) as [E|E]; [|lia].
      apply Hgo in E. congruence. }
    assert ((0 <= Game.lives g1 <= 3)%Z
            /\ (Game.lives g1 = 0%Z <-> Game.game_over g1 = true)
            /\ (Game.lives g - 1 <= Game.lives g1 <= Game.lives g)%Z
            /\ (Game.game_over g1 = true ->
                Player.invuln (Game.player g1) = lit 2.0))
      as (Hl1 & Hgo1 & Hd1 & Hti1).
    { destruct Hcase as [(-> & ->) | (-> & -> & Hinv)].
      - split; [lia|]. split; [exact Hgo|]. split; [lia|congruence].
      - rewrite Eg. destruct (Z.leb_spec (Game.lives g - 1) 0).
        + split; [lia|]. split; [|split; [lia|intros _; exact Hinv]].
          split; [reflexivity|lia].
        + split; [lia|]. split; [|split; [lia|discriminate]].
          split; [lia|discriminate]. }
    unfold Game.next_wave in H.
    destruct (Game.asteroids g1) as [|a l] eqn:Ea.
    + apply spawn_wave_done in H as (Hp' & _ & Hsc' & Hl' & Hw' & Hgo' & _ & Hall).
      cbn in Hp', Hsc', Hl', Hw', Hgo'.
      split; [|split; [intros _; lia|split; congruence]].
      unfold game_inv. rewrite Hp', Hsc', Hl', Hw', Hgo'.
      split; [eapply spawned_valid; eauto|].
      split; [lia|]. split; [lia|]. split; [lia|].
      split; [exact Hgo1|reflexivity].
    + inversion H; subst g' r'.
      split; [|split; [intros _; lia|split; congruence]].
      unfold game_inv. rewrite Ea.
      split; [exact Hv1|].
      split; [lia|]. split; [lia|]. split; [lia|].
      split; [exact Hgo1|exact Hti1].
Qed.

Lemma reachable_inv (g : Game.t) r : reachable g r -> game_inv g.
Proof.
  induction 1 as [fuel r0 g r H | fuel inp dt g r g' r' _ IH H].
  - eapply game_inv_new; eauto.
  - eapply update_step; eauto.
Qed.

(** C6 (as the code has it): in every state of a run the lives are between
    0 and 3, and are 0 exactly when the game-over flag is set; the score is
    not negative and the wave is at least 1.  Across a frame of play (the
    flag is not set) the wave does not fall and rises by at most 1, the
    score does not fall, and the lives do not rise and fall by at most 1.
    At game over nothing moves until the restart, and the restart sets the
    score to 0, the lives to 3 and the wave to 1. *)
Theorem C6_counters (g : Game.t) r :
  reachable g r ->
  (0 <= Game.lives g <= 3)%Z
  /\ (Game.lives g = 0%Z <-> Game.game_over g = true)
  /\ (0 <= Game.score g)%Z
  /\ (1 <= Game.wave g)%Z
  /\ forall fuel inp dt g' r',
       Game.update fuel inp dt g r = Done (g', r') ->
       (Game.game_over g = false ->
          (Game.wave g <= Game.wave g' <= Game.wave g + 1)%Z
          /\ (Game.score g <= Game.score g')%Z
          /\ (Game.lives g - 1 <= Game.lives g' <= Game.lives g)%Z)
       /\ (Game.game_over g = true -> pressed_ENTER inp = false -> g' = g)
       /\ (Game.game_over g = true -> pressed_ENTER inp = true ->
           Game.score g' = 0%Z /\ Game.lives g' = 3%Z /\ Game.wave g' = 1%Z
           /\ Game.game_over g' = false).
Proof.
  intros Hr. pose proof (reachable_inv g r Hr) as Hi.
  destruct Hi as (Hv & Hsc & Hw & Hl & Hgo & Hti).
  split; [exact Hl|]. split; [exact Hgo|]. split; [exact Hsc|].
  split; [exact Hw|].
  intros fuel inp dt g' r' H.
  eapply (update_step fuel inp dt g r g' r'); [|exact H].
  exact (conj Hv (conj Hsc (conj Hw (conj Hl (conj Hgo Hti))))).
Qed.

(** At game over the invulnerability timer stands at 2.0: the hit that
    took the last life reset the player, and [update] no longer runs the
    timer. *)
Lemma game_over_timer (g : Game.t) r :
  reachable g r -> Game.game_over g = true ->
  Player.invuln (Game.player g) = lit 2.0.
Proof.
  intros Hr. now destruct (reachable_inv g r Hr) as (_ & _ & _ & _ & _ & H).
Qed.
End Invariant.

(** ** Comparisons and wrapping on the rationals *)

Section Rational.
Variable m : Libm Q.
Local Open Scope Q_scope.

Lemma Qltb_lt a b : Qltb a b = true <-> a < b.
Proof.
  unfold Qltb. rewrite negb_true_iff. split.
  - intros H. apply Qnot_le_lt. intros Hle. apply Qle_bool_iff in Hle.
    congruence.
  - intros H. destruct (Qle_bool b a) eqn:E; [|reflexivity].
    apply Qle_bool_iff in E. Lqa.lra.
Qed.

Lemma Qltb_ge a b : Qltb a b = false <-> b <= a.
Proof. unfold Qltb. rewrite negb_false_iff. apply Qle_bool_iff. Qed.

Lemma Qle_bool_gt a b : Qle_bool a b = false <-> b < a.
Proof.
  split.
  - intros H. apply Qnot_le_lt. intros Hle. apply Qle_bool_iff in Hle.
    congruence.
  - intros H. destruct (Qle_bool a b) eqn:E; [|reflexivity].
    apply Qle_bool_iff in E. Lqa.lra.
Qed.

Lemma wrap1_spec (w a : Q) (wz : Z) :
  w = inject_Z wz -> 0 < w ->
  - w <= a -> a < 2 * w ->
  (0 <= wrap1 wz a /\ wrap1 wz a <= w)
  /\ (0 <= a -> a <= w -> wrap1 wz a = a).
Proof.
  intros -> Hw H1 H2. unfold wrap1.
  generalize dependent (inject_Z wz). intros q Hq H1 H2.
  destruct (Qltb a (Qred 0)) eqn:E0.
  - apply Qltb_lt in E0. name_Qred.
    split; [split; Lqa.lra|intros; Lqa.lra].
  - apply Qltb_ge in E0.
    destruct (Qltb (Qred q) a) eqn:E1.
    + apply Qltb_lt in E1. name_Qred.
      split; [split; Lqa.lra|intros; Lqa.lra].
    + apply Qltb_ge in E1. name_Qred.
      split; [split; Lqa.lra|reflexivity].
Qed.

Lemma wrap_position_coordinates (p : @Vector2 (QFloat m)) :
  x (wrap_position p) = wrap1 SCREEN_WIDTH (x p)
  /\ y (wrap_position p) = wrap1 SCREEN_HEIGHT (y p).
Proof. split; reflexivity. Qed.

End Rational.

Section NextWave.
Context {FO : FloatOps}.

Lemma bullets_vs_asteroids_done (g : Game.t) r g' r' :
  Game.bullets_vs_asteroids g r = Done (g', r') ->
  Game.player g' = Game.player g /\ Game.wave g' = Game.wave g
  /\ Game.lives g' = Game.lives g /\ Game.game_over g' = Game.game_over g.
Proof.
  unfold Game.bullets_vs_asteroids. intros H.
  apply bind_inv in H as (st & r1 & _ & H). inversion H; subst.
  now repeat split.
Qed.

Lemma advance_done_wave inp dt (g : Game.t) r g1 r1 :
  Game.advance inp dt g r = Done (g1, r1) -> Game.wave g1 = Game.wave g.
Proof.
  unfold Game.advance.
  destruct (if down_SPACE inp || pressed_MOUSE0 inp then _ else _)
    as [player2 bullets1].
  unfold Game.handle_collisions. intros H.
  apply bind_inv in H as (g0 & r0 & H0 & H). inversion H; subst.
  apply bullets_vs_asteroids_done in H0 as (_ & Hw & _).
  destruct (player_vs_asteroids_frame g0) as (_ & _ & _ & ->).
  exact Hw.
Qed.

End NextWave.

(** ** The sampling loop of [spawn_wave], the next wave and the restart *)

Section SamplingLoop.
Context {FO : FloatOps}.
Local Open Scope float_scope.

(** The sampling loop returns the first sample that is not rejected, with
    the cursor behind it; it exceeds its bound exactly when the first
    [fuel] samples are all rejected. *)
Lemma sample_position_first fuel ppos r :
  (exists k,
     (k < fuel)%nat
     /\ all_rejected ppos (tape r) (cursor r) k
     /\ rejected ppos (tape r) (cursor r + 2 * k) = false
     /\ Game.sample_position fuel ppos r
        = Done (sample_at (tape r) (cursor r + 2 * k),
                mkRng (tape r) (cursor r + 2 * k + 2)))
  \/ (all_rejected ppos (tape r) (cursor r) fuel
      /\ Game.sample_position fuel ppos r = Diverge).
Proof.
  revert r. induction fuel as [|fuel IH]; intros r.
  - right. split; [intros j Hj; lia|reflexivity].
  - cbn [Game.sample_position].
    change (bind (uniform_real (lit 0.0) (of_int SCREEN_WIDTH)) ?k r)
      with (k (x (sample_at (tape r) (cursor r)))
              (mkRng (tape r) (S (cursor r)))).
    cbv beta.
    change (bind (uniform_real (lit 0.0) (of_int SCREEN_HEIGHT)) ?k
                 (mkRng (tape r) (S (cursor r))))
      with (k (y (sample_at (tape r) (cursor r)))
              (mkRng (tape r) (S (S (cursor r))))).
    cbv beta. rewrite vector_eta.
    fold (rejected ppos (tape r) (cursor r)).
    destruct (rejected ppos (tape r) (cursor r)) eqn:E; cbn [negb].
    + destruct (IH (mkRng (tape r) (S (S (cursor r)))))
        as [(k & Hk & Hall & Hacc & Hrun) | (Hall & Hrun)];
        cbn [tape cursor] in *.
      * left. exists (S k). split; [lia|].
        replace (cursor r + 2 * S k)%nat with (S (S (cursor r)) + 2 * k)%nat
          by lia.
        split; [|split; [exact Hacc|exact Hrun]].
        intros [|j] Hj.
        -- now rewrite Nat.mul_0_r, Nat.add_0_r.
        -- replace (cursor r + 2 * S j)%nat
             with (S (S (cursor r)) + 2 * j)%nat by lia.
           apply Hall. lia.
      * right. split; [|exact Hrun].
        intros [|j] Hj.
        -- now rewrite Nat.mul_0_r, Nat.add_0_r.
        -- replace (cursor r + 2 * S j)%nat
             with (S (S (cursor r)) + 2 * j)%nat by lia.
           apply Hall. lia.
    + left. exists 0%nat. rewrite Nat.mul_0_r, Nat.add_0_r.
      split; [lia|]. split; [intros j Hj; lia|]. split; [exact E|].
      unfold ret. now rewrite Nat.add_comm.
Qed.

Lemma spawn_loop_runs fuel n ppos acc r :
  (exists l r', Game.spawn_loop fuel n ppos acc r = Done (l, r')
                /\ tape r' = tape r)
  \/ (Game.spawn_loop fuel n ppos acc r = Diverge
      /\ exists c, all_rejected ppos (tape r) c fuel).
Proof.
  revert acc r. induction n as [|n IH]; intros acc r.
  - left. now exists acc, r.
  - cbn [Game.spawn_loop].
    destruct (sample_position_first fuel ppos r)
      as [(k & _ & _ & _ & H) | (Hall & H)].
    + rewrite (bind_done _ _ _ _ _ H).
      assert (valid_size 3) as Hv by (unfold valid_size; lia).
      destruct (returns_asteroid_new (sample_at (tape r) (cursor r + 2 * k))
                  3 Hv (mkRng (tape r) (cursor r + 2 * k + 2)))
        as (a & r2 & Ha & Ht2 & _).
      rewrite (bind_done _ _ _ _ _ Ha). cbn [tape] in Ht2.
      destruct (IH (acc ++ [a]) r2) as [(l & r' & Hl & Ht) | (Hl & c & Hc)].
      * left. exists l, r'. split; [exact Hl|congruence].
      * right. split; [exact Hl|]. exists c. now rewrite <- Ht2.
    + right. split; [unfold bind; now rewrite H|]. now exists (cursor r).
Qed.

(** [spawn_wave] either returns the wave, or exceeds the bound of a
    sampling loop on [fuel] rejected samples in a row. *)
Lemma spawn_wave_runs fuel wave_num (g : Game.t) r :
  (exists g' r',
     Game.spawn_wave fuel wave_num g r = Done (g', r')
     /\ tape r' = tape r
     /\ Game.player g' = Game.player g
     /\ Game.bullets g' = Game.bullets g
     /\ Game.score g' = Game.score g
     /\ Game.lives g' = Game.lives g
     /\ Game.wave g' = Game.wave g
     /\ Game.game_over g' = Game.game_over g
     /\ length (Game.asteroids g') = Z.to_nat (3 + wave_num)
     /\ Forall (spawned_clear (Player.pos (Game.player g)))
               (Game.asteroids g'))
  \/ (Game.spawn_wave fuel wave_num g r = Diverge
      /\ exists c,
           all_rejected (Player.pos (Game.player g)) (tape r) c fuel).
Proof.
  destruct (spawn_loop_runs fuel (Z.to_nat (3 + wave_num))
              (Player.pos (Game.player g)) [] r)
    as [(l & r' & Hl & Ht) | (Hl & Hc)].
  - left.
    assert (Game.spawn_wave fuel wave_num g r
            = Done (Game.mk (Game.player g) (Game.bullets g) l
                            (Game.score g) (Game.lives g) (Game.wave g)
                            (Game.game_over g), r')) as E.
    { unfold Game.spawn_wave. now rewrite (bind_done _ _ _ _ _ Hl). }
    eexists _, r'. split; [exact E|]. split; [exact Ht|].
    exact (spawn_wave_done _ _ _ _ _ _ E).
  - right. split; [|exact Hc].
    unfold Game.spawn_wave, bind. now rewrite Hl.
Qed.

(** With enough fuel the loop returns, and what it returns does not depend
    on the fuel. *)
Lemma sample_position_enough ppos r :
  (exists k, rejected ppos (tape r) (cursor r + 2 * k) = false) ->
  exists p r' fuel0,
    tape r' = tape r
    /\ forall fuel, (fuel0 <= fuel)%nat ->
         Game.sample_position fuel ppos r = Done (p, r').
Proof.
  intros (k & Hk).
  destruct (sample_position_first (S k) ppos r)
    as [(k0 & _ & Hall0 & Hacc0 & _) | (Hall & _)].
  - exists (sample_at (tape r) (cursor r + 2 * k0)),
           (mkRng (tape r) (cursor r + 2 * k0 + 2)), (S k0).
    split; [reflexivity|]. intros fuel Hfuel.
    destruct (sample_position_first fuel ppos r)
      as [(k1 & _ & Hall1 & Hacc1 & Hrun) | (Hall & _)].
    + destruct (Nat.lt_trichotomy k1 k0) as [Hlt | [-> | Hlt]].
      * rewrite (Hall0 k1 Hlt) in Hacc1. discriminate.
      * exact Hrun.
      * rewrite (Hall1 k0 Hlt) in Hacc0. discriminate.
    + rewrite (Hall k0) in Hacc0 by lia. discriminate.
  - rewrite (Hall k) in Hk by lia. discriminate.
Qed.

Lemma spawn_loop_enough n ppos acc r :
  keeps_accepting ppos (tape r) ->
  exists l r' fuel0,
    tape r' = tape r
    /\ forall fuel, (fuel0 <= fuel)%nat ->
         Game.spawn_loop fuel n ppos acc r = Done (l, r').
Proof.
  intros Hk. revert acc r Hk. induction n as [|n IH]; intros acc r Hk.
  - exists acc, r, 0%nat. split; [reflexivity|]. reflexivity.
  - destruct (sample_position_enough ppos r (Hk (cursor r)))
      as (p & r1 & f1 & Ht1 & H1).
    assert (valid_size 3) as Hv by (unfold valid_size; lia).
    destruct (returns_asteroid_new p 3 Hv r1) as (a & r2 & Ha & Ht2 & _).
    destruct (IH (acc ++ [a]) r2) as (l & r' & f2 & Ht & H2).
    { now rewrite Ht2, Ht1. }
    exists l, r', (Nat.max f1 f2). split; [congruence|].
    intros fuel Hfuel. cbn [Game.spawn_loop].
    rewrite (bind_done _ _ _ _ _ (H1 fuel ltac:(lia))).
    rewrite (bind_done _ _ _ _ _ Ha). apply H2. lia.
Qed.

(** With enough fuel [spawn_wave] returns, on a tape on which samples
    outside the exclusion zone keep coming. *)
Lemma spawn_wave_enough wave_num (g : Game.t) r :
  keeps_accepting (Player.pos (Game.player g)) (tape r) ->
  exists fuel0,
    forall fuel, (fuel0 <= fuel)%nat ->
      exists g' r', Game.spawn_wave fuel wave_num g r = Done (g', r').
Proof.
  intros Hk.
  destruct (spawn_loop_enough (Z.to_nat (3 + wave_num))
              (Player.pos (Game.player g)) [] r Hk)
    as (l & r' & fuel0 & _ & H).
  exists fuel0. intros fuel Hfuel. unfold Game.spawn_wave.
  rewrite (bind_done _ _ _ _ _ (H fuel Hfuel)). now eexists _, _.
Qed.


(** C4: at game over and without the restart key, [update] changes nothing
    at all and draws no random number; with the restart key it is [reset],
    which returns a state with score 0, three lives, wave 1, no bullets,
    the flag cleared, the player reset, and four freshly made Large
    asteroids, all outside the exclusion zone around the centre of the
    screen.  With the bound [fuel] on the sampling loops it fails to return
    only when a loop meets [fuel] rejected samples in a row on the tape;
    on a tape on which samples outside the zone keep coming it returns for
    every bound that is large enough. *)
Theorem C4_game_over_freeze fuel inp dt (g : Game.t) r :
  Game.game_over g = true ->
  (pressed_ENTER inp = false -> Game.update fuel inp dt g r = Done (g, r))
  /\ (pressed_ENTER inp = true ->
      Game.update fuel inp dt g r = Game.reset fuel g r
      /\ ((exists g' r',
             Game.update fuel inp dt g r = Done (g', r')
             /\ tape r' = tape r
             /\ Game.score g' = 0%Z /\ Game.lives g' = 3%Z
             /\ Game.wave g' = 1%Z /\ Game.bullets g' = []
             /\ Game.game_over g' = false
             /\ Game.player g' = Player.reset (Game.player g)
             /\ length (Game.asteroids g') = 4%nat
             /\ Forall (spawned_clear Player.center) (Game.asteroids g'))
          \/ (Game.update fuel inp dt g r = Diverge
              /\ exists c, all_rejected Player.center (tape r) c fuel))
      /\ (keeps_accepting Player.center (tape r) ->
          exists fuel0,
            forall fuel', (fuel0 <= fuel')%nat ->
              exists g' r', Game.update fuel' inp dt g r = Done (g', r'))).
Proof.
  intros Hg. unfold Game.update. rewrite Hg. split; intros ->; [reflexivity|].
  split; [reflexivity|]. unfold Game.reset. split.
  - match goal with
    | |- context [Game.spawn_wave fuel ?w ?g0 r] =>
        destruct (spawn_wave_runs fuel w g0 r)
          as [(g' & r' & Hrun & Ht & Hp & Hb & Hsc & Hl & Hw & Hgo & Hlen
               & Hall)
             | (Hrun & Hc)]
    end.
    + left. exists g', r'.
      cbn [Game.player Game.bullets Game.score Game.lives Game.wave
           Game.game_over Player.reset Player.pos] in *.
      now repeat split.
    + right. split; [exact Hrun|exact Hc].
  - intros Hk.
    exact (spawn_wave_enough 1
             (Game.mk (Player.reset (Game.player g)) [] (Game.asteroids g)
                      0 LIVES_START 1 false) r Hk).
Qed.
End SamplingLoop.

(** ** The web build *)

Section WebBuild.
Context {FO : FloatOps}.
Variable RAND_MAX : Z.
Variable GetRandomValue : Z -> Z -> Rand Z.
Hypothesis GetRandomValue_returns :
  forall lo hi, returns (GetRandomValue lo hi) (fun _ => True).
Local Open Scope float_scope.

Lemma returns_RandomRange (a b : float) :
  returns (Web.RandomRange RAND_MAX a b) (fun _ => True).
Proof.
  intros r. unfold Web.RandomRange.
  eapply returns_at_bind; [apply returns_gen|].
  intros z r' Ht _. now apply returns_at_ret.
Qed.

Lemma returns_RandomAsteroidVelocity (size : Z) :
  returns (Web.RandomAsteroidVelocity RAND_MAX size) (fun _ => True).
Proof.
  intros r. unfold Web.RandomAsteroidVelocity.
  eapply returns_at_bind; [apply returns_RandomRange|].
  intros angle r1 Ht1 _.
  eapply returns_at_bind; [apply returns_RandomRange|].
  intros s r2 Ht2 _. now apply returns_at_ret.
Qed.

Lemma returns_web_shape_loop n i count radius_ pts :
  returns (Web.shape_loop RAND_MAX n i count radius_ pts) (fun _ => True).
Proof.
  revert i pts. induction n as [|n IH]; intros i pts r; cbn [Web.shape_loop].
  - now apply returns_at_ret.
  - eapply returns_at_bind; [apply returns_RandomRange|].
    intros u r1 Ht1 _. apply IH.
Qed.

(** The constructor of the web build takes any size: it never throws. *)
Lemma returns_NewAsteroid (p : Vector2) (s : Z) :
  returns (Web.NewAsteroid RAND_MAX GetRandomValue p s)
          (fun a => Asteroid.pos a = p /\ Asteroid.size a = s).
Proof.
  intros r. unfold Web.NewAsteroid.
  eapply returns_at_bind; [apply returns_RandomAsteroidVelocity|].
  intros v r1 Ht1 _.
  eapply returns_at_bind.
  - unfold Web.GenerateShape.
    eapply returns_at_bind; [apply GetRandomValue_returns|].
    intros count r2 Ht2 _. apply returns_web_shape_loop.
  - intros pts r2 Ht2 _. now apply returns_at_ret.
Qed.

Lemma returns_web_children_loop n a acc :
  returns (Web.children_loop RAND_MAX GetRandomValue n a acc)
    (fun l => exists kids, l = acc ++ kids /\ length kids = n
                           /\ Forall (fragment_of a) kids).
Proof.
  revert acc. induction n as [|n IH]; intros acc r; cbn [Web.children_loop].
  - apply returns_at_ret. exists []. rewrite app_nil_r. now repeat split.
  - eapply returns_at_bind; [apply returns_NewAsteroid|].
    intros c r1 Ht1 (Hpos & Hsize).
    eapply returns_at_weaken; [apply IH|].
    intros l (kids & -> & Hlen & Hall). exists (c :: kids).
    rewrite <- app_assoc. cbn [app length]. repeat split; auto.
    constructor; auto. now split.
Qed.

(** One round of the loop of [HandleCollisions] for an asteroid that a
    bullet overlaps. *)
Lemma web_resolve_asteroid_hit (a : Asteroid.t) (st : Web.pass) bs' :
  Game.first_hit a (Web.p_bullets st) = Some bs' ->
  returns (Web.resolve_asteroid RAND_MAX GetRandomValue a st)
    (fun st' =>
       Web.p_score st' = (Web.p_score st + 10 * Asteroid.size a)%Z
       /\ Web.p_bullets st' = bs'
       /\ exists kids,
            Web.newAsteroids st' = Web.newAsteroids st ++ kids
            /\ Forall (fragment_of a) kids
            /\ length kids
               = if (Asteroid.size a >? 1)%Z then 2%nat else 0%nat).
Proof.
  intros E r. unfold Web.resolve_asteroid. rewrite E.
  destruct (Asteroid.size a >? 1)%Z.
  - eapply returns_at_bind; [apply returns_web_children_loop|].
    intros l r1 Ht1 (kids & -> & Hlen & Hall).
    apply returns_at_ret. cbn. repeat split; auto. now exists kids.
  - eapply (returns_at_bind _ _ (fun l => l = Web.newAsteroids st));
      [now apply returns_at_ret|].
    intros l r1 Ht1 ->. apply returns_at_ret. cbn. repeat split; auto.
    exists []. rewrite app_nil_r. now repeat split.
Qed.

(** The loop of [HandleCollisions] when the only bullet overlaps every
    asteroid. *)
Lemma web_resolve_all_one_bullet (asts : list Asteroid.t) b b0 sc acc :
  b0 = b \/ b0 = Bullet.set_life (lit 0) b ->
  Forall (fun a => hits a b = true) asts ->
  returns (Web.resolve_all RAND_MAX GetRandomValue asts
             (Web.mkPass [b0] sc acc))
    (fun st' =>
       Web.p_score st' = (sc + points_for asts)%Z
       /\ Web.p_bullets st'
          = match asts with [] => [b0] | _ => [Bullet.set_life (lit 0) b] end
       /\ exists kids,
            Web.newAsteroids st' = acc ++ kids
            /\ length kids
               = (2 * length (filter (fun a => (Asteroid.size a >? 1)%Z)
                                     asts))%nat
            /\ Forall (fun k => exists parent,
                         In parent asts /\ fragment_of parent k) kids).
Proof.
  intros Hb0 Hall. revert b0 sc acc Hb0.
  induction Hall as [|a asts Ha _ IH]; intros b0 sc acc Hb0 r.
  - apply returns_at_ret.
    cbn [Web.p_score Web.p_bullets Web.newAsteroids points_for fold_right
         filter length Nat.mul].
    rewrite Z.add_0_r. repeat split.
    exists []. now rewrite app_nil_r.
  - cbn [Web.resolve_all].
    assert (Game.first_hit a [b0] = Some [Bullet.set_life (lit 0) b]) as E.
    { cbn [Game.first_hit]. fold (hits a b0).
      destruct Hb0 as [-> | ->]; [|rewrite hits_set_life]; now rewrite Ha. }
    eapply returns_at_bind;
      [apply (web_resolve_asteroid_hit a (Web.mkPass [b0] sc acc) _ E)|].
    cbn [Web.p_score Web.p_bullets Web.newAsteroids].
    intros st1 r1 Ht1 (Hsc & Hbs & kids1 & Hnew & Hfrag & Hlen).
    destruct st1 as [bs1 sc1 new1].
    cbn [Web.p_score Web.p_bullets Web.newAsteroids] in Hsc, Hbs, Hnew. subst.
    eapply returns_at_weaken;
      [apply (IH (Bullet.set_life (lit 0) b)); now right|].
    intros st' (Hsc' & Hbs' & kids & Hnew' & Hlen' & Hfrag').
    split; [|split].
    + rewrite Hsc'.
      change (points_for (a :: asts))
        with (10 * Asteroid.size a + points_for asts)%Z. lia.
    + rewrite Hbs'. now destruct asts.
    + exists (kids1 ++ kids). split; [now rewrite Hnew', app_assoc|]. split.
      * rewrite length_app, Hlen', Hlen. cbn [filter].
        destruct (Asteroid.size a >? 1)%Z; cbn [length]; lia.
      * apply Forall_app. split.
        -- eapply Forall_impl; [|exact Hfrag].
           intros k Hk. exists a. split; [now left|exact Hk].
        -- eapply Forall_impl; [|exact Hfrag'].
           intros k (parent & Hin & Hk). exists parent.
           split; [now right|exact Hk].
Qed.

(** [HandleCollisions] when the only bullet overlaps every asteroid of a
    list of two or more: the bullet is still in the list afterwards, with
    life 0 (the web build removes it in the next [Update]). *)
Lemma web_handle_collisions_one_bullet (g : Game.t) (b : Bullet.t) :
  Game.bullets g = [b] ->
  (2 <= length (Game.asteroids g))%nat ->
  Forall (fun a => hits a b = true) (Game.asteroids g) ->
  returns (Web.HandleCollisions RAND_MAX GetRandomValue g)
    (fun g' =>
       Game.score g' = (Game.score g + points_for (Game.asteroids g))%Z
       /\ Game.bullets g' = [Bullet.set_life (lit 0) b]
       /\ length (Game.asteroids g')
          = (2 * length (filter (fun a => (Asteroid.size a >? 1)%Z)
                                (Game.asteroids g)))%nat
       /\ Forall (fun k => exists parent,
                    In parent (Game.asteroids g)
                    /\ fragment_of parent k) (Game.asteroids g')).
Proof.
  intros Hb Hlen Hall r. unfold Web.HandleCollisions. rewrite Hb.
  eapply returns_at_bind;
    [apply (web_resolve_all_one_bullet _ b b); [now left|exact Hall]|].
  intros st r1 Ht1 (Hsc & Hbs & kids & Hnew & Hkl & Hkf).
  apply returns_at_ret.
  destruct (player_vs_asteroids_frame
              (Game.mk (Game.player g) (Web.p_bullets st)
                       (Web.newAsteroids st) (Web.p_score st) (Game.lives g)
                       (Game.wave g) (Game.game_over g)))
    as (-> & -> & -> & _).
  cbn [Game.asteroids Game.bullets Game.score].
  rewrite Hsc, Hbs, Hnew. cbn [app].
  destruct (Game.asteroids g) as [|a l]; [cbn in Hlen; lia|].
  now repeat split.
Qed.

(** Both builds end the collisions with the player pass, entered with the
    player and the lives the frame had before the collisions. *)
Lemma handle_collisions_player_pass (g : Game.t) r g' r' :
  Game.handle_collisions g r = Done (g', r') ->
  exists g1,
    g' = Game.player_vs_asteroids g1
    /\ Game.player g1 = Game.player g /\ Game.lives g1 = Game.lives g.
Proof.
  unfold Game.handle_collisions. intros H.
  apply bind_inv in H as (g1 & r1 & H1 & H). inversion H; subst.
  apply bullets_vs_asteroids_done in H1 as (Hp & _ & Hl & _).
  now exists g1.
Qed.

Lemma web_handle_collisions_player_pass (g : Game.t) r g' r' :
  Web.HandleCollisions RAND_MAX GetRandomValue g r = Done (g', r') ->
  exists g1,
    g' = Game.player_vs_asteroids g1
    /\ Game.player g1 = Game.player g /\ Game.lives g1 = Game.lives g.
Proof.
  unfold Web.HandleCollisions. intros H.
  apply bind_inv in H as (st & r1 & _ & H). inversion H; subst.
  eexists. split; [reflexivity|]. now split.
Qed.
End WebBuild.

(** ** The collisions: claims *)

Section Collisions.
Context {FO : FloatOps}.
Local Open Scope float_scope.

(** C1: while the invulnerability timer is positive the player pass of the
    collisions changes nothing, so no overlap costs a life.  When the timer
    is at or below zero and the player overlaps an asteroid, the pass takes
    exactly one life, puts the player back at the centre of the screen and
    sets the timer to 2.0.  In every case at most one life is lost.  Both
    [handle_collisions] of main.cpp and [HandleCollisions] of the web build
    end with this pass, entered with the player and the lives the frame
    had before the collisions. *)
Theorem C1_player_asteroid_pass (g : Game.t) :
  ((Player.invuln (Game.player g) >? lit 0) = true ->
     Game.player_vs_asteroids g = g)
  /\ ((Player.invuln (Game.player g) <=? lit 0) = true ->
      (exists a, In a (Game.asteroids g) /\
         circle_collision (Player.pos (Game.player g)) SHIP_RADIUS
                          (Asteroid.pos a) (Asteroid.radius a) = true) ->
      let g' := Game.player_vs_asteroids g in
      Game.lives g' = (Game.lives g - 1)%Z
      /\ Player.pos (Game.player g')
         = mkVector2 (of_int 900 / lit 2.0) (of_int 650 / lit 2.0)
      /\ Player.invuln (Game.player g') = lit 2.0
      /\ Game.player g' = Player.reset (Game.player g)
      /\ Game.game_over g'
         = (if (Game.lives g - 1 <=? 0)%Z then true else Game.game_over g)
      /\ Game.asteroids g' = Game.asteroids g
      /\ Game.bullets g' = Game.bullets g
      /\ Game.score g' = Game.score g
      /\ Game.wave g' = Game.wave g)
  /\ (Game.lives g - 1 <= Game.lives (Game.player_vs_asteroids g)
      <= Game.lives g)%Z
  /\ (forall r g' r',
        Game.handle_collisions g r = Done (g', r') ->
        exists g1, g' = Game.player_vs_asteroids g1
                   /\ Game.player g1 = Game.player g
                   /\ Game.lives g1 = Game.lives g)
  /\ (forall RAND_MAX GetRandomValue r g' r',
        Web.HandleCollisions RAND_MAX GetRandomValue g r = Done (g', r') ->
        exists g1, g' = Game.player_vs_asteroids g1
                   /\ Game.player g1 = Game.player g
                   /\ Game.lives g1 = Game.lives g).
Proof.
  split; [|split; [|split; [|split]]].
  - intros H. unfold Game.player_vs_asteroids. now rewrite (pos_not_le0 _ H).
  - intros Hi Hex. unfold Game.player_vs_asteroids. rewrite Hi.
    rewrite (player_loop_hit _ _ Hex). now repeat split.
  - destruct (player_vs_asteroids_cases g) as [-> | ->];
      cbn [Game.lose_life Game.lives]; lia.
  - intros r g' r'. apply handle_collisions_player_pass.
  - intros RAND_MAX GetRandomValue r g' r'.
    apply web_handle_collisions_player_pass.
Qed.

(** C2: when some bullet overlaps an asteroid, one round of the loop of
    [handle_collisions] gives the first overlapping bullet life 0 and
    leaves the other bullets alone (a bullet with life 0 is dropped by the
    removal that ends the pass), raises the score by 10 times the size,
    does not keep the asteroid, and adds exactly two fragments when the
    size is above 1 and none otherwise; each fragment is one size smaller
    and sits at the parent's position.  In main.cpp the round returns (the
    constructor does not throw) for the sizes 1 to 3; in the web build it
    returns whenever [GetRandomValue] does. *)
Theorem C2_asteroid_hit (a : Asteroid.t) (bs : list Bullet.t) :
  destroyed bs a = true ->
  exists pre b post,
    bs = pre ++ b :: post
    /\ hits a b = true
    /\ Forall (fun c => hits a c = false) pre
    /\ Game.remove_dead [Bullet.set_life (lit 0) b] = []
    /\ (forall score new_asteroids remaining_asteroids,
          valid_size (Asteroid.size a) ->
          returns (Game.resolve_asteroid a
                     (Game.mkPass bs score new_asteroids remaining_asteroids))
            (fun st' =>
               Game.p_score st' = (score + 10 * Asteroid.size a)%Z
               /\ Game.p_bullets st'
                  = pre ++ Bullet.set_life (lit 0) b :: post
               /\ Game.remaining_asteroids st' = remaining_asteroids
               /\ exists kids,
                    Game.new_asteroids st' = new_asteroids ++ kids
                    /\ Forall (fragment_of a) kids
                    /\ length kids
                       = if (Asteroid.size a >? 1)%Z then 2%nat else 0%nat))
    /\ (forall RAND_MAX GetRandomValue score newAsteroids,
          (forall lo hi, returns (GetRandomValue lo hi) (fun _ => True)) ->
          returns (Web.resolve_asteroid RAND_MAX GetRandomValue a
                     (Web.mkPass bs score newAsteroids))
            (fun st' =>
               Web.p_score st' = (score + 10 * Asteroid.size a)%Z
               /\ Web.p_bullets st'
                  = pre ++ Bullet.set_life (lit 0) b :: post
               /\ exists kids,
                    Web.newAsteroids st' = newAsteroids ++ kids
                    /\ Forall (fragment_of a) kids
                    /\ length kids
                       = if (Asteroid.size a >? 1)%Z then 2%nat else 0%nat)).
Proof.
  intros Hd. pose proof Hd as Hd'. rewrite first_hit_destroyed in Hd'.
  destruct (Game.first_hit a bs) as [bs'|] eqn:E; [clear Hd'|discriminate].
  destruct (first_hit_some _ _ _ E) as (pre & b & post & Hbs & Hbs' & Hb & Hpre).
  exists pre, b, post.
  split; [exact Hbs|]. split; [exact Hb|]. split; [exact Hpre|].
  split; [|split].
  - unfold Game.remove_dead. cbn [filter Bullet.set_life Bullet.life].
    now rewrite zero_le0.
  - intros score new_asts remaining Hv.
    destruct (resolve_asteroid_hit a
                (Game.mkPass bs score new_asts remaining) Hv Hd)
      as (pre' & b' & post' & Hbs1 & _ & _ & _ & Hret).
    intros r. eapply returns_at_weaken; [apply Hret|].
    cbn [Game.p_score Game.p_bullets Game.new_asteroids
         Game.remaining_asteroids] in *.
    intros st' (Hsc & Hbul & Hrem & Hkids).
    split; [exact Hsc|]. split; [|split; [exact Hrem|exact Hkids]].
    rewrite Hbul, <- Hbs'.
    pose proof (resolve_asteroid_bullets a
                  (Game.mkPass bs score new_asts remaining)) as Hx.
    destruct (Hret r) as (st1 & r1 & Hrun & _ & _ & Hbul1 & _).
    specialize (Hx r st1 r1 Hrun). cbn [Game.p_bullets] in Hx.
    rewrite E in Hx. congruence.
  - intros RAND_MAX GetRandomValue score newAsteroids Hgrv r.
    eapply returns_at_weaken;
      [apply (web_resolve_asteroid_hit RAND_MAX GetRandomValue Hgrv a
                (Web.mkPass bs score newAsteroids) bs' E)|].
    cbn [Web.p_score Web.p_bullets Web.newAsteroids].
    intros st' (Hsc & Hbul & Hkids). rewrite <- Hbs'. now repeat split.
Qed.

(** C10: a bullet is tested against every asteroid of the list, also after
    it has destroyed one and has life 0: the test reads the position of
    the bullet only, and the bullet stays in the list until the pass is
    over.  So when the only bullet overlaps every asteroid of a list of two
    or more, the pass destroys them all: the score rises by ten times the
    size of each, none of them is kept (only fragments are left, two for
    each asteroid above size 1).  main.cpp then removes the bullet; the web
    build leaves it in the list with life 0. *)
Theorem C10_one_bullet_many_asteroids (g : Game.t) (b : Bullet.t) :
  Game.bullets g = [b] ->
  (2 <= length (Game.asteroids g))%nat ->
  Forall (fun a => valid_size (Asteroid.size a) /\ hits a b = true)
         (Game.asteroids g) ->
  (forall a, hits a (Bullet.set_life (lit 0) b) = hits a b)
  /\ returns (Game.bullets_vs_asteroids g)
       (fun g' =>
          Game.score g' = (Game.score g + points_for (Game.asteroids g))%Z
          /\ Game.bullets g' = []
          /\ length (Game.asteroids g')
             = (2 * length (filter (fun a => (Asteroid.size a >? 1)%Z)
                                   (Game.asteroids g)))%nat
          /\ Forall (fun k => exists parent,
                       In parent (Game.asteroids g)
                       /\ fragment_of parent k) (Game.asteroids g'))
  /\ (forall RAND_MAX GetRandomValue,
        (forall lo hi, returns (GetRandomValue lo hi) (fun _ => True)) ->
        returns (Web.HandleCollisions RAND_MAX GetRandomValue g)
          (fun g' =>
             Game.score g' = (Game.score g + points_for (Game.asteroids g))%Z
             /\ Game.bullets g' = [Bullet.set_life (lit 0) b]
             /\ length (Game.asteroids g')
                = (2 * length (filter (fun a => (Asteroid.size a >? 1)%Z)
                                      (Game.asteroids g)))%nat
             /\ Forall (fun k => exists parent,
                          In parent (Game.asteroids g)
                          /\ fragment_of parent k) (Game.asteroids g'))).
Proof.
  intros Hb Hlen Hall. split; [reflexivity|]. split.
  - exact (bullets_vs_asteroids_one_bullet g b Hb Hlen Hall).
  - intros RAND_MAX GetRandomValue Hgrv.
    apply (web_handle_collisions_one_bullet RAND_MAX GetRandomValue Hgrv
             g b Hb Hlen).
    eapply Forall_impl; [|exact Hall]. now intros a [_ H].
Qed.
End Collisions.

Section RationalWave.
Variable m : Libm Q.
Local Open Scope Q_scope.

(** So in every run the ship is drawn at game over (dimmed: 20 is even). *)
Lemma game_over_ship_drawn (MeasureText : string -> Z -> Z)
      (g : @Game.t (QFloat m)) r :
  reachable g r -> Game.game_over g = true ->
  filter is_triangle (Game.draw MeasureText g) = Player.draw (Game.player g)
  /\ exists p1 p2 p3,
       Player.draw (Game.player g)
       = [DrawTriangle p1 p2 p3 (RGBA 255 255 255 80);
          DrawTriangleLines p1 p2 p3 SKYBLUE].
Proof.
  intros Hr Hg. pose proof (game_over_timer g r Hr Hg) as Ht.
  rewrite draw_triangles, Hg, Ht. split; [reflexivity|].
  unfold Player.draw. rewrite Ht. now eexists _, _, _.
Qed.
End RationalWave.

(** ** Comparisons on the reals *)

Section Real.
Local Open Scope R_scope.

Lemma Rltb_lt (a b : R) : Rltb a b = true <-> a < b.
Proof.
  unfold Rltb. destruct (Rlt_dec a b); split; intros; auto; discriminate.
Qed.

Lemma Rltb_ge (a b : R) : Rltb a b = false <-> b <= a.
Proof.
  unfold Rltb.
  destruct (Rlt_dec a b); split; intros; auto; try discriminate; Lra.lra.
Qed.

Lemma Q2R_0 : Q2R 0 = 0.
Proof. unfold Q2R. simpl. Lra.lra. Qed.

Lemma Q2R_inject_Z (z : Z) : Q2R (inject_Z z) = IZR z.
Proof. unfold Q2R. cbn [Qnum Qden inject_Z]. rewrite Rinv_1. lra. Qed.

End Real.

(** ** Wrapping around the screen *)

Section RoundedWrap.
Local Open Scope R_scope.

Lemma Int_part_mono (a b : R) : a <= b -> (Int_part a <= Int_part b)%Z.
Proof.
  intros H.
  destruct (base_Int_part a) as (Ha1 & Ha2).
  destruct (base_Int_part b) as (Hb1 & Hb2).
  apply Z.lt_succ_r. apply lt_IZR. rewrite succ_IZR. lra.
Qed.

Lemma Int_part_IZR (z : Z) : Int_part (IZR z) = z.
Proof.
  destruct (base_Int_part (IZR z)) as (H1 & H2).
  apply Z.le_antisymm.
  - apply le_IZR. exact H1.
  - apply Z.lt_succ_r. apply lt_IZR. rewrite succ_IZR. lra.
Qed.

Lemma eighths_keeps_screen : keeps_screen eighths.
Proof.
  unfold keeps_screen, eighths. split; [|split; [|split]].
  - intros a b H.
    assert (Int_part (a * 8) <= Int_part (b * 8))%Z as Hz
      by (apply Int_part_mono; lra).
    apply IZR_le in Hz. lra.
  - replace (0 * 8) with (IZR 0) by lra. rewrite Int_part_IZR. lra.
  - replace (650 * 8) with (IZR 5200) by lra. rewrite Int_part_IZR. lra.
  - replace (900 * 8) with (IZR 7200) by lra. rewrite Int_part_IZR. lra.
Qed.

Lemma wrap_rounded (rnd : R -> R) (p : @Vector2 (Rounded rnd)) :
  keeps_screen rnd ->
  -900 <= x p < 1800 -> -650 <= y p < 1300 ->
  0 <= x (wrap_position p) <= 900 /\ 0 <= y (wrap_position p) <= 650.
Proof.
  intros (Hm & H0 & H650 & H900) Hx Hy.
  unfold wrap_position, of_int, SCREEN_WIDTH, SCREEN_HEIGHT.
  cbn [x y fltb fadd fsub lit Rounded].
  rewrite !Q2R_inject_Z, Q2R_0, H0, H650, H900.
  split.
  - destruct (Rltb (x p) 0) eqn:E1.
    + apply Rltb_lt in E1.
      pose proof (Hm 0 (x p + 900) ltac:(lra)).
      pose proof (Hm (x p + 900) 900 ltac:(lra)). lra.
    + apply Rltb_ge in E1. destruct (Rltb 900 (x p)) eqn:E2.
      * apply Rltb_lt in E2.
        pose proof (Hm 0 (x p - 900) ltac:(lra)).
        pose proof (Hm (x p - 900) 900 ltac:(lra)). lra.
      * apply Rltb_ge in E2. lra.
  - destruct (Rltb (y p) 0) eqn:E1.
    + apply Rltb_lt in E1.
      pose proof (Hm 0 (y p + 650) ltac:(lra)).
      pose proof (Hm (y p + 650) 650 ltac:(lra)). lra.
    + apply Rltb_ge in E1. destruct (Rltb 650 (y p)) eqn:E2.
      * apply Rltb_lt in E2.
        pose proof (Hm 0 (y p - 650) ltac:(lra)).
        pose proof (Hm (y p - 650) 650 ltac:(lra)). lra.
      * apply Rltb_ge in E2. lra.
Qed.
End RoundedWrap.

Section Wrap.
Local Open Scope float_scope.

(** C5 (as the code has it).  In every float arithmetic, binary32
    included, a position for which none of the four tests of
    [wrap_position] fires is returned as it is: the screen with its four
    edges, a coordinate equal to the extent included, since the tests are
    [< 0] and [> extent].  A position at most one screen away from the
    screen is wrapped into the screen with its right and bottom edges: on
    the reals with any rounding that keeps the order and the numbers 0,
    650 and 900, as the rounding of binary32 does, and in exact arithmetic
    on the rationals.  [WrapPosition] of the web build is the same
    function. *)
Theorem C5_wrap_position :
  (forall (FO : FloatOps) (p : Vector2),
     (x p <? lit 0) = false -> (x p >? of_int SCREEN_WIDTH) = false ->
     (y p <? lit 0) = false -> (y p >? of_int SCREEN_HEIGHT) = false ->
     wrap_position p = p)
  /\ (forall (rnd : R -> R) (p : @Vector2 (Rounded rnd)),
        keeps_screen rnd ->
        (-900 <= x p < 1800)%R -> (-650 <= y p < 1300)%R ->
        (0 <= x (wrap_position p) <= 900)%R
        /\ (0 <= y (wrap_position p) <= 650)%R)
  /\ (forall (m : Libm Q) (p : @Vector2 (QFloat m)),
        within_one_extent p ->
        in_closed_screen (wrap_position p)
        /\ (in_closed_screen p -> wrap_position p = p)).
Proof.
  split; [|split].
  - intros FO p H1 H2 H3 H4. unfold wrap_position.
    rewrite H1, H2, H3, H4. apply vector_eta.
  - exact wrap_rounded.
  - intros m p [[Hx1 Hx2] [Hy1 Hy2]].
    destruct (wrap_position_coordinates m p) as [Ex Ey].
    destruct (wrap1_spec 900 (x p) SCREEN_WIDTH eq_refl)
      as (Hxa & Hxc); [Lqa.lra|Lqa.lra|Lqa.lra|].
    destruct (wrap1_spec 650 (y p) SCREEN_HEIGHT eq_refl)
      as (Hya & Hyc); [Lqa.lra|Lqa.lra|Lqa.lra|].
    unfold in_closed_screen. rewrite Ex, Ey.
    split; [now split|].
    intros [[H1 H2] [H3 H4]].
    rewrite <- (vector_eta p) at 2.
    rewrite <- (vector_eta (wrap_position p)).
    rewrite Ex, Ey, (Hxc H1 H2), (Hyc H3 H4). reflexivity.
Qed.
End Wrap.

(** ** The clamp of a length *)

Section Clamp.
Context {FO : FloatOps}.
Local Open Scope float_scope.

End Clamp.

(** ** Runs, concrete states, witnesses *)

Section Runs.
Context {FO : FloatOps}.

Lemma run_frames_reachable fuel frames (g : Game.t) r g' r' :
  reachable g r -> run_frames fuel frames g r = Done (g', r') ->
  reachable g' r'.
Proof.
  revert g r. induction frames as [|[inp dt] frames IH]; intros g r Hr H.
  - inversion H; subst. exact Hr.
  - cbn [run_frames] in H. apply bind_inv in H as (g1 & r1 & H1 & H).
    eapply IH; [|exact H]. eapply reach_update; eauto.
Qed.

Lemma play_reachable fuel frames r0 (g : Game.t) r :
  play fuel frames r0 = Done (g, r) -> reachable g r.
Proof.
  unfold play. intros H. apply bind_inv in H as (g0 & r1 & H0 & H).
  eapply run_frames_reachable; [|exact H]. eapply reach_new; eauto.
Qed.
End Runs.

Section ConcreteFacts.
Local Existing Instance QF.
Local Open Scope Q_scope.

(** The script runs to its end. *)
Lemma script_play :
  play 1 script (mkRng script_tape 0)
  = Done (script_end, mkRng script_tape script_end_cursor).
Proof.
  vm_cast_no_check
    (eq_refl (Done (script_end, mkRng script_tape script_end_cursor))).
Qed.

(** And the restart after it. *)
Lemma script_restart :
  Game.update 1 enter 0 script_end (mkRng script_tape script_end_cursor)
  = Done (restarted, mkRng script_tape restarted_cursor).
Proof.
  vm_cast_no_check
    (eq_refl (Done (restarted, mkRng script_tape restarted_cursor))).
Qed.

Lemma script_end_reachable :
  reachable script_end (mkRng script_tape script_end_cursor).
Proof. exact (play_reachable _ _ _ _ _ script_play). Qed.

(** C1 at two states: a Large asteroid sits on the ship; with the timer at
    2.0 nothing happens, with the timer at 0 a life is lost. *)
Lemma C1_witness :
  Game.player_vs_asteroids shielded = shielded
  /\ Game.lives (Game.player_vs_asteroids exposed) = 2%Z
  /\ Player.pos (Game.player (Game.player_vs_asteroids exposed))
     = mkVector2 450 325
  /\ Player.invuln (Game.player (Game.player_vs_asteroids exposed)) = 2.
Proof.
  destruct (C1_player_asteroid_pass shielded) as (H1 & _ & _).
  destruct (C1_player_asteroid_pass exposed) as (_ & H2 & _).
  split; [apply H1; reflexivity|].
  destruct H2 as (Ha & Hb & Hc & _).
  - reflexivity.
  - exists rock_on_player. split; [left; reflexivity|reflexivity].
  - split; [exact Ha|]. split; [exact Hb|exact Hc].
Defined.

(** C2 at a Large asteroid with a bullet on it: 30 points, two fragments,
    in main.cpp and in the web build (with [GetRandomValue] drawing from
    the tape and glibc's [RAND_MAX]). *)
Lemma C2_witness :
  (exists st' r',
     Game.resolve_asteroid rock (Game.mkPass [shot] 0 [] [])
                           (mkRng zero_tape 0) = Done (st', r')
     /\ Game.p_score st' = 30%Z
     /\ Game.remaining_asteroids st' = []
     /\ length (Game.new_asteroids st') = 2%nat
     /\ Forall (fragment_of rock) (Game.new_asteroids st'))
  /\ (exists st' r',
        Web.resolve_asteroid 2147483647 uniform_int rock
                             (Web.mkPass [shot] 0 []) (mkRng zero_tape 0)
        = Done (st', r')
        /\ Web.p_score st' = 30%Z
        /\ length (Web.newAsteroids st') = 2%nat
        /\ Forall (fragment_of rock) (Web.newAsteroids st')).
Proof.
  destruct (C2_asteroid_hit rock [shot] eq_refl)
    as (pre & b & post & _ & _ & _ & _ & Hmain & Hweb).
  split.
  - assert (valid_size (Asteroid.size rock)) as Hv
      by (unfold valid_size; cbn; lia).
    destruct (Hmain 0%Z [] [] Hv (mkRng zero_tape 0))
      as (st' & r' & Hrun & _ & Hsc & _ & Hrem & kids & Hnew & Hfrag & Hlen).
    exists st', r'. split; [exact Hrun|]. split; [exact Hsc|].
    split; [exact Hrem|]. rewrite Hnew. split; [exact Hlen|exact Hfrag].
  - destruct (Hweb 2147483647%Z uniform_int 0%Z [] returns_uniform_int_any
                (mkRng zero_tape 0))
      as (st' & r' & Hrun & _ & Hsc & _ & kids & Hnew & Hfrag & Hlen).
    exists st', r'. split; [exact Hrun|]. split; [exact Hsc|].
    rewrite Hnew. split; [exact Hlen|exact Hfrag].
Defined.

(** On [centre_first_tape] every sample made at the cursor 2 or later is
    the corner of the screen, 555 from the centre. *)
Lemma centre_first_accepted c :
  rejected Player.center centre_first_tape (c + 2 * 1) = false.
Proof.
  unfold rejected, sample_at, centre_first_tape.
  replace (c + 2 * 1)%nat with (S (S c)) by lia.
  reflexivity.
Qed.

Lemma centre_first_never_two c :
  ~ all_rejected Player.center centre_first_tape c 2.
Proof.
  intros H. specialize (H 1%nat ltac:(lia)).
  rewrite centre_first_accepted in H. discriminate.
Qed.

Lemma centre_first_keeps : keeps_accepting Player.center centre_first_tape.
Proof. intros c. exists 1%nat. apply centre_first_accepted. Qed.



(** C4 at a game that is over, without and with ENTER, on the same tape. *)
Lemma C4_witness :
  @Game.update QF 2 idle 0 over_unshielded (mkRng centre_first_tape 0)
  = Done (over_unshielded, mkRng centre_first_tape 0)
  /\ (exists g' r',
        @Game.update QF 2 enter 0 over_unshielded (mkRng centre_first_tape 0)
        = Done (g', r')
        /\ Game.score g' = 0%Z /\ Game.lives g' = 3%Z /\ Game.wave g' = 1%Z
        /\ Game.bullets g' = [] /\ Game.game_over g' = false
        /\ length (Game.asteroids g') = 4%nat)
  /\ exists fuel0,
       forall fuel, (fuel0 <= fuel)%nat ->
         exists g' r',
           @Game.update QF fuel enter 0 over_unshielded
             (mkRng centre_first_tape 0) = Done (g', r').
Proof.
  split.
  - destruct (@C4_game_over_freeze QF 2 idle 0 over_unshielded
                (mkRng centre_first_tape 0) eq_refl) as (H & _).
    exact (H eq_refl).
  - destruct (@C4_game_over_freeze QF 2 enter 0 over_unshielded
                (mkRng centre_first_tape 0) eq_refl) as (_ & H).
    destruct (H eq_refl)
      as (_ & [(g' & r' & Hu & _ & Ha & Hb & Hc & Hd & He & _ & Hf & _)
              | (_ & c & Hc)] & Hen).
    + split; [|exact (Hen centre_first_keeps)].
      exists g', r'. now repeat split.
    + exfalso. exact (centre_first_never_two c Hc).
Defined.

(** C5 as the claim states it fails on the right edge: x = 900 is left
    where it is, outside the half-open screen. *)
Lemma C5_right_edge_counterexample :
  exists p : @Vector2 (QFloat Qlibm),
    within_one_extent p
    /\ in_closed_screen p
    /\ wrap_position p = p
    /\ x (wrap_position p) == 900
    /\ ~ in_screen (wrap_position p).
Proof.
  exists (@mkVector2 (QFloat Qlibm) 900 0).
  split; [unfold within_one_extent; cbn [x y]; repeat split; Lqa.lra|].
  split; [unfold in_closed_screen; cbn [x y]; repeat split; Lqa.lra|].
  split; [reflexivity|]. split; [reflexivity|].
  unfold in_screen. cbn. intros [[_ H] _]. Lqa.lra.
Qed.

(** The counters along the script, and after the restart that follows it. *)
Lemma script_trace :
  trace 1 (script ++ [(enter, 0)]) (mkRng script_tape 0)
  = Some [(0, 3, 1, false); (0, 3, 1, false); (120, 3, 1, false);
          (120, 3, 1, false); (280, 3, 1, false); (280, 3, 1, false);
          (440, 3, 2, false); (440, 2, 2, false); (440, 2, 2, false);
          (440, 1, 2, false); (440, 1, 2, false); (440, 0, 2, true);
          (0, 3, 1, false)]%Z.
Proof. vm_compute. reflexivity. Qed.

(** C6 as the claim states it fails at the restart: the script ends at game
    over with score 440, wave 2 and no lives; the next frame, with ENTER
    pressed, has score 0, wave 1 and three lives. *)
Lemma C6_restart_counterexample :
  exists g r g' r',
    reachable g r
    /\ Game.update 1 enter 0 g r = Done (g', r')
    /\ (Game.score g' < Game.score g)%Z
    /\ (Game.wave g' < Game.wave g)%Z
    /\ (Game.lives g < Game.lives g')%Z.
Proof.
  exists script_end, (mkRng script_tape script_end_cursor),
         restarted, (mkRng script_tape restarted_cursor).
  split; [exact script_end_reachable|]. split; [exact script_restart|].
  repeat split.
Qed.

(** C6 at the end of the script. *)
Lemma C6_witness :
  (0 <= Game.lives script_end <= 3)%Z
  /\ (Game.lives script_end = 0%Z <-> Game.game_over script_end = true)
  /\ (0 <= Game.score script_end)%Z
  /\ (1 <= Game.wave script_end)%Z.
Proof.
  destruct (C6_counters script_end (mkRng script_tape script_end_cursor)
              script_end_reachable) as (H1 & H2 & H3 & H4 & _).
  split; [exact H1|]. split; [exact H2|]. split; [exact H3|exact H4].
Defined.

(** C7 at a player who has just fired and at one who can fire. *)
Lemma C7_witness :
  Player.shoot cooling = (None, cooling)
  /\ (exists b, fst (Player.shoot ready) = Some b)
  /\ Player.cooldown (snd (Player.shoot ready)) = lit 0.18
  /\ Player.CanShoot cooling = false
  /\ Player.CanShoot ready = true.
Proof.
  destruct (C7_fire_cooldown cooling) as (H1 & _ & H3 & _).
  destruct (C7_fire_cooldown ready) as (_ & H2 & _ & H4).
  destruct (H2 eq_refl) as (b & Hb & _).
  split; [exact (H1 eq_refl)|].
  split; [exists b; rewrite Hb; reflexivity|].
  split; [rewrite Hb; reflexivity|]. split; [exact (H3 eq_refl)|].
  exact (proj1 (H4 eq_refl)).
Defined.

(** C9 at a game that is over: with the timer at 0 no triangle is drawn,
    with the timer at 2.0 the ship is. *)
Lemma C9_witness :
  filter is_triangle (Game.draw no_text over_unshielded) = []
  /\ filter is_triangle (Game.draw no_text script_end)
     = Player.draw (Game.player script_end).
Proof.
  destruct (C9_game_over_draw no_text over_unshielded eq_refl) as (H1 & _).
  destruct (C9_game_over_draw no_text script_end eq_refl) as (_ & H2).
  split; [exact (proj1 (H1 eq_refl))|exact (proj1 (H2 eq_refl))].
Defined.

(** C9 as the claim states it fails in a run: the script ends at game over
    with the timer at 2.0 (the player was reset by the hit that ended the
    game, and the timer no longer runs), and [draw] emits the two triangle
    commands of the ship. *)
Lemma C9_drawn_at_game_over_counterexample :
  exists g r,
    reachable g r
    /\ Game.game_over g = true
    /\ filter is_triangle (Game.draw no_text g) = Player.draw (Game.player g)
    /\ length (filter is_triangle (Game.draw no_text g)) = 2%nat.
Proof.
  exists script_end, (mkRng script_tape script_end_cursor).
  split; [exact script_end_reachable|]. split; [reflexivity|].
  rewrite draw_triangles. split; reflexivity.
Qed.

(** C10 at one bullet over a Large and a Medium asteroid: 50 points, four
    fragments; no bullet left in main.cpp, the bullet left with life 0 in
    the web build. *)
Lemma C10_witness :
  returns (Game.bullets_vs_asteroids crowded)
    (fun g' =>
       Game.score g' = 50%Z /\ Game.bullets g' = []
       /\ length (Game.asteroids g') = 4%nat)
  /\ returns (Web.HandleCollisions 2147483647 uniform_int crowded)
       (fun g' =>
          Game.score g' = 50%Z
          /\ Game.bullets g' = [Bullet.set_life 0 shot]
          /\ length (Game.asteroids g') = 4%nat).
Proof.
  destruct (C10_one_bullet_many_asteroids crowded shot) as (_ & H & Hweb).
  - reflexivity.
  - cbn. lia.
  - repeat constructor; unfold valid_size; cbn; lia.
  - split.
    + intros r. eapply returns_at_weaken; [exact (H r)|].
      intros g' (Ha & Hb & Hc & _). now repeat split.
    + intros r.
      eapply returns_at_weaken;
        [exact (Hweb 2147483647%Z uniform_int returns_uniform_int_any r)|].
      intros g' (Ha & Hb & Hc & _). now repeat split.
Defined.
End ConcreteFacts.

(** ** The code in binary32 *)

Section Binary32Facts.
Local Existing Instance B32.


(** In binary32 the right edge is also where a coordinate just below 0
    lands: -0.00001 + 900 rounds to 900. *)
Lemma wrap_position_binary32_edge :
  x (wrap_position (mkVector2 (lit (-0.00001)) (lit 0))) = lit 900.
Proof. vm_compute. reflexivity. Qed.

(** In binary32 the sum of the squares of the zero vector is 0, whatever
    the literals and libm: [VecClampLength] returns the zero vector for
    any bound, NaN included. *)
Lemma VecClampLength_zero_binary32 lit32 (H0 : lit32 0%Q = S754_zero false)
      libm32 (max_len : spec_float) :
  @VecClampLength (Binary32 lit32 H0 libm32)
    (@mkVector2 (Binary32 lit32 H0 libm32) (lit32 0%Q) (lit32 0%Q)) max_len
  = @mkVector2 (Binary32 lit32 H0 libm32) (lit32 0%Q) (lit32 0%Q).
Proof.
  assert (SFltb (lit32 0%Q)
            (SFsqrt 24 128
               (SFadd 24 128 (SFmul 24 128 (lit32 0%Q) (lit32 0%Q))
                      (SFmul 24 128 (lit32 0%Q) (lit32 0%Q)))) = false) as E
    by (rewrite H0; reflexivity).
  unfold VecClampLength, VecLen.
  cbn [x y fltb fmul fadd fsqrt lit Binary32].
  rewrite E. now rewrite andb_false_r.
Qed.

(** C5 at the right edge in binary32; at a position left of and below the
    screen with every number rounded down to a multiple of 1/8; and at
    such a position in exact arithmetic. *)
Lemma C5_witness :
  wrap_position (@mkVector2 B32 (lit 900) (lit 0))
  = @mkVector2 B32 (lit 900) (lit 0)
  /\ (0 <= x (wrap_position
                (@mkVector2 (Rounded eighths) (- (103 / 10))%R 700%R))
       <= 900)%R
  /\ in_closed_screen
       (wrap_position (@mkVector2 (QFloat Qlibm) (-10)%Q 700%Q)).
Proof.
  destruct C5_wrap_position as (H1 & H2 & H3).
  split; [|split].
  - apply (H1 B32); vm_compute; reflexivity.
  - refine (proj1 (H2 eighths
                     (@mkVector2 (Rounded eighths) (- (103 / 10))%R 700%R)
                     eighths_keeps_screen _ _)); cbn [x y]; Lra.lra.
  - apply (H3 Qlibm).
    unfold within_one_extent. cbn [x y]. repeat split; Lqa.lra.
Defined.


End Binary32Facts.

(** * Further properties of the code *)

(** ** The list of bullets across frames *)

Section BulletList.
Context {FO : FloatOps}.
Local Open Scope float_scope.

Lemma remove_dead_alive (bs : list Bullet.t) :
  Forall (fun b => (Bullet.life b <=? lit 0) = false) (Game.remove_dead bs).
Proof.
  unfold Game.remove_dead. apply Forall_forall. intros b Hb.
  apply filter_In in Hb. destruct Hb as [_ Hb]. now apply negb_true_iff in Hb.
Qed.

Lemma remove_dead_length (bs : list Bullet.t) :
  (length (Game.remove_dead bs) <= length bs)%nat.
Proof. unfold Game.remove_dead. apply filter_length_le. Qed.

Lemma Forall2_marked_length (bs bs' : list Bullet.t) :
  Forall2 marked bs bs' -> length bs' = length bs.
Proof. induction 1; cbn; congruence. Qed.

Lemma resolve_all_marked asts (st : Game.pass) r st' r' :
  Game.resolve_all asts st r = Done (st', r') ->
  Forall2 marked (Game.p_bullets st) (Game.p_bullets st').
Proof.
  revert st r. induction asts as [|a rest IH]; intros st r H; cbn in H.
  - inversion H; subst. apply marked_refl.
  - apply bind_inv in H as (st1 & r1 & H1 & H).
    eapply marked_trans; [|eapply IH; eauto].
    rewrite (resolve_asteroid_bullets _ _ _ _ _ H1).
    destruct (Game.first_hit a (Game.p_bullets st)) as [bs'|] eqn:E.
    + eapply first_hit_marked; eauto.
    + apply marked_refl.
Qed.

Lemma bullets_vs_asteroids_bullets (g : Game.t) r g' r' :
  Game.bullets_vs_asteroids g r = Done (g', r') ->
  exists bs', Game.bullets g' = Game.remove_dead bs'
              /\ length bs' = length (Game.bullets g).
Proof.
  unfold Game.bullets_vs_asteroids. intros H.
  apply bind_inv in H as (st & r1 & H1 & H). inversion H; subst.
  exists (Game.p_bullets st). split; [reflexivity|].
  apply Forall2_marked_length. exact (resolve_all_marked _ _ _ _ _ H1).
Qed.

Lemma handle_collisions_bullets (g : Game.t) r g' r' :
  Game.handle_collisions g r = Done (g', r') ->
  exists bs', Game.bullets g' = Game.remove_dead bs'
              /\ length bs' = length (Game.bullets g).
Proof.
  unfold Game.handle_collisions. intros H.
  apply bind_inv in H as (g0 & r0 & H0 & H). inversion H; subst.
  destruct (player_vs_asteroids_frame g0) as (_ & -> & _).
  eapply bullets_vs_asteroids_bullets; eauto.
Qed.

Lemma advance_bullets inp dt (g : Game.t) r g1 r1 :
  Game.advance inp dt g r = Done (g1, r1) ->
  Forall (fun b => (Bullet.life b <=? lit 0) = false) (Game.bullets g1)
  /\ (length (Game.bullets g1) <= length (Game.bullets g) + 1)%nat
  /\ (down_SPACE inp || pressed_MOUSE0 inp = false ->
      (length (Game.bullets g1) <= length (Game.bullets g))%nat)
  /\ ((Player.cooldown (Player.update inp dt (Game.player g)) <=? lit 0)
      = false ->
      (length (Game.bullets g1) <= length (Game.bullets g))%nat).
Proof.
  unfold Game.advance.
  set (fired := if down_SPACE inp || pressed_MOUSE0 inp then _ else _).
  assert ((length (snd fired) <= length (Game.bullets g) + 1)%nat
          /\ (down_SPACE inp || pressed_MOUSE0 inp = false ->
              snd fired = Game.bullets g)
          /\ ((Player.cooldown (Player.update inp dt (Game.player g))
               <=? lit 0) = false -> snd fired = Game.bullets g))
    as (Hlen & Hidle & Hcool).
  { subst fired. destruct (down_SPACE inp || pressed_MOUSE0 inp).
    - unfold Player.shoot.
      destruct (Player.cooldown (Player.update inp dt (Game.player g))
                <=? lit 0); cbn [snd].
      + rewrite length_app. cbn. split; [lia|]. split; discriminate.
      + split; [lia|]. split; [discriminate|reflexivity].
    - cbn [snd]. split; [lia|]. split; reflexivity. }
  destruct fired as [player2 bullets1]. cbn [snd] in *.
  intros H. apply handle_collisions_bullets in H as (bs' & -> & Hbs).
  cbn [Game.bullets] in Hbs.
  pose proof (remove_dead_length bs').
  pose proof (remove_dead_length (map (Bullet.update dt) bullets1)) as Hm.
  rewrite length_map in Hm.
  split; [apply remove_dead_alive|].
  split; [lia|].
  split; intros E; [rewrite (Hidle E) in *|rewrite (Hcool E) in *]; lia.
Qed.

Lemma next_wave_bullets fuel (g : Game.t) r g' r' :
  Game.next_wave fuel g r = Done (g', r') ->
  Game.bullets g' = Game.bullets g.
Proof.
  unfold Game.next_wave. destruct (Game.asteroids g).
  - intros H. now apply spawn_wave_done in H as (_ & Hb & _).
  - intros H. now inversion H.
Qed.

(** X13: in the desktop build no bullet whose life has run out, or that has hit
    an asteroid, is left in the list when a frame ends. *)
Theorem bullets_alive_between_frames (g : Game.t) r :
  reachable g r ->
  Forall (fun b => (Bullet.life b <=? lit 0) = false) (Game.bullets g).
Proof.
  induction 1 as [fuel r0 g r H | fuel inp dt g r g' r' _ IH H].
  - unfold Game.new in H. apply spawn_wave_done in H as (_ & -> & _).
    constructor.
  - unfold Game.update in H. destruct (Game.game_over g).
    + destruct (pressed_ENTER inp).
      * unfold Game.reset in H. apply spawn_wave_done in H as (_ & -> & _).
        constructor.
      * now inversion H; subst.
    + apply bind_inv in H as (g1 & r1 & H1 & H).
      rewrite (next_wave_bullets _ _ _ _ _ H).
      now apply advance_bullets in H1.
Qed.

(** X14: a call of [update] adds at most one bullet to the list, and none when
    neither SPACE is down nor the mouse button pressed, or when the cooldown
    is still running after the player's update. *)
Theorem one_bullet_per_frame fuel inp dt (g : Game.t) r g' r' :
  Game.update fuel inp dt g r = Done (g', r') ->
  (length (Game.bullets g') <= length (Game.bullets g) + 1)%nat
  /\ (down_SPACE inp || pressed_MOUSE0 inp = false ->
      (length (Game.bullets g') <= length (Game.bullets g))%nat)
  /\ ((Player.cooldown (Player.update inp dt (Game.player g)) <=? lit 0)
      = false ->
      (length (Game.bullets g') <= length (Game.bullets g))%nat).
Proof.
  unfold Game.update. destruct (Game.game_over g).
  - destruct (pressed_ENTER inp).
    + unfold Game.reset. intros H.
      apply spawn_wave_done in H as (_ & -> & _). cbn. repeat split; lia.
    + intros H. inversion H; subst. repeat split; lia.
  - intros H. apply bind_inv in H as (g1 & r1 & H1 & H).
    rewrite (next_wave_bullets _ _ _ _ _ H).
    apply advance_bullets in H1 as (_ & Ha & Hb & Hc). auto.
Qed.
End BulletList.

(** ** What a frame never does *)

Section NoThrow.
Context {FO : FloatOps}.
Local Open Scope float_scope.

Lemma sample_position_cases fuel ppos r :
  Game.sample_position fuel ppos r = Diverge
  \/ exists p r', Game.sample_position fuel ppos r = Done (p, r').
Proof.
  revert r. induction fuel as [|fuel IH]; intros r; [now left|].
  cbn [Game.sample_position].
  destruct (returns_uniform_real (lit 0.0) (of_int SCREEN_WIDTH) r)
    as (px & r1 & H1 & _).
  rewrite (bind_done _ _ _ _ _ H1).
  destruct (returns_uniform_real (lit 0.0) (of_int SCREEN_HEIGHT) r1)
    as (py & r2 & H2 & _).
  rewrite (bind_done _ _ _ _ _ H2).
  destruct (negb _); [right; now eexists _, _|apply IH].
Qed.

Lemma spawn_loop_cases fuel n ppos acc r :
  Game.spawn_loop fuel n ppos acc r = Diverge
  \/ exists l r', Game.spawn_loop fuel n ppos acc r = Done (l, r').
Proof.
  revert acc r. induction n as [|n IH]; intros acc r.
  - right. now eexists _, _.
  - cbn [Game.spawn_loop].
    destruct (sample_position_cases fuel ppos r) as [H | (p & r1 & H)].
    + left. unfold bind. now rewrite H.
    + rewrite (bind_done _ _ _ _ _ H).
      assert (valid_size 3) as Hv by (unfold valid_size; lia).
      destruct (returns_asteroid_new p 3 Hv r1) as (a & r2 & Ha & _).
      rewrite (bind_done _ _ _ _ _ Ha). apply IH.
Qed.

Lemma spawn_wave_cases fuel wave_num (g : Game.t) r :
  Game.spawn_wave fuel wave_num g r = Diverge
  \/ exists g' r', Game.spawn_wave fuel wave_num g r = Done (g', r').
Proof.
  unfold Game.spawn_wave.
  destruct (spawn_loop_cases fuel (Z.to_nat (3 + wave_num))
              (Player.pos (Game.player g)) [] r) as [H | (l & r1 & H)].
  - left. unfold bind. now rewrite H.
  - right. rewrite (bind_done _ _ _ _ _ H). now eexists _, _.
Qed.

Lemma update_cases fuel inp dt (g : Game.t) r :
  game_inv g ->
  Game.update fuel inp dt g r = Diverge
  \/ exists g' r', Game.update fuel inp dt g r = Done (g', r').
Proof.
  intros (Hv & _).
  unfold Game.update. destruct (Game.game_over g).
  - destruct (pressed_ENTER inp).
    + apply spawn_wave_cases.
    + right. now eexists _, _.
  - destruct (advance_inv inp dt g Hv r) as (g1 & r1 & H1 & _).
    rewrite (bind_done _ _ _ _ _ H1).
    unfold Game.next_wave. destruct (Game.asteroids g1).
    + apply spawn_wave_cases.
    + right. now eexists _, _.
Qed.

(** X20: when a frame ends there is an asteroid on the field: an empty field is
    refilled by [spawn_wave] before [update] returns. *)
Theorem asteroids_never_empty (g : Game.t) r :
  reachable g r -> exists a l, Game.asteroids g = a :: l.
Proof.
  assert (forall l : list Asteroid.t, (1 <= length l)%nat ->
            exists a l', l = a :: l') as Hne.
  { intros [|a l'] H; [cbn in H; lia|now exists a, l']. }
  induction 1 as [fuel r0 g r H | fuel inp dt g r g' r' Hr IH H].
  - unfold Game.new in H.
    apply spawn_wave_done in H as (_ & _ & _ & _ & _ & _ & Hlen & _).
    apply Hne. rewrite Hlen. cbn. lia.
  - apply reachable_inv in Hr. destruct Hr as (_ & _ & Hw & _).
    unfold Game.update in H. destruct (Game.game_over g).
    + destruct (pressed_ENTER inp).
      * unfold Game.reset in H.
        apply spawn_wave_done in H as (_ & _ & _ & _ & _ & _ & Hlen & _).
        apply Hne. rewrite Hlen. cbn. lia.
      * now inversion H; subst.
    + apply bind_inv in H as (g1 & r1 & H1 & H).
      apply advance_done_wave in H1.
      unfold Game.next_wave in H.
      destruct (Game.asteroids g1) as [|a l] eqn:Ea.
      * apply spawn_wave_done in H as (_ & _ & _ & _ & _ & _ & Hlen & _).
        apply Hne. rewrite Hlen. lia.
      * inversion H; subst. now exists a, l.
Qed.
End NoThrow.

(** ** The pass of the bullets when nothing is hit *)

Section NoHit.
Context {FO : FloatOps}.
Local Open Scope float_scope.

Lemma first_hit_none (a : Asteroid.t) bs :
  destroyed bs a = false -> Game.first_hit a bs = None.
Proof.
  rewrite first_hit_destroyed. now destruct (Game.first_hit a bs).
Qed.

Lemma resolve_all_no_hit asts (st : Game.pass) r :
  Forall (fun a => destroyed (Game.p_bullets st) a = false) asts ->
  Game.resolve_all asts st r
  = Done (Game.mkPass (Game.p_bullets st) (Game.p_score st)
                      (Game.new_asteroids st)
                      (Game.remaining_asteroids st ++ asts), r).
Proof.
  revert st. induction asts as [|a rest IH]; intros st H.
  - cbn. rewrite app_nil_r. now destruct st.
  - inversion H as [|? ? Ha Hrest]; subst. cbn [Game.resolve_all].
    rewrite (bind_done _ _ _ _ _ (resolve_asteroid_miss a st r Ha)).
    rewrite IH by exact Hrest. cbn. now rewrite <- app_assoc.
Qed.

Lemma web_resolve_all_no_hit RAND_MAX GetRandomValue asts (st : Web.pass) r :
  Forall (fun a => destroyed (Web.p_bullets st) a = false) asts ->
  Web.resolve_all RAND_MAX GetRandomValue asts st r
  = Done (Web.mkPass (Web.p_bullets st) (Web.p_score st)
                     (Web.newAsteroids st ++ asts), r).
Proof.
  revert st. induction asts as [|a rest IH]; intros st H.
  - cbn. rewrite app_nil_r. now destruct st.
  - inversion H as [|? ? Ha Hrest]; subst. cbn [Web.resolve_all].
    assert (Web.resolve_asteroid RAND_MAX GetRandomValue a st r
            = Done (Web.mkPass (Web.p_bullets st) (Web.p_score st)
                               (Web.newAsteroids st ++ [a]), r)) as E.
    { unfold Web.resolve_asteroid. now rewrite (first_hit_none _ _ Ha). }
    rewrite (bind_done _ _ _ _ _ E).
    rewrite IH by exact Hrest. cbn. now rewrite <- app_assoc.
Qed.

(** X16: when no bullet overlaps an asteroid (in particular when there is no
    bullet), the pass of the bullets keeps the asteroids and their order,
    keeps the score and draws no random number.  The desktop build still
    removes the bullets whose life is at most 0; the web build leaves the
    list of bullets as it is. *)
Theorem pass_without_hit (g : Game.t) r :
  Forall (fun a => destroyed (Game.bullets g) a = false) (Game.asteroids g) ->
  Game.bullets_vs_asteroids g r
  = Done (Game.mk (Game.player g) (Game.remove_dead (Game.bullets g))
                  (Game.asteroids g) (Game.score g) (Game.lives g)
                  (Game.wave g) (Game.game_over g), r)
  /\ forall RAND_MAX GetRandomValue,
       Web.HandleCollisions RAND_MAX GetRandomValue g r
       = Done (Game.player_vs_asteroids g, r).
Proof.
  intros H. split.
  - unfold Game.bullets_vs_asteroids.
    rewrite (bind_done _ _ _ _ _
               (resolve_all_no_hit _ (Game.mkPass _ _ [] []) r H)).
    cbn. now rewrite app_nil_r.
  - intros RAND_MAX GetRandomValue. unfold Web.HandleCollisions.
    rewrite (bind_done _ _ _ _ _
               (web_resolve_all_no_hit RAND_MAX GetRandomValue _
                  (Web.mkPass _ _ []) r H)).
    now destruct g.
Qed.
End NoHit.

(** ** Restart *)

Section Restart.
Context {FO : FloatOps}.
Local Open Scope float_scope.

(** X21: [reset] keeps nothing of the game it is called on: the restarted game
    depends on the generator alone.  In the desktop build it is the game
    the constructor makes with the player's timer at 2.0 instead of 0; in
    the web build, whose [Player()] calls [Reset()], it is the very game
    the constructor makes. *)
Theorem reset_forgets fuel (g1 g2 : Game.t) r :
  Game.reset fuel g1 r = Game.reset fuel g2 r
  /\ Game.reset fuel g1 r
     = bind (Game.new fuel)
            (fun g => ret (Game.mk (Player.set_invuln (lit 2.0) (Game.player g))
                                   (Game.bullets g) (Game.asteroids g)
                                   (Game.score g) (Game.lives g)
                                   (Game.wave g) (Game.game_over g))) r
  /\ forall RAND_MAX GetRandomValue,
       Web.Reset RAND_MAX GetRandomValue fuel g1 r
       = Web.NewGame RAND_MAX GetRandomValue fuel r.
Proof.
  split; [reflexivity|]. split; [|reflexivity].
  unfold Game.reset, Game.new, Game.spawn_wave, bind.
  cbn [Game.player Player.pos Player.reset Player.new].
  destruct (Game.spawn_loop fuel (Z.to_nat (3 + 1)) Player.center [] r)
    as [[l r']| |]; reflexivity.
Qed.
End Restart.

(** ** Construction and drawing of an asteroid *)

Section AsteroidFacts.
Context {FO : FloatOps}.
Local Open Scope float_scope.

(** X2: the constructor of the desktop build returns for the sizes 1, 2 and 3,
    with the radius of the table and an outline of 10 to 14 points, and
    throws [std::out_of_range] for every other size.  The constructor of the
    web build never throws: every size other than 3 and 2 gets the radius
    14. *)
Theorem asteroid_constructor (p : Vector2) (s : Z) :
  (valid_size s ->
   returns (Asteroid.new p s)
     (fun a =>
        Asteroid.pos a = p /\ Asteroid.size a = s
        /\ Asteroid.radius a
           = (if (s =? 3)%Z then lit 42.0
              else if (s =? 2)%Z then lit 26.0 else lit 14.0)
        /\ (10 <= length (Asteroid.points a) <= 14)%nat))
  /\ (~ valid_size s -> forall r, Asteroid.new p s r = OutOfRange)
  /\ forall RAND_MAX GetRandomValue,
       (forall lo hi, returns (GetRandomValue lo hi) (fun _ => True)) ->
       returns (Web.NewAsteroid RAND_MAX GetRandomValue p s)
         (fun a =>
            Asteroid.pos a = p /\ Asteroid.size a = s
            /\ Asteroid.radius a
               = (if (s =? 3)%Z then of_int 42
                  else if (s =? 2)%Z then of_int 26 else of_int 14)).
Proof.
  split; [|split].
  - intros Hs r. unfold Asteroid.new.
    assert (Asteroid.map_at ASTEROID_RADII s
            = Some (if (s =? 3)%Z then lit 42.0
                    else if (s =? 2)%Z then lit 26.0 else lit 14.0)) as E.
    { unfold valid_size in Hs. unfold ASTEROID_RADII, Asteroid.map_at.
      rewrite (Z.eqb_sym 3 s), (Z.eqb_sym 2 s), (Z.eqb_sym 1 s).
      destruct (Z.eqb_spec s 3); [reflexivity|].
      destruct (Z.eqb_spec s 2); [reflexivity|].
      destruct (Z.eqb_spec s 1); [reflexivity|lia]. }
    rewrite E.
    eapply returns_at_bind; [apply returns_random_asteroid_velocity|].
    intros v r1 _ _.
    eapply returns_at_bind; [apply returns_generate_shape|].
    intros pts r2 _ Hpts. apply returns_at_ret.
    cbn. rewrite vector_eta. auto.
  - intros Hs r. now apply asteroid_new_throws.
  - intros RAND_MAX GetRandomValue HG r. unfold Web.NewAsteroid.
    eapply returns_at_bind;
      [apply (returns_RandomAsteroidVelocity RAND_MAX)|].
    intros v r1 _ _. unfold Web.GenerateShape.
    eapply returns_at_bind.
    { eapply returns_at_bind; [apply HG|].
      intros n r2 _ _.
      apply (returns_web_shape_loop RAND_MAX). }
    intros pts r2 _ _. apply returns_at_ret. now cbn.
Qed.
End AsteroidFacts.

Section Score.
Context {FO : FloatOps}.
Local Open Scope float_scope.
Local Open Scope Z_scope.

Lemma field_worth_cons (a : Asteroid.t) l :
  field_worth (a :: l) = worth (Asteroid.size a) + field_worth l.
Proof. reflexivity. Qed.

Lemma field_worth_app (l1 l2 : list Asteroid.t) :
  field_worth (l1 ++ l2) = field_worth l1 + field_worth l2.
Proof.
  induction l1 as [|a l IH]; [reflexivity|].
  rewrite <- app_comm_cons, !field_worth_cons, IH. lia.
Qed.

Lemma worth_step (s : Z) :
  1 <= s -> worth s = 10 * s + 2 * worth (s - 1).
Proof.
  intros Hs. unfold worth.
  replace (Z.to_nat s) with (S (Z.to_nat (s - 1))) by lia.
  cbn [worth_nat]. lia.
Qed.

Lemma field_worth_fragments (a : Asteroid.t) kids :
  Forall (fragment_of a) kids ->
  field_worth kids = Z.of_nat (length kids) * worth (Asteroid.size a - 1).
Proof.
  induction 1 as [|k l (Hk & _) _ IH]; [reflexivity|].
  rewrite field_worth_cons, IH, Hk. cbn [length]. lia.
Qed.

Lemma worth_split (a : Asteroid.t) kids :
  valid_size (Asteroid.size a) ->
  Forall (fragment_of a) kids ->
  length kids = (if Asteroid.size a >? 1 then 2%nat else 0%nat) ->
  10 * Asteroid.size a + field_worth kids = worth (Asteroid.size a).
Proof.
  intros Hv Hk Hlen. rewrite (field_worth_fragments a kids Hk), Hlen.
  unfold valid_size in Hv. rewrite (worth_step _ (proj1 Hv)).
  destruct (Z.gtb_spec (Asteroid.size a) 1); [lia|].
  replace (Asteroid.size a - 1) with 0 by lia. reflexivity.
Qed.

Lemma resolve_all_worth asts (st : Game.pass) :
  Forall (fun a => valid_size (Asteroid.size a)) asts ->
  returns (Game.resolve_all asts st)
    (fun st' =>
       Game.p_score st' + field_worth (Game.new_asteroids st')
       + field_worth (Game.remaining_asteroids st')
       = Game.p_score st + field_worth (Game.new_asteroids st)
         + field_worth (Game.remaining_asteroids st) + field_worth asts).
Proof.
  intros Hv. revert st.
  induction Hv as [|a rest Ha _ IH]; intros st r.
  - apply returns_at_ret. cbn. lia.
  - cbn [Game.resolve_all].
    destruct (destroyed (Game.p_bullets st) a) eqn:Ed.
    + destruct (resolve_asteroid_hit a st Ha Ed)
        as (pre & b & post & _ & _ & _ & _ & Hret).
      eapply returns_at_bind; [apply Hret|].
      intros st1 r1 _ (Hsc & _ & Hrem & kids & Hnew & Hk & Hlen).
      eapply returns_at_weaken; [apply IH|].
      intros st' E. cbv beta in E. rewrite E, Hsc, Hrem, Hnew.
      rewrite field_worth_app.
      pose proof (worth_split a kids Ha Hk Hlen).
      rewrite ?field_worth_cons. change (field_worth []) with 0. lia.
    + eapply returns_at_bind;
        [apply (returns_at_done _ _ _ (resolve_asteroid_miss a st r Ed))|].
      intros st1 r1 _ ->.
      eapply returns_at_weaken; [apply IH|].
      intros st' E. cbv beta in E. rewrite E. cbn [Game.p_score
        Game.new_asteroids Game.remaining_asteroids].
      rewrite field_worth_app.
      rewrite ?field_worth_cons. change (field_worth []) with 0. lia.
Qed.

Lemma web_resolve_all_worth RAND_MAX GetRandomValue asts (st : Web.pass) :
  (forall lo hi, returns (GetRandomValue lo hi) (fun _ => True)) ->
  Forall (fun a => valid_size (Asteroid.size a)) asts ->
  returns (Web.resolve_all RAND_MAX GetRandomValue asts st)
    (fun st' =>
       Web.p_score st' + field_worth (Web.newAsteroids st')
       = Web.p_score st + field_worth (Web.newAsteroids st)
         + field_worth asts).
Proof.
  intros HG Hv. revert st.
  induction Hv as [|a rest Ha _ IH]; intros st r.
  - apply returns_at_ret. cbn. lia.
  - cbn [Web.resolve_all].
    destruct (Game.first_hit a (Web.p_bullets st)) as [bs'|] eqn:Eh.
    + eapply returns_at_bind;
        [apply (web_resolve_asteroid_hit RAND_MAX GetRandomValue HG a st bs' Eh)|].
      intros st1 r1 _ (Hsc & _ & kids & Hnew & Hk & Hlen).
      eapply returns_at_weaken; [apply IH|].
      intros st' E. cbv beta in E. rewrite E, Hsc, Hnew.
      rewrite field_worth_app.
      pose proof (worth_split a kids Ha Hk Hlen).
      rewrite ?field_worth_cons. change (field_worth []) with 0. lia.
    + assert (Web.resolve_asteroid RAND_MAX GetRandomValue a st r
              = Done (Web.mkPass (Web.p_bullets st) (Web.p_score st)
                                 (Web.newAsteroids st ++ [a]), r)) as E1.
      { unfold Web.resolve_asteroid. now rewrite Eh. }
      eapply returns_at_bind; [apply (returns_at_done _ _ _ E1)|].
      intros st1 r1 _ ->.
      eapply returns_at_weaken; [apply IH|].
      intros st' E. cbv beta in E. rewrite E.
      cbn [Web.p_score Web.newAsteroids].
      rewrite !field_worth_app.
      rewrite ?field_worth_cons. change (field_worth []) with 0. lia.
Qed.

Lemma handle_collisions_worth (g : Game.t) :
  Forall (fun a => valid_size (Asteroid.size a)) (Game.asteroids g) ->
  returns (Game.handle_collisions g)
    (fun g' =>
       Game.score g' + field_worth (Game.asteroids g')
       = Game.score g + field_worth (Game.asteroids g)).
Proof.
  intros Hv r. unfold Game.handle_collisions, Game.bullets_vs_asteroids.
  eapply returns_at_bind.
  { eapply returns_at_bind;
      [apply (resolve_all_worth _ (Game.mkPass (Game.bullets g)
                                     (Game.score g) [] []) Hv)|].
    intros st r1 _ E. apply returns_at_ret.
    cbn [Game.p_score Game.new_asteroids Game.remaining_asteroids
         field_worth fold_right] in E.
    instantiate (1 := fun g1 =>
      Game.score g1 + field_worth (Game.asteroids g1)
      = Game.score g + field_worth (Game.asteroids g)).
    cbn [Game.score Game.asteroids]. rewrite field_worth_app. lia. }
  intros g1 r1 _ E. apply returns_at_ret.
  destruct (player_vs_asteroids_frame g1) as (-> & _ & -> & _).
  exact E.
Qed.

Lemma field_worth_large (l : list Asteroid.t) :
  Forall (fun a => Asteroid.size a = 3) l ->
  field_worth l = 110 * Z.of_nat (length l).
Proof.
  induction 1 as [|a l Ha _ IH]; [reflexivity|].
  rewrite field_worth_cons, IH, Ha. change (worth 3) with 110.
  cbn [length]. lia.
Qed.

Lemma field_worth_update dt (l : list Asteroid.t) :
  field_worth (map (Asteroid.update dt) l) = field_worth l.
Proof.
  induction l as [|a l IH]; [reflexivity|].
  cbn [map]. now rewrite !field_worth_cons, IH.
Qed.

(** X17: the collision pass keeps the sum of the score and of the points left
    on the field: what a destroyed asteroid adds to the score, plus what
    its two fragments are worth, is what the asteroid was worth.  A Small,
    a Medium and a Large asteroid are worth 10, 40 and 110 points, so a
    wave of [n] Large asteroids is worth [110 * n]. *)
Theorem score_conservation (g : Game.t) :
  Forall (fun a => valid_size (Asteroid.size a)) (Game.asteroids g) ->
  returns (Game.handle_collisions g)
    (fun g' =>
       Game.score g' + field_worth (Game.asteroids g')
       = Game.score g + field_worth (Game.asteroids g))
  /\ (forall RAND_MAX GetRandomValue,
        (forall lo hi, returns (GetRandomValue lo hi) (fun _ => True)) ->
        returns (Web.HandleCollisions RAND_MAX GetRandomValue g)
          (fun g' =>
             Game.score g' + field_worth (Game.asteroids g')
             = Game.score g + field_worth (Game.asteroids g)))
  /\ (worth 1 = 10 /\ worth 2 = 40 /\ worth 3 = 110)
  /\ (forall wave_ : list Asteroid.t,
        Forall (fun a => Asteroid.size a = 3) wave_ ->
        field_worth wave_ = 110 * Z.of_nat (length wave_)).
Proof.
  intros Hv. split; [|split; [|split; [now repeat split|]]].
  - now apply handle_collisions_worth.
  - intros RAND_MAX GetRandomValue HG r. unfold Web.HandleCollisions.
    eapply returns_at_bind;
      [apply (web_resolve_all_worth RAND_MAX GetRandomValue _
                (Web.mkPass (Game.bullets g) (Game.score g) []) HG Hv)|].
    intros st r1 _ E. apply returns_at_ret.
    cbn [Web.p_score Web.newAsteroids field_worth fold_right] in E.
    destruct (player_vs_asteroids_frame
                (Game.mk (Game.player g) (Web.p_bullets st)
                   (Web.newAsteroids st) (Web.p_score st) (Game.lives g)
                   (Game.wave g) (Game.game_over g))) as (-> & _ & -> & _).
    cbn [Game.score Game.asteroids]. lia.
  - exact field_worth_large.
Qed.

Lemma points_for_tens (l : list Asteroid.t) : points_for l mod 10 = 0.
Proof.
  induction l as [|a l IH]; [reflexivity|].
  cbn [points_for fold_right]. fold (points_for l).
  rewrite Z.add_comm, Z.mul_comm, Z.mod_add by lia. exact IH.
Qed.

(** X18: the score is a multiple of 10 in every state of a run. *)
Theorem score_multiple_of_ten (g : Game.t) r :
  reachable g r -> Game.score g mod 10 = 0.
Proof.
  induction 1 as [fuel r0 g r H | fuel inp dt g r g' r' Hr IH H].
  - unfold Game.new in H.
    now apply spawn_wave_done in H as (_ & _ & -> & _).
  - apply reachable_inv in Hr. destruct Hr as (Hv & _).
    unfold Game.update in H. destruct (Game.game_over g).
    + destruct (pressed_ENTER inp).
      * unfold Game.reset in H.
        now apply spawn_wave_done in H as (_ & _ & -> & _).
      * now inversion H; subst.
    + apply bind_inv in H as (g1 & r1 & H1 & H).
      assert (Game.score g' = Game.score g1) as ->.
      { unfold Game.next_wave in H. destruct (Game.asteroids g1).
        - now apply spawn_wave_done in H as (_ & _ & -> & _).
        - now inversion H. }
      unfold Game.advance in H1.
      destruct (if down_SPACE inp || pressed_MOUSE0 inp then _ else _)
        as [player2 bullets1].
      unfold Game.handle_collisions in H1.
      apply bind_inv in H1 as (g0 & r0 & H0 & H1). inversion H1; subst.
      destruct (player_vs_asteroids_frame g0) as (_ & _ & -> & _).
      pose proof (map_update_valid dt _ Hv) as Hv'.
      match type of H0 with
      | Game.bullets_vs_asteroids ?gg _ = _ =>
          destruct (returns_at_det _ _ _ _ _
                      (bullets_vs_asteroids_returns gg Hv' r) H0)
            as (_ & _ & _ & _ & -> & _)
      end.
      cbn [Game.score]. rewrite Z.add_mod, IH, points_for_tens by lia.
      reflexivity.
Qed.
Lemma spawned_worth ppos (l : list Asteroid.t) :
  Forall (spawned_clear ppos) l ->
  field_worth l = 110 * Z.of_nat (length l).
Proof.
  intros H. apply field_worth_large.
  eapply Forall_impl; [|exact H]. now intros a (Ha & _).
Qed.

(** X30: in every state of a run the score and the points left on the field add
    up to [55 * wave * (wave + 7)]: the waves so far were worth
    [110 * (3 + 1)], ..., [110 * (3 + wave)] points, and every point is
    either scored or still on the field.  The restart starts the count
    again. *)
Theorem score_invariant (g : Game.t) r :
  reachable g r ->
  Game.score g + field_worth (Game.asteroids g)
  = 55 * Game.wave g * (Game.wave g + 7).
Proof.
  induction 1 as [fuel r0 g r H | fuel inp dt g r g' r' Hr IH H].
  - unfold Game.new in H.
    apply spawn_wave_done in H as (_ & _ & -> & _ & -> & _ & Hlen & Hall).
    rewrite (spawned_worth _ _ Hall), Hlen. cbn. reflexivity.
  - apply reachable_inv in Hr. destruct Hr as (Hv & _ & Hw & _).
    unfold Game.update in H. destruct (Game.game_over g).
    + destruct (pressed_ENTER inp).
      * unfold Game.reset in H.
        apply spawn_wave_done in H as (_ & _ & -> & _ & -> & _ & Hlen & Hall).
        rewrite (spawned_worth _ _ Hall), Hlen. cbn. reflexivity.
      * now inversion H; subst.
    + apply bind_inv in H as (g1 & r1 & H1 & H).
      pose proof (advance_done_wave _ _ _ _ _ _ H1) as Hw1.
      assert (Game.score g1 + field_worth (Game.asteroids g1)
              = Game.score g + field_worth (Game.asteroids g)) as E1.
      { unfold Game.advance in H1.
        destruct (if down_SPACE inp || pressed_MOUSE0 inp then _ else _)
          as [player2 bullets1].
        pose proof (map_update_valid dt _ Hv) as Hv'.
        match type of H1 with
        | Game.handle_collisions ?gg _ = _ =>
            pose proof (returns_at_det _ _ _ _ _
                          (handle_collisions_worth gg Hv' r) H1) as E
        end.
        cbn [Game.score Game.asteroids] in E.
        now rewrite field_worth_update in E. }
      unfold Game.next_wave in H.
      destruct (Game.asteroids g1) as [|a l] eqn:Ea.
      * apply spawn_wave_done in H
          as (_ & _ & -> & _ & -> & _ & Hlen & Hall).
        cbn [Game.score Game.wave].
        rewrite (spawned_worth _ _ Hall), Hlen.
        change (field_worth []) with 0 in E1.
        rewrite Z2Nat.id by lia. rewrite Hw1. nia.
      * inversion H; subst g' r'. rewrite Ea, Hw1. lia.
Qed.
End Score.

Section Shield.
Context {FO : FloatOps}.
Local Open Scope float_scope.

Lemma advance_shielded inp dt (g : Game.t) r g1 r1 :
  Game.advance inp dt g r = Done (g1, r1) ->
  (Player.invuln (Player.update inp dt (Game.player g)) <=? lit 0) = false ->
  Game.lives g1 = Game.lives g /\ Game.game_over g1 = Game.game_over g.
Proof.
  unfold Game.advance.
  set (fired := if down_SPACE inp || pressed_MOUSE0 inp then _ else _).
  assert (Player.invuln (fst fired)
          = Player.invuln (Player.update inp dt (Game.player g))) as Hi.
  { subst fired. destruct (down_SPACE inp || pressed_MOUSE0 inp);
      [|reflexivity].
    unfold Player.shoot.
    now destruct (Player.cooldown (Player.update inp dt (Game.player g))
                  <=? lit 0). }
  destruct fired as [player2 bullets1]. cbn [fst] in Hi.
  unfold Game.handle_collisions. intros H Hs.
  apply bind_inv in H as (g0 & r0 & H0 & H). inversion H; subst.
  apply bullets_vs_asteroids_done in H0 as (Hp & _ & Hl & Hgo).
  cbn [Game.player Game.lives Game.game_over] in Hp, Hl, Hgo.
  unfold Game.player_vs_asteroids. rewrite Hp, Hi, Hs. auto.
Qed.

Lemma next_wave_lives fuel (g : Game.t) r g' r' :
  Game.next_wave fuel g r = Done (g', r') ->
  Game.lives g' = Game.lives g /\ Game.game_over g' = Game.game_over g.
Proof.
  unfold Game.next_wave. destruct (Game.asteroids g).
  - intros H. now apply spawn_wave_done in H as (_ & _ & _ & Hl & _ & Hg & _).
  - intros H. now inversion H.
Qed.
End Shield.

Section RationalTimers.
Variable m : Libm Q.
Local Open Scope Q_scope.

(** X19: while the invulnerability timer has more on it than the frame takes,
    the frame costs no life: the pass of the player against the asteroids
    is skipped, whatever overlaps the ship. *)
Theorem shield_holds fuel inp (dt : Q) (g : @Game.t (QFloat m)) r g' r' :
  Game.game_over g = false ->
  0 <= dt -> dt < Player.invuln (Game.player g) ->
  @Game.update (QFloat m) fuel inp dt g r = Done (g', r') ->
  Game.lives g' = Game.lives g /\ Game.game_over g' = false.
Proof.
  intros Hgo Hdt Hinv H. unfold Game.update in H. rewrite Hgo in H.
  apply bind_inv in H as (g1 & r1 & H1 & H).
  apply next_wave_lives in H as (-> & ->).
  apply advance_shielded in H1; [destruct H1 as (-> & ->); auto|].
  cbn [Player.update Player.invuln].
  change (@lit (QFloat m) 0) with (Qred 0).
  change (@fltb (QFloat m)) with Qltb.
  change (@fleb (QFloat m)) with Qle_bool.
  change (@fsub (QFloat m)) with (fun a b => Qred (a - b)). cbv beta.
  assert (Qltb (Qred 0) (Player.invuln (Game.player g)) = true) as ->.
  { apply Qltb_lt. rewrite Qred_correct. Lqa.lra. }
  apply Qle_bool_gt. rewrite !Qred_correct. Lqa.lra.
Qed.

End RationalTimers.

Section RealGeometry.
Local Open Scope R_scope.

Lemma abs_le_hypot (a b : R) : Rabs a <= sqrt (a * a + b * b).
Proof.
  rewrite <- sqrt_Rsqr_abs. apply sqrt_le_1_alt. unfold Rsqr. nra.
Qed.

Lemma wrap_real (p : @Vector2 RFloat) :
  -900 <= x p <= 1800 -> -650 <= y p <= 1300 -> on_screen (wrap_position p).
Proof.
  intros Hx Hy. unfold wrap_position, on_screen, of_int, SCREEN_WIDTH,
    SCREEN_HEIGHT.
  cbn [x y fltb fadd fsub lit RFloat]. rewrite !Q2R_inject_Z, Q2R_0.
  split.
  - destruct (Rltb (x p) 0) eqn:E1.
    + apply Rltb_lt in E1. lra.
    + apply Rltb_ge in E1. destruct (Rltb 900 (x p)) eqn:E2.
      * apply Rltb_lt in E2. lra.
      * apply Rltb_ge in E2. lra.
  - destruct (Rltb (y p) 0) eqn:E1.
    + apply Rltb_lt in E1. lra.
    + apply Rltb_ge in E1. destruct (Rltb 650 (y p)) eqn:E2.
      * apply Rltb_lt in E2. lra.
      * apply Rltb_ge in E2. lra.
Qed.

End RealGeometry.

Section Outline.
Context {FO : FloatOps}.
Local Open Scope float_scope.

Lemma asteroid_draw_nth (a : Asteroid.t) i :
  (i < length (Asteroid.points a))%nat ->
  nth_error (Asteroid.draw a) i
  = Some (DrawLineV
            (vec_add (Asteroid.pos a)
               (nth i (Asteroid.points a) (mkVector2 (lit 0) (lit 0))))
            (vec_add (Asteroid.pos a)
               (nth ((i + 1) mod length (Asteroid.points a))
                    (Asteroid.points a) (mkVector2 (lit 0) (lit 0))))
            LIGHTGRAY).
Proof.
  intros Hi. unfold Asteroid.draw.
  rewrite nth_error_map.
  rewrite (nth_error_nth' _ 0%nat) by now rewrite length_seq.
  rewrite seq_nth by exact Hi. reflexivity.
Qed.

(** X4: [Asteroid::draw] draws one line per point of the outline, and the
    lines form a closed loop: each line ends where the next one starts, and
    the last one ends where the first one starts.  An asteroid without
    points draws nothing. *)
Theorem outline_closed (a : Asteroid.t) :
  length (Asteroid.draw a) = length (Asteroid.points a)
  /\ (Asteroid.points a = [] -> Asteroid.draw a = [])
  /\ forall i, (i < length (Asteroid.points a))%nat ->
       exists this next,
         nth_error (Asteroid.draw a) i = Some this
         /\ nth_error (Asteroid.draw a)
                      ((i + 1) mod length (Asteroid.points a)) = Some next
         /\ line_start this
            = Some (vec_add (Asteroid.pos a)
                      (nth i (Asteroid.points a)
                           (mkVector2 (lit 0) (lit 0))))
         /\ line_end this = line_start next.
Proof.
  split; [|split].
  - unfold Asteroid.draw. now rewrite length_map, length_seq.
  - intros E. unfold Asteroid.draw. now rewrite E.
  - intros i Hi.
    assert ((i + 1) mod length (Asteroid.points a)
            < length (Asteroid.points a))%nat as Hn
      by (apply Nat.mod_upper_bound; lia).
    eexists _, _.
    split; [apply (asteroid_draw_nth a i Hi)|].
    split; [apply (asteroid_draw_nth a _ Hn)|].
    split; reflexivity.
Qed.
End Outline.

Section ResourcePath.
Local Open Scope string_scope.

Lemma find_last_of_split dir sep file chars :
  char_in sep chars = true ->
  find_last_of file chars = None ->
  find_last_of (dir ++ String sep file) chars = Some (String.length dir).
Proof.
  intros Hs Hf. induction dir as [|c dir IH]; cbn.
  - now rewrite Hf, Hs.
  - now rewrite IH.
Qed.

Lemma substring_prefix dir rest :
  substring 0 (String.length dir) (dir ++ rest) = dir.
Proof.
  induction dir as [|c dir IH]; cbn.
  - now destruct rest.
  - now rewrite IH.
Qed.

(** X23: outside Windows a resource is looked up in the current directory.  On
    Windows it is looked up beside the executable: the path of the
    executable is cut at its last separator (slash or backslash), and a
    slash is put between the directory and the name unless the directory is
    empty or ends in a separator itself; an executable path without a
    separator gives the current directory. *)
Theorem resource_path_spec (relative_path : string) :
  resource_path Other relative_path = "./" ++ relative_path
  /\ (forall exe_path,
        find_last_of exe_path "\/" = None ->
        resource_path (Win32 exe_path) relative_path = "./" ++ relative_path)
  /\ (forall dir sep file,
        char_in sep "\/" = true ->
        find_last_of file "\/" = None ->
        resource_path (Win32 (dir ++ String sep file)) relative_path
        = (match back dir with
           | Some c => if char_in c "\/" then dir else dir ++ "/"
           | None => dir
           end) ++ relative_path)
  /\ (forall sep file,
        char_in sep "\/" = true ->
        find_last_of file "\/" = None ->
        resource_path (Win32 (String sep file)) relative_path
        = relative_path).
Proof.
  assert (forall dir sep file,
            char_in sep "\/" = true ->
            find_last_of file "\/" = None ->
            resource_path (Win32 (dir ++ String sep file)) relative_path
            = (match back dir with
               | Some c => if char_in c "\/" then dir else dir ++ "/"
               | None => dir
               end) ++ relative_path) as Hsplit.
  { intros dir sep file Hs Hf. unfold resource_path.
    rewrite (find_last_of_split dir sep file _ Hs Hf), substring_prefix.
    destruct (back dir) as [c|]; [|reflexivity].
    cbn [char_in]. rewrite orb_false_r.
    rewrite (Ascii.eqb_sym c "\"), (Ascii.eqb_sym c "/").
    destruct (Ascii.eqb "\" c), (Ascii.eqb "/" c); reflexivity. }
  split; [reflexivity|]. split; [|split].
  - intros exe_path H. unfold resource_path. now rewrite H.
  - exact Hsplit.
  - intros sep file Hs Hf. apply (Hsplit "" sep file Hs Hf).
Qed.
End ResourcePath.

Section WholeRun.
Context {FO : FloatOps}.

Lemma run_frames_cases fuel frames (g : Game.t) r :
  reachable g r ->
  run_frames fuel frames g r = Diverge
  \/ exists g' r', run_frames fuel frames g r = Done (g', r')
                   /\ reachable g' r'.
Proof.
  revert g r. induction frames as [|[inp dt] rest IH]; intros g r Hr.
  - right. now exists g, r.
  - cbn [run_frames].
    destruct (update_cases fuel inp dt g r (reachable_inv g r Hr))
      as [H | (g1 & r1 & H)].
    + left. unfold bind. now rewrite H.
    + rewrite (bind_done _ _ _ _ _ H). apply IH.
      eapply reach_update; eauto.
Qed.

(** X1: a run of the game (the constructor, then any number of frames with any
    input and any frame times) never throws [std::out_of_range]: the only
    sizes an [Asteroid] is ever constructed with are 1, 2 and 3.  The run
    returns, unless a sampling loop of [spawn_wave] exceeds its bound. *)
Theorem run_never_throws fuel frames r :
  play fuel frames r = Diverge
  \/ exists (g : Game.t) r', play fuel frames r = Done (g, r')
                             /\ reachable g r'.
Proof.
  unfold play, Game.new.
  destruct (spawn_wave_cases fuel 1
              (Game.mk Player.new [] [] 0 LIVES_START 1 false) r)
    as [H | (g & r1 & H)].
  - left. unfold bind. now rewrite H.
  - rewrite (bind_done _ _ _ _ _ H). apply run_frames_cases.
    eapply reach_new. exact H.
Qed.
End WholeRun.

Section Drawing.
Context {FO : FloatOps}.
Local Open Scope float_scope.

Lemma asteroid_draw_lines (p : DrawCmd -> bool) (a : Asteroid.t) :
  (forall u v c, p (DrawLineV u v c) = false) ->
  filter p (Asteroid.draw a) = [].
Proof.
  intros Hp. unfold Asteroid.draw.
  induction (seq 0 (length (Asteroid.points a))) as [|i l IH];
    [reflexivity|].
  cbn [map filter]. now rewrite Hp.
Qed.

Lemma centred (w : Z) : (Z.abs (2 * Z.quot (900 - w) 2 + w - 900) <= 1)%Z.
Proof.
  pose proof (Z.quot_rem' (900 - w) 2) as E.
  pose proof (Z.rem_bound_abs (900 - w) 2 ltac:(lia)) as B.
  lia.
Qed.

(** X22: what [Game::draw] emits besides the ship and the asteroids: one yellow
    circle of radius 2 per bullet, in the order of the list; the three
    lines of the display with the score, the lives and the wave; and,
    exactly when the game is over, the two lines of the banner, each
    centred on the screen to within a pixel. *)
Theorem draw_layers (MeasureText : string -> Z -> Z) (g : Game.t) :
  filter is_circle (Game.draw MeasureText g)
  = map (fun b => DrawCircleV (Bullet.pos b) (lit 2.0) YELLOW)
        (Game.bullets g)
  /\ exists x1 x2,
       filter is_text (Game.draw MeasureText g)
       = [DrawText "Score: %d" (Some (Game.score g)) 20 20 20 RAYWHITE;
          DrawText "Lives: %d" (Some (Game.lives g)) 20 45 20 RAYWHITE;
          DrawText "Wave: %d" (Some (Game.wave g)) 20 70 20 RAYWHITE]
         ++ (if Game.game_over g
             then [DrawText "GAME OVER" None x1 285 48 RED;
                   DrawText "Press ENTER to restart" None x2 345 20 RAYWHITE]
             else [])
       /\ (Z.abs (2 * x1 + MeasureText "GAME OVER"%string 48%Z - 900) <= 1)%Z
       /\ (Z.abs (2 * x2 + MeasureText "Press ENTER to restart"%string 20%Z
                  - 900) <= 1)%Z.
Proof.
  split.
  - unfold Game.draw. rewrite !filter_app.
    rewrite (filter_flat_map_nil _ _ _
               (fun a => asteroid_draw_lines is_circle a
                           (fun _ _ _ => eq_refl))).
    assert (filter is_circle (flat_map Bullet.draw (Game.bullets g))
            = map (fun b => DrawCircleV (Bullet.pos b) (lit 2.0) YELLOW)
                  (Game.bullets g)) as ->.
    { induction (Game.bullets g) as [|b l IH]; [reflexivity|].
      cbn [flat_map Bullet.draw app filter is_circle map]. now rewrite IH. }
    destruct (negb _ || _), (Game.game_over g); cbn; now rewrite app_nil_r.
  - exists (Z.quot (SCREEN_WIDTH - MeasureText "GAME OVER"%string 48%Z) 2),
           (Z.quot (SCREEN_WIDTH
                    - MeasureText "Press ENTER to restart"%string 20%Z) 2).
    split; [|split; apply centred].
    unfold Game.draw. rewrite !filter_app.
    rewrite (filter_flat_map_nil _ _ _
               (fun a => asteroid_draw_lines is_text a
                           (fun _ _ _ => eq_refl))).
    rewrite (filter_flat_map_nil Bullet.draw is_text _ (fun _ => eq_refl)).
    destruct (negb _ || _), (Game.game_over g); reflexivity.
Qed.
End Drawing.

Section MoreConcreteFacts.
Local Existing Instance QF.
Local Open Scope Q_scope.

Lemma zero_start_new :
  Game.new 1 (mkRng zero_tape 0)
  = Done (zero_start, mkRng zero_tape zero_start_cursor).
Proof.
  vm_cast_no_check
    (eq_refl (Done (zero_start, mkRng zero_tape zero_start_cursor))).
Qed.

Lemma first_shot_update :
  Game.update 1 fire 0 zero_start (mkRng zero_tape zero_start_cursor)
  = Done (first_shot, mkRng zero_tape first_shot_cursor).
Proof.
  vm_cast_no_check
    (eq_refl (Done (first_shot, mkRng zero_tape first_shot_cursor))).
Qed.

Lemma first_shot_reachable :
  reachable first_shot (mkRng zero_tape first_shot_cursor).
Proof.
  eapply reach_update; [|exact first_shot_update].
  eapply reach_new. exact zero_start_new.
Qed.

Lemma shielded_next_update :
  Game.update 1 idle 0.5 shielded (mkRng zero_tape 0)
  = Done (shielded_next, mkRng zero_tape shielded_next_cursor).
Proof.
  vm_cast_no_check
    (eq_refl (Done (shielded_next, mkRng zero_tape shielded_next_cursor))).
Qed.

(** X13 at the first frame of a game, with SPACE down: one bullet, alive. *)
Lemma bullets_alive_witness :
  length (Game.bullets first_shot) = 1%nat
  /\ Forall (fun b => fleb (Bullet.life b) (lit 0) = false)
            (Game.bullets first_shot).
Proof.
  split; [reflexivity|].
  exact (bullets_alive_between_frames first_shot _ first_shot_reachable).
Defined.

(** X14 at that frame. *)
Lemma one_bullet_per_frame_witness :
  (length (Game.bullets first_shot)
   <= length (Game.bullets zero_start) + 1)%nat.
Proof.
  exact (proj1 (one_bullet_per_frame 1%nat fire 0 zero_start _ _ _
                  first_shot_update)).
Defined.

(** X20 at the end of the script. *)
Lemma asteroids_never_empty_witness :
  exists a l, Game.asteroids script_end = a :: l.
Proof.
  exact (asteroids_never_empty script_end _ script_end_reachable).
Defined.

(** X16 at a game without bullets. *)
Lemma pass_without_hit_witness :
  Game.bullets_vs_asteroids exposed (mkRng zero_tape 0)
  = Done (Game.mk (Game.player exposed)
                  (Game.remove_dead (Game.bullets exposed))
                  (Game.asteroids exposed) (Game.score exposed)
                  (Game.lives exposed) (Game.wave exposed)
                  (Game.game_over exposed), mkRng zero_tape 0).
Proof.
  refine (proj1 (pass_without_hit exposed (mkRng zero_tape 0) _)).
  repeat constructor.
Defined.

(** X2 at the sizes 0 and 2. *)
Lemma asteroid_constructor_witness :
  Asteroid.new still 0 (mkRng zero_tape 0) = OutOfRange
  /\ returns (Asteroid.new still 2)
       (fun a => Asteroid.radius a = lit 26.0
                 /\ (10 <= length (Asteroid.points a) <= 14)%nat).
Proof.
  destruct (asteroid_constructor still 0) as (_ & H0 & _).
  destruct (asteroid_constructor still 2) as (H2 & _).
  split.
  - apply H0. unfold valid_size. lia.
  - intros r. eapply returns_at_weaken.
    + apply H2. unfold valid_size. lia.
    + intros a (_ & _ & Hr & Hp). split; [exact Hr|exact Hp].
Defined.

(** X17 at one bullet over a Large and a Medium asteroid: 30 + 20
    points scored and four fragments worth 40 + 40 + 10 + 10 make the 150
    the two asteroids were worth. *)
Lemma score_conservation_witness :
  returns (Game.handle_collisions crowded)
    (fun g' => (Game.score g' + field_worth (Game.asteroids g') = 150)%Z).
Proof.
  refine (proj1 (score_conservation crowded _)).
  repeat constructor; unfold valid_size; cbn; lia.
Defined.

(** X18 at the end of the script. *)
Lemma score_multiple_of_ten_witness : (Game.score script_end mod 10 = 0)%Z.
Proof.
  exact (score_multiple_of_ten script_end _ script_end_reachable).
Defined.

(** X19 at half a second with an asteroid on the ship and 2.0 on the timer. *)
Lemma shield_holds_witness :
  Game.lives shielded_next = Game.lives shielded
  /\ Game.game_over shielded_next = false.
Proof.
  refine (shield_holds Qlibm 1%nat idle 0.5 shielded _ _ _ _ _ _
            shielded_next_update).
  - reflexivity.
  - discriminate.
  - reflexivity.
Defined.

(** X4 at the last line of a triangle, which ends where the first starts. *)
Lemma outline_closed_witness :
  exists this next,
    nth_error (Asteroid.draw triangle_rock) 2 = Some this
    /\ nth_error (Asteroid.draw triangle_rock) 0 = Some next
    /\ line_start this = Some (mkVector2 90 100)
    /\ line_end this = line_start next.
Proof.
  destruct (proj2 (proj2 (outline_closed triangle_rock)) 2%nat)
    as (this & next & H1 & H2 & H3 & H4).
  - cbn. lia.
  - exists this, next. split; [exact H1|]. split; [exact H2|].
    split; [exact H3|exact H4].
Defined.
End MoreConcreteFacts.

Section ResourcePathWitness.
Local Open Scope string_scope.

(** X23 at an executable in a directory and at one in the root. *)
Lemma resource_path_witness :
  resource_path (Win32 "C:\games\zay.exe") "favicon.png"
  = "C:\games/favicon.png"
  /\ resource_path (Win32 "\zay.exe") "favicon.png" = "favicon.png".
Proof.
  split.
  - exact (proj1 (proj2 (proj2 (resource_path_spec "favicon.png")))
             "C:\games" "\"%char "zay.exe" eq_refl eq_refl).
  - exact (proj2 (proj2 (proj2 (resource_path_spec "favicon.png")))
             "\"%char "zay.exe" eq_refl eq_refl).
Defined.
End ResourcePathWitness.

Section WholeCollisionPass.
Context {FO : FloatOps}.
Local Open Scope float_scope.

Lemma first_flags_length (a : Asteroid.t) bs :
  length (first_flags a bs) = length bs.
Proof.
  induction bs as [|b bs IH]; [reflexivity|]. cbn [first_flags].
  destruct (hits a b); cbn [length]; [now rewrite length_map|now rewrite IH].
Qed.

Lemma or_flags_length f1 f2 :
  length f1 = length f2 -> length (or_flags f1 f2) = length f1.
Proof.
  revert f2. induction f1 as [|u f1 IH]; intros [|v f2] H;
    try discriminate; [reflexivity|].
  cbn [or_flags length]. rewrite IH; [reflexivity|]. now inversion H.
Qed.

Lemma mark_with_false (bs : list Bullet.t) :
  mark_with (map (fun _ => false) bs) bs = bs.
Proof.
  unfold mark_with. induction bs as [|b bs IH]; [reflexivity|].
  cbn [map combine fst snd]. now rewrite IH.
Qed.

Lemma first_hit_flags (a : Asteroid.t) bs :
  match Game.first_hit a bs with Some bs' => bs' | None => bs end
  = mark_with (first_flags a bs) bs.
Proof.
  induction bs as [|b bs IH]; [reflexivity|].
  cbn [Game.first_hit first_flags]. fold (hits a b).
  destruct (hits a b).
  - unfold mark_with. cbn [combine map fst snd]. f_equal.
    apply eq_sym, mark_with_false.
  - unfold mark_with in *. cbn [combine map fst snd]. rewrite <- IH.
    now destruct (Game.first_hit a bs).
Qed.

Lemma first_flags_marked (a : Asteroid.t) fl bs :
  length fl = length bs ->
  first_flags a (mark_with fl bs) = first_flags a bs.
Proof.
  revert fl. induction bs as [|b bs IH]; intros [|u fl] H;
    try discriminate; [reflexivity|].
  unfold mark_with in *. cbn [combine map fst snd first_flags].
  assert (hits a (if u then Bullet.set_life (lit 0) b else b) = hits a b)
    as -> by (destruct u; [apply hits_set_life|reflexivity]).
  inversion H as [Hl]. destruct (hits a b).
  - f_equal. rewrite !map_map.
    clear -Hl. revert fl Hl. induction bs as [|c bs IHb]; intros [|v fl] Hl;
      try discriminate; [reflexivity|].
    cbn [combine map]. f_equal. apply IHb. now inversion Hl.
  - f_equal. now apply IH.
Qed.

Lemma mark_with_twice f1 f2 (bs : list Bullet.t) :
  length f1 = length bs -> length f2 = length bs ->
  mark_with f2 (mark_with f1 bs) = mark_with (or_flags f1 f2) bs.
Proof.
  revert f1 f2. induction bs as [|b bs IH]; intros [|u f1] [|v f2] H1 H2;
    try discriminate; [reflexivity|].
  unfold mark_with in *. cbn [combine map fst snd or_flags].
  f_equal; [now destruct u, v|]. apply IH; [now inversion H1|now inversion H2].
Qed.

Lemma resolve_all_flags asts (st : Game.pass) r st' r' fl bs :
  Game.resolve_all asts st r = Done (st', r') ->
  length fl = length bs ->
  Game.p_bullets st = mark_with fl bs ->
  Game.p_bullets st'
  = mark_with (fold_left (fun f a => or_flags f (first_flags a bs)) asts fl)
              bs.
Proof.
  revert st r fl. induction asts as [|a rest IH]; intros st r fl H Hl Hb;
    cbn [Game.resolve_all fold_left] in *.
  - inversion H; subst. exact Hb.
  - apply bind_inv in H as (st1 & r1 & H1 & H).
    apply (IH _ _ _ H).
    + rewrite or_flags_length; [exact Hl|].
      now rewrite first_flags_length.
    + rewrite (resolve_asteroid_bullets _ _ _ _ _ H1), first_hit_flags, Hb.
      rewrite first_flags_marked by exact Hl.
      apply mark_with_twice; [exact Hl|apply first_flags_length].
Qed.

Lemma remove_dead_marked fl (bs : list Bullet.t) :
  Game.remove_dead (mark_with fl bs)
  = map snd
        (filter (fun fb : bool * Bullet.t =>
                   negb (fst fb) && negb (Bullet.life (snd fb) <=? lit 0))
                (combine fl bs)).
Proof.
  unfold Game.remove_dead, mark_with. revert fl.
  induction bs as [|b bs IH]; intros [|u fl]; try reflexivity.
  cbn [combine map filter fst snd]. destruct u; cbn [negb andb].
  - cbn [Bullet.set_life Bullet.life]. rewrite zero_le0. cbn [negb].
    apply IH.
  - destruct (Bullet.life b <=? lit 0); cbn [negb map snd];
      [apply IH|f_equal; apply IH].
Qed.

Lemma bullets_vs_asteroids_survivors (g : Game.t) r g' r' :
  Game.bullets_vs_asteroids g r = Done (g', r') ->
  Game.bullets g' = survivors (Game.asteroids g) (Game.bullets g).
Proof.
  unfold Game.bullets_vs_asteroids. intros H.
  apply bind_inv in H as (st & r1 & H1 & H). inversion H; subst.
  cbn [Game.bullets].
  rewrite (resolve_all_flags _ _ _ _ _ (map (fun _ => false) (Game.bullets g))
             (Game.bullets g) H1).
  - apply remove_dead_marked.
  - apply length_map.
  - cbn [Game.p_bullets]. apply eq_sym, mark_with_false.
Qed.

(** X24: the whole of [handle_collisions] on the asteroids, the score and
    the bullets.  The asteroids destroyed are exactly those that some
    bullet of the list overlaps, whatever the order of the two lists; the
    score rises by ten times their sizes; the others stay, in their order,
    ahead of the fragments, two for each destroyed asteroid larger than
    Small.  The bullets removed are those with no life left and, for each
    destroyed asteroid, the first bullet of the list that overlaps it; the
    others stay, in their order. *)
Theorem collision_pass (g : Game.t) :
  Forall (fun a => valid_size (Asteroid.size a)) (Game.asteroids g) ->
  returns (Game.handle_collisions g)
    (fun g' =>
       Game.score g'
       = (Game.score g
          + points_for (filter (destroyed (Game.bullets g))
                               (Game.asteroids g)))%Z
       /\ (exists kids,
             Game.asteroids g'
             = filter (fun a => negb (destroyed (Game.bullets g) a))
                      (Game.asteroids g) ++ kids
             /\ length kids
                = (2 * length (splitting (Game.bullets g)
                                         (Game.asteroids g)))%nat
             /\ Forall (fun k => exists parent,
                          In parent (Game.asteroids g)
                          /\ destroyed (Game.bullets g) parent = true
                          /\ (1 < Asteroid.size parent)%Z
                          /\ fragment_of parent k) kids)
       /\ Game.bullets g' = survivors (Game.asteroids g) (Game.bullets g)
       /\ Game.wave g' = Game.wave g).
Proof.
  intros Hv r. unfold Game.handle_collisions.
  destruct (bullets_vs_asteroids_returns g Hv r)
    as (g1 & r1 & H1 & Ht & (_ & _ & Hw & _ & Hsc & _ & Hk)).
  pose proof (bullets_vs_asteroids_survivors _ _ _ _ H1) as Hb.
  exists (Game.player_vs_asteroids g1), r1.
  split; [now rewrite (bind_done _ _ _ _ _ H1)|]. split; [exact Ht|].
  destruct (player_vs_asteroids_frame g1) as (-> & -> & -> & ->).
  split; [exact Hsc|]. split; [exact Hk|]. split; [exact Hb|exact Hw].
Qed.
End WholeCollisionPass.

Section WebSpawn.
Context {FO : FloatOps}.
Variable RAND_MAX : Z.
Variable GetRandomValue : Z -> Z -> Rand Z.
Hypothesis GetRandomValue_returns :
  forall lo hi, returns (GetRandomValue lo hi) (fun _ => True).
Local Open Scope float_scope.

Lemma web_sample_position_first fuel ppos r :
  (exists k,
     (k < fuel)%nat
     /\ web_all_rejected RAND_MAX ppos (tape r) (cursor r) k
     /\ web_rejected RAND_MAX ppos (tape r) (cursor r + 2 * k) = false
     /\ Web.sample_position RAND_MAX fuel ppos r
        = Done (web_sample_at RAND_MAX (tape r) (cursor r + 2 * k),
                mkRng (tape r) (cursor r + 2 * k + 2)))
  \/ (web_all_rejected RAND_MAX ppos (tape r) (cursor r) fuel
      /\ Web.sample_position RAND_MAX fuel ppos r = Diverge).
Proof.
  revert r. induction fuel as [|fuel IH]; intros r.
  - right. split; [intros j Hj; lia|reflexivity].
  - cbn [Web.sample_position].
    change (bind (Web.RandomRange RAND_MAX (lit 0) (of_int SCREEN_WIDTH)) ?k r)
      with (k (x (web_sample_at RAND_MAX (tape r) (cursor r)))
              (mkRng (tape r) (S (cursor r)))).
    cbv beta.
    change (bind (Web.RandomRange RAND_MAX (lit 0) (of_int SCREEN_HEIGHT)) ?k
                 (mkRng (tape r) (S (cursor r))))
      with (k (y (web_sample_at RAND_MAX (tape r) (cursor r)))
              (mkRng (tape r) (S (S (cursor r))))).
    cbv beta. rewrite vector_eta.
    fold (web_rejected RAND_MAX ppos (tape r) (cursor r)).
    destruct (web_rejected RAND_MAX ppos (tape r) (cursor r)) eqn:E.
    + destruct (IH (mkRng (tape r) (S (S (cursor r)))))
        as [(k & Hk & Hall & Hacc & Hrun) | (Hall & Hrun)];
        cbn [tape cursor] in *.
      * left. exists (S k). split; [lia|].
        replace (cursor r + 2 * S k)%nat with (S (S (cursor r)) + 2 * k)%nat
          by lia.
        split; [|split; [exact Hacc|exact Hrun]].
        intros [|j] Hj.
        -- now rewrite Nat.mul_0_r, Nat.add_0_r.
        -- replace (cursor r + 2 * S j)%nat
             with (S (S (cursor r)) + 2 * j)%nat by lia.
           apply Hall. lia.
      * right. split; [|exact Hrun].
        intros [|j] Hj.
        -- now rewrite Nat.mul_0_r, Nat.add_0_r.
        -- replace (cursor r + 2 * S j)%nat
             with (S (S (cursor r)) + 2 * j)%nat by lia.
           apply Hall. lia.
    + left. exists 0%nat. rewrite Nat.mul_0_r, Nat.add_0_r.
      split; [lia|]. split; [intros j Hj; lia|]. split; [exact E|].
      unfold ret. now rewrite Nat.add_comm.
Qed.

Lemma web_spawn_loop_runs fuel n ppos acc r :
  (exists fresh r',
     Web.spawn_loop RAND_MAX GetRandomValue fuel n ppos acc r
     = Done (acc ++ fresh, r')
     /\ tape r' = tape r
     /\ length fresh = n
     /\ Forall (fun a =>
                  Asteroid.size a = 3%Z
                  /\ circle_collision (Asteroid.pos a) (of_int 80)
                                      ppos (of_int 120) = false) fresh)
  \/ (Web.spawn_loop RAND_MAX GetRandomValue fuel n ppos acc r = Diverge
      /\ exists c, web_all_rejected RAND_MAX ppos (tape r) c fuel).
Proof.
  revert acc r. induction n as [|n IH]; intros acc r.
  - left. exists [], r. rewrite app_nil_r. now repeat split.
  - cbn [Web.spawn_loop].
    destruct (web_sample_position_first fuel ppos r)
      as [(k & _ & _ & Hacc & H) | (Hall & H)].
    + rewrite (bind_done _ _ _ _ _ H).
      destruct (returns_NewAsteroid RAND_MAX GetRandomValue
                  GetRandomValue_returns
                  (web_sample_at RAND_MAX (tape r) (cursor r + 2 * k)) 3
                  (mkRng (tape r) (cursor r + 2 * k + 2)))
        as (a & r2 & Ha & Ht2 & Hpos & Hsize).
      rewrite (bind_done _ _ _ _ _ Ha). cbn [tape] in Ht2.
      destruct (IH (acc ++ [a]) r2)
        as [(fresh & r' & Hl & Ht & Hlen & Hfresh) | (Hl & c & Hc)].
      * left. exists (a :: fresh), r'.
        rewrite <- app_assoc in Hl. cbn [app] in Hl.
        split; [exact Hl|]. split; [congruence|].
        split; [cbn [length]; now rewrite Hlen|].
        constructor; [|exact Hfresh]. split; [exact Hsize|].
        now rewrite Hpos.
      * right. split; [exact Hl|]. exists c. now rewrite <- Ht2.
    + right. split; [unfold bind; now rewrite H|]. now exists (cursor r).
Qed.

Lemma web_sample_position_enough ppos r :
  (exists k, web_rejected RAND_MAX ppos (tape r) (cursor r + 2 * k) = false) ->
  exists p r' fuel0,
    tape r' = tape r
    /\ forall fuel, (fuel0 <= fuel)%nat ->
         Web.sample_position RAND_MAX fuel ppos r = Done (p, r').
Proof.
  intros (k & Hk).
  destruct (web_sample_position_first (S k) ppos r)
    as [(k0 & _ & Hall0 & Hacc0 & _) | (Hall & _)].
  - exists (web_sample_at RAND_MAX (tape r) (cursor r + 2 * k0)),
           (mkRng (tape r) (cursor r + 2 * k0 + 2)), (S k0).
    split; [reflexivity|]. intros fuel Hfuel.
    destruct (web_sample_position_first fuel ppos r)
      as [(k1 & _ & Hall1 & Hacc1 & Hrun) | (Hall & _)].
    + destruct (Nat.lt_trichotomy k1 k0) as [Hlt | [-> | Hlt]].
      * rewrite (Hall0 k1 Hlt) in Hacc1. discriminate.
      * exact Hrun.
      * rewrite (Hall1 k0 Hlt) in Hacc0. discriminate.
    + rewrite (Hall k0) in Hacc0 by lia. discriminate.
  - rewrite (Hall k) in Hk by lia. discriminate.
Qed.

Lemma web_spawn_loop_enough n ppos acc r :
  web_keeps_accepting RAND_MAX ppos (tape r) ->
  exists l r' fuel0,
    tape r' = tape r
    /\ forall fuel, (fuel0 <= fuel)%nat ->
         Web.spawn_loop RAND_MAX GetRandomValue fuel n ppos acc r
         = Done (l, r').
Proof.
  intros Hk. revert acc r Hk. induction n as [|n IH]; intros acc r Hk.
  - exists acc, r, 0%nat. split; [reflexivity|]. reflexivity.
  - destruct (web_sample_position_enough ppos r (Hk (cursor r)))
      as (p & r1 & f1 & Ht1 & H1).
    destruct (returns_NewAsteroid RAND_MAX GetRandomValue
                GetRandomValue_returns p 3 r1)
      as (a & r2 & Ha & Ht2 & _).
    destruct (IH (acc ++ [a]) r2) as (l & r' & f2 & Ht & H2).
    { now rewrite Ht2, Ht1. }
    exists l, r', (Nat.max f1 f2). split; [congruence|].
    intros fuel Hfuel. cbn [Web.spawn_loop].
    rewrite (bind_done _ _ _ _ _ (H1 fuel ltac:(lia))).
    rewrite (bind_done _ _ _ _ _ Ha). apply H2. lia.
Qed.

(** X25: [SpawnWave] of the web build replaces the asteroids by [3 + wave]
    Large ones, each outside the circle of radius 200 around the player
    (the test of the code, [CircleCollision] with the radii 80 and 120,
    fails for it), and changes nothing else.  The sampling loop has no
    bound in the code: with the bound [fuel] the call returns unless a loop
    meets [fuel] rejected samples in a row on the tape, and on a tape on
    which samples outside the circle keep coming it returns for every
    bound that is large enough.  The constructor and [Reset] call it with
    wave 1, the end of [Update] with the wave just incremented. *)
Theorem web_spawn_wave (g : Game.t) r :
  (forall fuel,
     (exists g' r',
        Web.SpawnWave RAND_MAX GetRandomValue fuel g r = Done (g', r')
        /\ tape r' = tape r
        /\ Game.player g' = Game.player g
        /\ Game.bullets g' = Game.bullets g
        /\ Game.score g' = Game.score g
        /\ Game.lives g' = Game.lives g
        /\ Game.wave g' = Game.wave g
        /\ Game.game_over g' = Game.game_over g
        /\ length (Game.asteroids g') = Z.to_nat (3 + Game.wave g)
        /\ Forall (fun a =>
                     Asteroid.size a = 3%Z
                     /\ circle_collision (Asteroid.pos a) (of_int 80)
                          (Player.pos (Game.player g)) (of_int 120) = false)
                  (Game.asteroids g'))
     \/ (Web.SpawnWave RAND_MAX GetRandomValue fuel g r = Diverge
         /\ exists c,
              web_all_rejected RAND_MAX (Player.pos (Game.player g))
                               (tape r) c fuel))
  /\ (web_keeps_accepting RAND_MAX (Player.pos (Game.player g)) (tape r) ->
      exists fuel0,
        forall fuel, (fuel0 <= fuel)%nat ->
          exists g' r',
            Web.SpawnWave RAND_MAX GetRandomValue fuel g r = Done (g', r')).
Proof.
  unfold Web.SpawnWave. split.
  - intros fuel.
    destruct (web_spawn_loop_runs fuel (Z.to_nat (3 + Game.wave g))
                (Player.pos (Game.player g)) [] r)
      as [(fresh & r' & Hl & Ht & Hlen & Hall) | (Hl & Hc)].
    + left. rewrite (bind_done _ _ _ _ _ Hl). eexists _, r'.
      split; [reflexivity|]. cbn [app Game.player Game.bullets Game.score
        Game.lives Game.wave Game.game_over Game.asteroids].
      now repeat split.
    + right. split; [|exact Hc]. unfold bind. now rewrite Hl.
  - intros Hk.
    destruct (web_spawn_loop_enough (Z.to_nat (3 + Game.wave g))
                (Player.pos (Game.player g)) [] r Hk)
      as (l & r' & fuel0 & _ & H).
    exists fuel0. intros fuel Hfuel.
    rewrite (bind_done _ _ _ _ _ (H fuel Hfuel)). now eexists _, _.
Qed.
End WebSpawn.

Section Flicker.
Context {FO : FloatOps}.
Local Open Scope float_scope.


End Flicker.

Section RealMotion.
Local Open Scope R_scope.

Lemma drift_on_screen (p v : @Vector2 RFloat) (dt : R) :
  0 <= dt -> vec_len v * dt <= 650 -> on_screen p ->
  on_screen (wrap_position (vec_add p (vec_scale v dt))).
Proof.
  intros Hdt Hd ((Hx0 & Hx1) & (Hy0 & Hy1)).
  unfold vec_len in Hd. cbn [fhypot RFloat] in Hd.
  pose proof (abs_le_hypot (x v) (y v)) as Hax.
  pose proof (abs_le_hypot (y v) (x v)) as Hay.
  rewrite (Rplus_comm (y v * y v)) in Hay.
  set (s := sqrt (x v * x v + y v * y v)) in *.
  assert (- s <= x v <= s) as Hvx
    by (unfold Rabs in Hax; destruct (Rcase_abs (x v)); lra).
  assert (- s <= y v <= s) as Hvy
    by (unfold Rabs in Hay; destruct (Rcase_abs (y v)); lra).
  apply wrap_real; unfold vec_add, vec_scale;
    cbn [x y fadd fmul RFloat]; nra.
Qed.

(** X27: a bullet or an asteroid that is on the screen (edges included) is
    on the screen after its update, provided the frame is not negative and
    the object moves by at most 650, the height of the screen, in it; the
    update changes nothing but the position (and the life of a bullet). *)
Theorem movers_stay_on_screen (dt : R) :
  0 <= dt ->
  (forall b : @Bullet.t RFloat,
     vec_len (Bullet.vel b) * dt <= 650 -> on_screen (Bullet.pos b) ->
     on_screen (Bullet.pos (@Bullet.update RFloat dt b))
     /\ Bullet.vel (@Bullet.update RFloat dt b) = Bullet.vel b)
  /\ (forall a : @Asteroid.t RFloat,
        vec_len (Asteroid.vel a) * dt <= 650 -> on_screen (Asteroid.pos a) ->
        on_screen (Asteroid.pos (@Asteroid.update RFloat dt a))
        /\ Asteroid.vel (@Asteroid.update RFloat dt a) = Asteroid.vel a
        /\ Asteroid.size (@Asteroid.update RFloat dt a) = Asteroid.size a
        /\ Asteroid.radius (@Asteroid.update RFloat dt a) = Asteroid.radius a
        /\ Asteroid.points (@Asteroid.update RFloat dt a) = Asteroid.points a).
Proof.
  intros Hdt. split.
  - intros b Hv Hp. split; [|reflexivity].
    cbn [Bullet.update Bullet.pos]. now apply drift_on_screen.
  - intros a Hv Hp. split; [|now repeat split].
    cbn [Asteroid.update Asteroid.pos]. now apply drift_on_screen.
Qed.

Lemma wrap_right (a b : R) :
  900 < a -> 0 <= b <= 650 ->
  wrap_position (@mkVector2 RFloat a b) = @mkVector2 RFloat (a - 900)%R b.
Proof.
  intros Ha Hb. unfold wrap_position, of_int, SCREEN_WIDTH, SCREEN_HEIGHT.
  cbn [x y fltb fadd fsub lit RFloat]. rewrite !Q2R_inject_Z, Q2R_0.
  replace (Rltb a 0) with false by (symmetry; apply Rltb_ge; lra).
  replace (Rltb 900 a) with true by (symmetry; apply Rltb_lt; lra).
  replace (Rltb b 0) with false by (symmetry; apply Rltb_ge; lra).
  replace (Rltb 650 b) with false by (symmetry; apply Rltb_ge; lra).
  reflexivity.
Qed.

Lemma wrap_top (a b : R) :
  0 <= a <= 900 -> b < 0 ->
  wrap_position (@mkVector2 RFloat a b) = @mkVector2 RFloat a (b + 650)%R.
Proof.
  intros Ha Hb. unfold wrap_position, of_int, SCREEN_WIDTH, SCREEN_HEIGHT.
  cbn [x y fltb fadd fsub lit RFloat]. rewrite !Q2R_inject_Z, Q2R_0.
  replace (Rltb a 0) with false by (symmetry; apply Rltb_ge; lra).
  replace (Rltb 900 a) with false by (symmetry; apply Rltb_ge; lra).
  replace (Rltb b 0) with true by (symmetry; apply Rltb_lt; lra).
  reflexivity.
Qed.

Lemma hypot_axis (a : R) : 0 <= a -> sqrt (a * a + 0 * 0) = a.
Proof.
  intros Ha. replace (a * a + 0 * 0) with (a * a) by ring.
  now apply sqrt_square.
Qed.

(** X9: a ship that is on the screen (edges included) is on the screen
    after [Player::update], whatever the input, provided the frame is not
    negative and the ship moves by at most 650, the height of the screen,
    in it.  Both builds. *)
Theorem player_stays_on_screen inp (dt : R) (p : @Player.t RFloat) :
  0 <= dt -> on_screen (Player.pos p) ->
  (vec_len (Player.vel (@Player.update RFloat inp dt p)) * dt <= 650 ->
   on_screen (Player.pos (@Player.update RFloat inp dt p)))
  /\ (vec_len (Player.vel (@Web.PlayerUpdate RFloat inp dt p)) * dt <= 650 ->
      on_screen (Player.pos (@Web.PlayerUpdate RFloat inp dt p))).
Proof.
  intros Hdt Hp. split; intros Hv.
  - cbn [Player.update Player.vel Player.pos] in *.
    now apply drift_on_screen.
  - cbn [Web.PlayerUpdate Player.vel Player.pos] in *.
    now apply drift_on_screen.
Qed.

Lemma friction_bounds : 1 / 300 < Rpower (Q2R 0.98) (1 * Q2R 60.0) < 1.
Proof.
  assert (Q2R 0.98 = 98 / 100) as -> by (unfold Q2R; cbn [Qnum Qden]; lra).
  assert (1 * Q2R 60.0 = INR 60) as ->.
  { unfold Q2R. cbn [Qnum Qden]. rewrite INR_IZR_INZ. cbn. lra. }
  rewrite Rpower_pow by lra.
  assert (8 / 10 <= (98 / 100) ^ 10 < 1) as H10
    by (cbn [pow]; split; lra).
  replace 60%nat with (10 * 6)%nat by reflexivity.
  rewrite pow_mult. set (u := (98 / 100) ^ 10) in *. cbn [pow].
  assert (0.64 <= u * u < 1) by nra.
  assert (0.4 <= u * u * (u * u) < 1) by nra.
  nra.
Qed.

Lemma player_update_pos inp (dt : R) (p : @Player.t RFloat) :
  Player.pos (@Player.update RFloat inp dt p)
  = wrap_position
      (vec_add (Player.pos p)
         (vec_scale (Player.vel (@Player.update RFloat inp dt p)) dt)).
Proof. reflexivity. Qed.

Lemma cruising_velocity :
  Player.vel (@Player.update RFloat idle 1 cruising)
  = @mkVector2 RFloat (300 * Rpower (Q2R 0.98) (1 * Q2R 60.0))%R
                      (0 * Rpower (Q2R 0.98) (1 * Q2R 60.0))%R.
Proof.
  pose proof friction_bounds as Hc.
  cbn [Player.update Player.vel cruising idle down_UP down_W orb].
  unfold SHIP_FRICTION, SHIP_MAX_SPEED, vec_clamp_length, vec_len, vec_scale.
  cbn [x y fhypot fmul fpow fltb fdiv lit RFloat andb].
  set (c := Rpower (Q2R 0.98) (1 * Q2R 60.0)) in *.
  replace (0 * c * (0 * c)) with (0 * 0) by ring.
  rewrite hypot_axis by nra.
  assert (Q2R 360.0 = 360) as -> by (unfold Q2R; cbn [Qnum Qden]; lra).
  replace (Rltb 360 (300 * c)) with false
    by (symmetry; apply Rltb_ge; lra).
  reflexivity.
Qed.

End RealMotion.

Section WebWholePass.
Context {FO : FloatOps}.
Variable RAND_MAX : Z.
Variable GetRandomValue : Z -> Z -> Rand Z.
Hypothesis GetRandomValue_returns :
  forall lo hi, returns (GetRandomValue lo hi) (fun _ => True).
Local Open Scope float_scope.

Lemma web_resolve_asteroid_bullets a (st : Web.pass) r st1 r1 :
  Web.resolve_asteroid RAND_MAX GetRandomValue a st r = Done (st1, r1) ->
  Web.p_bullets st1
  = match Game.first_hit a (Web.p_bullets st) with
    | Some bs' => bs'
    | None => Web.p_bullets st
    end.
Proof.
  unfold Web.resolve_asteroid.
  destruct (Game.first_hit a (Web.p_bullets st)) as [bs'|].
  - intros H. apply bind_inv in H as (kids & r0 & _ & H).
    now inversion H.
  - intros H. now inversion H.
Qed.

Lemma web_resolve_all_flags asts (st : Web.pass) r st' r' fl bs :
  Web.resolve_all RAND_MAX GetRandomValue asts st r = Done (st', r') ->
  length fl = length bs ->
  Web.p_bullets st = mark_with fl bs ->
  Web.p_bullets st'
  = mark_with (fold_left (fun f a => or_flags f (first_flags a bs)) asts fl)
              bs.
Proof.
  revert st r fl. induction asts as [|a rest IH]; intros st r fl H Hl Hb;
    cbn [Web.resolve_all fold_left] in *.
  - inversion H; subst. exact Hb.
  - apply bind_inv in H as (st1 & r1 & H1 & H).
    apply (IH _ _ _ H).
    + rewrite or_flags_length; [exact Hl|].
      now rewrite first_flags_length.
    + rewrite (web_resolve_asteroid_bullets _ _ _ _ _ H1), first_hit_flags, Hb.
      rewrite first_flags_marked by exact Hl.
      apply mark_with_twice; [exact Hl|apply first_flags_length].
Qed.

Lemma block_of_marked bs bs' (asts : list Asteroid.t) blocks :
  Forall2 marked bs bs' ->
  Forall2 (block_of bs') asts blocks -> Forall2 (block_of bs) asts blocks.
Proof.
  intros Hm H. induction H as [|a blk asts blocks Hb _ IH]; constructor;
    [|exact IH].
  unfold block_of in *. now rewrite <- (marked_destroyed a bs bs' Hm).
Qed.

Lemma web_resolve_all_spec asts (st : Web.pass) :
  returns (Web.resolve_all RAND_MAX GetRandomValue asts st)
    (fun st' =>
       Web.p_score st'
       = (Web.p_score st
          + points_for (filter (destroyed (Web.p_bullets st)) asts))%Z
       /\ exists blocks,
            Web.newAsteroids st' = Web.newAsteroids st ++ concat blocks
            /\ Forall2 (block_of (Web.p_bullets st)) asts blocks).
Proof.
  revert st. induction asts as [|a rest IH]; intros st r.
  - apply returns_at_ret. split; [cbn; lia|].
    exists []. split; [cbn; now rewrite app_nil_r|constructor].
  - cbn [Web.resolve_all].
    destruct (Game.first_hit a (Web.p_bullets st)) as [bs'|] eqn:Eh.
    + pose proof (first_hit_marked _ _ _ Eh) as Hm.
      assert (destroyed (Web.p_bullets st) a = true) as Ed
        by (rewrite first_hit_destroyed; now rewrite Eh).
      eapply returns_at_bind;
        [apply (web_resolve_asteroid_hit RAND_MAX GetRandomValue
                  GetRandomValue_returns a st bs' Eh)|].
      intros st1 r1 _ (Hsc & Hb & kids & Hnew & Hk & Hlen).
      eapply returns_at_weaken; [apply IH|].
      intros st' (Hsc' & blocks & Hnew' & Hbl). cbv beta.
      rewrite Hb in *. split.
      * rewrite Hsc', Hsc. cbn [filter]. rewrite Ed.
        rewrite (filter_marked destroyed _ _ rest
                   (fun x => marked_destroyed x _ _ Hm)).
        cbn [points_for fold_right]. fold (points_for
          (filter (destroyed (Web.p_bullets st)) rest)). lia.
      * exists (kids :: blocks). split.
        -- rewrite Hnew', Hnew. cbn [concat]. now rewrite <- app_assoc.
        -- constructor; [|exact (block_of_marked _ _ _ _ Hm Hbl)].
           unfold block_of. rewrite Ed. now split.
    + assert (destroyed (Web.p_bullets st) a = false) as Ed
        by (rewrite first_hit_destroyed; now rewrite Eh).
      assert (Web.resolve_asteroid RAND_MAX GetRandomValue a st r
              = Done (Web.mkPass (Web.p_bullets st) (Web.p_score st)
                                 (Web.newAsteroids st ++ [a]), r)) as E1.
      { unfold Web.resolve_asteroid. now rewrite Eh. }
      eapply returns_at_bind; [apply (returns_at_done _ _ _ E1)|].
      intros st1 r1 _ ->.
      eapply returns_at_weaken; [apply IH|].
      intros st' (Hsc' & blocks & Hnew' & Hbl). cbv beta.
      cbn [Web.p_score Web.p_bullets Web.newAsteroids] in *. split.
      * rewrite Hsc'. cbn [filter]. now rewrite Ed.
      * exists ([a] :: blocks). split.
        -- rewrite Hnew'. cbn [concat]. now rewrite <- !app_assoc.
        -- constructor; [|exact Hbl]. unfold block_of. now rewrite Ed.
Qed.

(** X29: the whole of [HandleCollisions] of the web build on the asteroids,
    the score and the bullets.  It never throws.  The asteroids destroyed
    are those that some bullet of the list overlaps, and the score rises by
    ten times their sizes, as in the desktop build; but each destroyed
    asteroid is replaced where it stood in the list by its fragments (two,
    or none for a Small one), and the first bullet that overlaps a
    destroyed asteroid stays in the list with the life 0, for the next
    call of [Update] to remove. *)
Theorem web_collision_pass (g : Game.t) :
  returns (Web.HandleCollisions RAND_MAX GetRandomValue g)
    (fun g' =>
       Game.score g'
       = (Game.score g
          + points_for (filter (destroyed (Game.bullets g))
                               (Game.asteroids g)))%Z
       /\ (exists blocks,
             Game.asteroids g' = concat blocks
             /\ Forall2 (block_of (Game.bullets g)) (Game.asteroids g) blocks)
       /\ Game.bullets g'
          = mark_with (claimed (Game.asteroids g) (Game.bullets g))
                      (Game.bullets g)
       /\ Game.wave g' = Game.wave g).
Proof.
  intros r. unfold Web.HandleCollisions.
  destruct (web_resolve_all_spec (Game.asteroids g)
              (Web.mkPass (Game.bullets g) (Game.score g) []) r)
    as (st & r1 & H1 & Ht & Hsc & blocks & Hnew & Hbl).
  cbn [Web.p_score Web.p_bullets Web.newAsteroids app] in *.
  pose proof (web_resolve_all_flags _ _ _ _ _
                (map (fun _ => false) (Game.bullets g)) (Game.bullets g) H1
                (length_map _ _) (eq_sym (mark_with_false _))) as Hb.
  eexists _, r1. split; [now rewrite (bind_done _ _ _ _ _ H1)|].
  split; [exact Ht|].
  match goal with
  | |- context [Game.player_vs_asteroids ?gg] =>
      destruct (player_vs_asteroids_frame gg) as (-> & -> & -> & ->)
  end.
  cbn [Game.score Game.asteroids Game.bullets Game.wave].
  split; [exact Hsc|]. split; [now exists blocks|]. split; [exact Hb|].
  reflexivity.
Qed.
End WebWholePass.

Section FurtherConcreteFacts.
Local Existing Instance QF.
Local Open Scope Q_scope.

(** X24 at one bullet over a Large and a Medium asteroid. *)
Lemma collision_pass_witness :
  returns (Game.handle_collisions crowded)
    (fun g' => Game.score g' = 50%Z
               /\ length (Game.asteroids g') = 4%nat
               /\ Game.bullets g' = []).
Proof.
  intros r. eapply returns_at_weaken.
  - refine (collision_pass crowded _ r).
    repeat constructor; unfold valid_size; cbn; lia.
  - intros g' (Hs & (kids & Ha & Hl & _) & Hb & _).
    split; [exact Hs|]. split; [rewrite Ha; exact Hl|exact Hb].
Defined.

(** X29 at the same game: the bullet stays, with the life 0. *)
Lemma web_collision_pass_witness :
  returns (Web.HandleCollisions 2147483647 uniform_int crowded)
    (fun g' => Game.score g' = 50%Z
               /\ Game.bullets g' = [Bullet.set_life 0 shot]).
Proof.
  intros r. eapply returns_at_weaken.
  - exact (web_collision_pass 2147483647%Z uniform_int
             returns_uniform_int_any crowded r).
  - intros g' (Hs & _ & Hb & _). split; [exact Hs|exact Hb].
Defined.

Lemma web_centre_first_never_two c :
  ~ web_all_rejected 2147483647 Player.center web_centre_first_tape c 2.
Proof.
  intros H. specialize (H 1%nat ltac:(lia)).
  unfold web_rejected, web_sample_at, web_centre_first_tape in H.
  replace (c + 2 * 1)%nat with (S (S c)) in H by lia.
  discriminate.
Qed.

Lemma web_centre_first_keeps :
  web_keeps_accepting 2147483647 Player.center web_centre_first_tape.
Proof.
  intros c. exists 1%nat.
  unfold web_rejected, web_sample_at, web_centre_first_tape.
  replace (c + 2 * 1)%nat with (S (S c)) by lia.
  reflexivity.
Qed.

(** X25 at a game of wave 1, on a tape whose first sample is rejected, with
    the bound 2 on the sampling loop and with every larger one. *)
Lemma web_spawn_wave_witness :
  web_rejected 2147483647 Player.center web_centre_first_tape 0 = true
  /\ (exists g' r',
        Web.SpawnWave 2147483647 uniform_int 2 exposed
                      (mkRng web_centre_first_tape 0) = Done (g', r')
        /\ length (Game.asteroids g') = 4%nat
        /\ Forall (fun a =>
                     Asteroid.size a = 3%Z
                     /\ circle_collision (Asteroid.pos a) (of_int 80)
                          (Player.pos (Game.player exposed)) (of_int 120)
                        = false)
                  (Game.asteroids g'))
  /\ exists fuel0,
       forall fuel, (fuel0 <= fuel)%nat ->
         exists g' r',
           Web.SpawnWave 2147483647 uniform_int fuel exposed
                         (mkRng web_centre_first_tape 0) = Done (g', r').
Proof.
  split; [reflexivity|].
  destruct (@web_spawn_wave QF 2147483647 uniform_int
              returns_uniform_int_any exposed
              (mkRng web_centre_first_tape 0)) as (H & Hen).
  split; [|exact (Hen web_centre_first_keeps)].
  destruct (H 2%nat)
    as [(g' & r' & Hu & _ & _ & _ & _ & _ & _ & _ & Hlen & Hall)
       | (_ & c & Hc)].
  - exists g', r'. split; [exact Hu|]. split; [exact Hlen|exact Hall].
  - exfalso. exact (web_centre_first_never_two c Hc).
Defined.

End FurtherConcreteFacts.

Section FlickerWitness.

End FlickerWitness.

Section FurtherRealWitness.
Local Open Scope R_scope.

(** X27 at a bullet that leaves the screen on the right, at 600 a second,
    and comes back on the left; and at an asteroid that leaves it at the
    top and comes back at the bottom.  The frame lasts a second. *)
Lemma movers_stay_on_screen_witness :
  (on_screen
     (Bullet.pos
        (@Bullet.update RFloat 1
           (Bullet.mk (@mkVector2 RFloat 899 1) (@mkVector2 RFloat 600 0) 1)))
   /\ Bullet.pos
        (@Bullet.update RFloat 1
           (Bullet.mk (@mkVector2 RFloat 899 1) (@mkVector2 RFloat 600 0) 1))
      = @mkVector2 RFloat (899 + 600 * 1 - 900)%R (1 + 0 * 1)%R)
  /\ (on_screen
        (Asteroid.pos
           (@Asteroid.update RFloat 1
              (Asteroid.mk (@mkVector2 RFloat 1 1) 3 42
                           (@mkVector2 RFloat 0 (-(2))%R) [])))
      /\ Asteroid.pos
           (@Asteroid.update RFloat 1
              (Asteroid.mk (@mkVector2 RFloat 1 1) 3 42
                           (@mkVector2 RFloat 0 (-(2))%R) []))
         = @mkVector2 RFloat (1 + 0 * 1)%R (1 + -(2) * 1 + 650)%R).
Proof.
  assert (0 <= 1) as H1 by lra.
  destruct (movers_stay_on_screen 1 H1) as (Hb & Ha).
  split; split.
  - apply Hb.
    + unfold vec_len. cbn [Bullet.vel x y fhypot fmul RFloat].
      rewrite hypot_axis; lra.
    + unfold on_screen. cbn [Bullet.pos x y]. lra.
  - cbn [Bullet.update Bullet.pos Bullet.vel vec_add vec_scale x y
         fadd fmul RFloat].
    apply wrap_right; lra.
  - apply Ha.
    + unfold vec_len. cbn [Asteroid.vel x y fhypot fmul RFloat].
      replace (0 * 0 + - (2) * - (2)) with (2 * 2 + 0 * 0) by ring.
      rewrite hypot_axis; lra.
    + unfold on_screen. cbn [Asteroid.pos x y]. lra.
  - cbn [Asteroid.update Asteroid.pos Asteroid.vel vec_add vec_scale x y
         fadd fmul RFloat].
    apply wrap_top; lra.
Defined.

(** X9 at a ship that leaves the screen on the right and comes back on the
    left: after a frame of a second, without thrust, friction has left it
    between 1 and 300 of its speed of 300. *)
Lemma player_stays_on_screen_witness :
  on_screen (Player.pos (@Player.update RFloat idle 1 cruising))
  /\ x (Player.pos (@Player.update RFloat idle 1 cruising)) < 299.
Proof.
  pose proof friction_bounds as Hc.
  pose proof cruising_velocity as Hv.
  split.
  - assert (0 <= 1) as H1 by lra.
    assert (on_screen (Player.pos cruising)) as Hon
      by (unfold on_screen; cbn [cruising Player.pos x y]; lra).
    refine (proj1 (player_stays_on_screen idle 1 cruising H1 Hon) _).
    rewrite Hv. unfold vec_len. cbn [x y fhypot fmul RFloat].
    set (c := Rpower (Q2R 0.98) (1 * Q2R 60.0)) in *.
    replace (0 * c * (0 * c)) with (0 * 0) by ring.
    rewrite hypot_axis by nra. lra.
  - rewrite player_update_pos, Hv.
    cbn [cruising Player.pos]. unfold vec_add, vec_scale.
    cbn [x y fadd fmul RFloat].
    set (c := Rpower (Q2R 0.98) (1 * Q2R 60.0)) in *.
    rewrite wrap_right by lra. cbn [x]. lra.
Defined.
End FurtherRealWitness.

Section ScoreWitness.
Local Existing Instance QF.

(** X30 at the end of the scripted run. *)
Lemma score_invariant_witness :
  (Game.score script_end + field_worth (Game.asteroids script_end)
   = 55 * Game.wave script_end * (Game.wave script_end + 7))%Z.
Proof.
  exact (score_invariant script_end _ script_end_reachable).
Defined.
End ScoreWitness.
